(** * traffic-path: shortest paths, traffic simulation and travellers

    A shallow embedding of the computational core of the repository:

    - [GraphApi]: [ShortestPathService.find_shortest_path]
      (graph-api/src/backend/services/shortest_path.py) over the pydantic
      models of graph-api/src/backend/models/graph.py;
    - [GraphRoutes]: the handler of [POST /graph/shortest-path]
      (graph-api/src/backend/routes/graph.py);
    - [TrafficApi]: [TrafficGenerator]
      (traffic-api/src/backend/services/traffic_generator.py);
    - [TravellerApi]: [TravellerWorkflow]
      (traveller-api/src/backend/workflows/traveller.py).

    Conventions of the embedding.  A Python [float] is a rational ([Q])
    or [+inf].  In graph-api, where sums of edge weights are compared and
    the rounding and the overflow of a sum decide the answer, floats are
    added as IEEE 754 doubles ([float_add]); no negative number and no
    NaN arises there.  In traffic-api floats are exact rationals:
    rounding error is not modelled there.
    Python dicts keyed by strings are [gmap string _], sets are [gset];
    a failing subscript raises [KeyError] as in Python.  Mutation is
    explicit state passing; randomness, the clock and the answers of
    remote services are inputs.  The other HTTP routes, the persistence
    clients and the callbacks notified after a tick are outside the
    embedding. *)

From Stdlib Require Import QArith Qround Qpower Lqa Lia ZArith String List.
From stdpp Require Import gmap strings list fin_maps pretty.

Local Open Scope string_scope.
Local Open Scope list_scope.

(** ** Python values shared by the three services *)

Module Py.

(** The exceptions the modelled code can raise. *)
Inductive exn :=
| KeyError (key : string)
| ValueError (msg : string)
| OverflowError.

(** Outcome of running a piece of Python: a value, an exception, or
    [Unfinished] when a fuel-bounded loop of the model ran out of fuel
    (the theorems show that this never happens for the fuel chosen). *)
Inductive outcome (A : Type) :=
| Returned (a : A)
| Raised (e : exn)
| Unfinished.
Arguments Returned {A} a.
Arguments Raised {A} e.
Arguments Unfinished {A}.

(** A [float]: a rational or [float('inf')]. *)
Inductive float :=
| Fin (q : Q)
| Inf.

(** [a < b] on floats. *)
Definition Qltb (a b : Q) : bool := negb (Qle_bool b a).

Definition float_ltb (a b : float) : bool :=
  match a, b with
  | Fin x, Fin y => Qltb x y
  | Fin _, Inf => true
  | Inf, _ => false
  end.

(** [a == float('inf')]. *)
Definition is_inf (a : float) : bool :=
  match a with Inf => true | Fin _ => false end.

(** [min(a, b)] and [max(a, b)] on floats: the first argument wins ties. *)
Definition float_min (a b : Q) : Q := if Qltb b a then b else a.
Definition float_max (a b : Q) : Q := if Qltb a b then b else a.

(** [round(x)]: to the nearest integer, halves to the even one. *)
Definition py_round (x : Q) : Z :=
  let f := Qfloor x in
  match Qcompare (x - inject_Z f) (1 # 2) with
  | Lt => f
  | Gt => (f + 1)%Z
  | Eq => if Z.even f then f else (f + 1)%Z
  end.

(** [int(x)]: truncation towards zero. *)
Definition py_int (x : Q) : Z := Z.quot (Qnum x) (Z.pos (Qden x)).

(** *** Double-precision addition

    A double has a significand of 53 bits and an exponent between -1022
    and 1023; below [2^-1022] the doubles are the multiples of [2^-1074].
    The sum of two doubles is the double nearest to their exact sum, the
    one with the even significand when two are as near, and [inf] when
    that would need an exponent above 1023. *)

(** [floor(log2(q))] for [0 < q]. *)
Definition binade (q : Q) : Z :=
  let e := (Z.log2 (Qnum q) - Z.log2 (Z.pos (Qden q)))%Z in
  if Qle_bool (2 ^ e) q then e else (e - 1)%Z.

(** The double nearest to a rational [0 <= q]. *)
Definition round_to_double (q : Q) : float :=
  if Qle_bool q 0 then Fin 0
  else
    let e := Z.max (binade q) (-1022) in
    let ulp := (2 ^ (e - 52))%Q in
    let r := (inject_Z (py_round (q / ulp)) * ulp)%Q in
    if Qle_bool (2 ^ 1024) r then Inf else Fin (Qred r).

(** The float that a decimal literal, or a number of a request body,
    denotes. *)
Definition float_literal (q : Q) : float := round_to_double q.

(** [a + b] for floats that are not negative. *)
Definition float_add (a b : float) : float :=
  match a, b with
  | Fin x, Fin y => round_to_double (x + y)
  | _, _ => Inf
  end.

(** Whether the rational [0 <= q] is a double. *)
Definition is_double (q : Q) : bool :=
  match round_to_double q with
  | Fin r => Qeq_bool r q
  | Inf => false
  end.

(** [a <= b] on floats, for the statements. *)
Definition float_le (a b : float) : Prop :=
  match a, b with
  | Fin x, Fin y => (x <= y)%Q
  | _, Inf => True
  | Inf, Fin _ => False
  end.
Arguments float_le : simpl never.

End Py.

(** ** graph-api *)

Module GraphApi.
Import Py.

(** models/graph.py *)
Record Vertex := { id : string; name : string }.

(** [weight] carries the pydantic constraint [gt=0], see [Edge_valid]. *)
Record Edge := { from_vertex : string; to_vertex : string; weight : float }.

Record Graph := { vertices : list Vertex; edges : list Edge }.

(** The [message] of a response is an f-string; it is kept as its format
    and arguments:
    - [StartNotFound s]: "Start vertex '{s}' not found in graph"
    - [EndNotFound e]: "End vertex '{e}' not found in graph"
    - [NoPathFound s e]: "No path found between '{s}' and '{e}'"
    - [FoundShortestPath d]: "Found shortest path with distance {d}" *)
Inductive Message :=
| StartNotFound (start_id : string)
| EndNotFound (end_id : string)
| NoPathFound (start_id end_id : string)
| FoundShortestPath (d : float).

(** [path_vertices] is the response field [vertices]. *)
Record ShortestPathResponse := {
  path : list string;
  path_vertices : list Vertex;
  total_distance : float;
  success : bool;
  message : Message
}.

(** [weight: float = Field(..., gt=0)]: a double greater than 0, or
    [inf] (which pydantic lets through; [nan] fails [gt=0]). *)
Definition Edge_valid (e : Edge) : Prop :=
  match weight e with
  | Fin q => is_double q = true ∧ (0 < q)%Q
  | Inf => True
  end.

(** *** heapq on (distance, vertex_id) tuples

    [heapq] keeps a binary heap inside a Python list.  All its caller
    observes is that [heappop] removes and returns a smallest item, and
    tuples compare lexicographically (floats first, then strings by
    code point); two items that compare equal are the same tuple.  The
    heap is therefore modelled by the list of its items, and [heappop]
    extracts a least one. *)
Definition tuple_ltb (a b : float * string) : bool :=
  if float_ltb (fst a) (fst b) then true
  else if float_ltb (fst b) (fst a) then false
  else String.ltb (snd a) (snd b).

Definition heappush (h : list (float * string)) (x : float * string) :
  list (float * string) := h ++ [x].

Fixpoint heappop_from (best : float * string) (h : list (float * string)) :
  (float * string) * list (float * string) :=
  match h with
  | [] => (best, [])
  | y :: h' =>
      if tuple_ltb y best
      then let (m, r) := heappop_from y h' in (m, best :: r)
      else let (m, r) := heappop_from best h' in (m, y :: r)
  end.

Definition heappop (h : list (float * string)) :
  option ((float * string) * list (float * string)) :=
  match h with
  | [] => None
  | x :: h' => Some (heappop_from x h')
  end.

(** *** ShortestPathService.find_shortest_path *)

(** [{v.id: f(v) for v in graph.vertices}]: later vertices with the same
    id overwrite earlier ones. *)
Definition dict_of_vertices {A} (f : Vertex → A) (vs : list Vertex) :
  gmap string A :=
  foldl (λ m v, <[id v := f v]> m) ∅ vs.

(** [for edge in graph.edges:
       adjacency[edge.from_vertex].append((edge.to_vertex, edge.weight))] *)
Fixpoint build_adjacency (es : list Edge)
    (adjacency : gmap string (list (string * float))) :
  outcome (gmap string (list (string * float))) :=
  match es with
  | [] => Returned adjacency
  | edge :: es' =>
      match adjacency !! from_vertex edge with
      | None => Raised (KeyError (from_vertex edge))
      | Some l =>
          build_adjacency es'
            (<[from_vertex edge := l ++ [(to_vertex edge, weight edge)]]>
               adjacency)
      end
  end.

(** The mutable locals of the search loop. *)
Record search := {
  distances : gmap string float;
  previous : gmap string (option string);
  pq : list (float * string);
  visited : gset string
}.

(** One turn of [for neighbor, weight in adjacency[current_vertex]]. *)
Definition relax (current_vertex : string) (current_distance : float)
    (st : search) (nw : string * float) : outcome search :=
  let distance := float_add current_distance (snd nw) in
  match distances st !! fst nw with
  | None => Raised (KeyError (fst nw))
  | Some dn =>
      if float_ltb distance dn
      then Returned
             {| distances := <[fst nw := distance]> (distances st);
                previous := <[fst nw := Some current_vertex]> (previous st);
                pq := heappush (pq st) (distance, fst nw);
                visited := visited st |}
      else Returned st
  end.

Fixpoint relax_all (current_vertex : string) (current_distance : float)
    (nbrs : list (string * float)) (st : search) : outcome search :=
  match nbrs with
  | [] => Returned st
  | nw :: nbrs' =>
      match relax current_vertex current_distance st nw with
      | Returned st' =>
          relax_all current_vertex current_distance nbrs' st'
      | Raised e => Raised e
      | Unfinished => Unfinished
      end
  end.

(** [while pq: ...], at most [fuel] turns. *)
Fixpoint while_pq (adjacency : gmap string (list (string * float)))
    (end_id : string) (fuel : nat) (st : search) : outcome search :=
  match fuel with
  | O => Unfinished
  | S fuel' =>
      match heappop (pq st) with
      | None => Returned st
      | Some ((current_distance, current_vertex), pq') =>
          if decide (current_vertex ∈ visited st)
          then (* continue *)
            while_pq adjacency end_id fuel'
              {| distances := distances st; previous := previous st;
                 pq := pq'; visited := visited st |}
          else
            let st1 :=
              {| distances := distances st; previous := previous st;
                 pq := pq'; visited := {[current_vertex]} ∪ visited st |} in
            if decide (current_vertex = end_id)
            then (* break *) Returned st1
            else
              match distances st1 !! current_vertex with
              | None => Raised (KeyError current_vertex)
              | Some d =>
                  if float_ltb d current_distance
                  then (* outdated: continue *)
                    while_pq adjacency end_id fuel' st1
                  else
                    match adjacency !! current_vertex with
                    | None => Raised (KeyError current_vertex)
                    | Some nbrs =>
                        match relax_all current_vertex current_distance
                                nbrs st1 with
                        | Returned st2 =>
                            while_pq adjacency end_id fuel' st2
                        | Raised e => Raised e
                        | Unfinished => Unfinished
                        end
                    end
              end
      end
  end.

(** [while current is not None:
       path.append(current); current = previous[current]],
    at most [fuel] turns. *)
Fixpoint follow_previous (previous : gmap string (option string))
    (fuel : nat) (current : option string) (path : list string) :
  outcome (list string) :=
  match current with
  | None => Returned path
  | Some c =>
      match fuel with
      | O => Unfinished
      | S fuel' =>
          match previous !! c with
          | None => Raised (KeyError c)
          | Some p => follow_previous previous fuel' p (path ++ [c])
          end
      end
  end.

(** [[vertex_map[vertex_id] for vertex_id in path]] *)
Fixpoint lookup_all (vertex_map : gmap string Vertex) (path : list string) :
  outcome (list Vertex) :=
  match path with
  | [] => Returned []
  | vertex_id :: path' =>
      match vertex_map !! vertex_id with
      | None => Raised (KeyError vertex_id)
      | Some v =>
          match lookup_all vertex_map path' with
          | Returned vs => Returned (v :: vs)
          | Raised e => Raised e
          | Unfinished => Unfinished
          end
      end
  end.

Definition not_found (m : Message) : ShortestPathResponse :=
  {| path := []; path_vertices := []; total_distance := Inf;
     success := false; message := m |}.

(** Every turn of the search loop pops one item, and an item is pushed
    only when an edge out of a newly visited vertex is relaxed: the loop
    makes at most [1 + len(edges)] pops before it finds the heap empty. *)
Definition search_fuel (graph : Graph) : nat := S (S (length (edges graph))).

(** Following [previous] visits each vertex id at most once. *)
Definition path_fuel (graph : Graph) : nat := length (vertices graph).

Definition find_shortest_path (graph : Graph) (start_id end_id : string) :
  outcome ShortestPathResponse :=
  let vertex_map := dict_of_vertices (λ v, v) (vertices graph) in
  match vertex_map !! start_id with
  | None => Returned (not_found (StartNotFound start_id))
  | Some _ =>
  match vertex_map !! end_id with
  | None => Returned (not_found (EndNotFound end_id))
  | Some _ =>
  match build_adjacency (edges graph)
          (dict_of_vertices (λ _, []) (vertices graph)) with
  | Raised e => Raised e
  | Unfinished => Unfinished
  | Returned adjacency =>
  let st0 :=
    {| distances :=
         <[start_id := Fin 0]>
           (dict_of_vertices (λ _, Inf) (vertices graph));
       previous := dict_of_vertices (λ _, None) (vertices graph);
       pq := [(Fin 0, start_id)];
       visited := ∅ |} in
  match while_pq adjacency end_id (search_fuel graph) st0 with
  | Raised e => Raised e
  | Unfinished => Unfinished
  | Returned st =>
  match distances st !! end_id with
  | None => Raised (KeyError end_id)
  | Some d_end =>
  if is_inf d_end
  then Returned (not_found (NoPathFound start_id end_id))
  else
    match follow_previous (previous st) (path_fuel graph) (Some end_id) []
    with
    | Raised e => Raised e
    | Unfinished => Unfinished
    | Returned rpath =>
    let path := rev rpath in
    match lookup_all vertex_map path with
    | Raised e => Raised e
    | Unfinished => Unfinished
    | Returned path_vertices =>
        Returned {| path := path; path_vertices := path_vertices;
                    total_distance := d_end; success := true;
                    message := FoundShortestPath d_end |}
    end
    end
  end
  end
  end
  end
  end.

(** *** Paths of a graph, for the statements *)

(** [walk g a b es]: [es] is a sequence of edges of [g] leading from
    [a] to [b]. *)
Inductive walk (g : Graph) : string → string → list Edge → Prop :=
| walk_nil a : walk g a a []
| walk_cons a b e es :
    In e (edges g) → from_vertex e = a → walk g (to_vertex e) b es →
    walk g a b (e :: es).

(** The length of a sequence of edges as the search computes it: the
    weights are added one after the other, in double precision, to the
    distance [d] at which the sequence starts. *)
Definition add_weights (d : float) (es : list Edge) : float :=
  foldl (λ d e, float_add d (weight e)) d es.

Definition cost (es : list Edge) : float := add_weights (Fin 0) es.

(** The vertex ids a walk from [a] passes through, in order. *)
Definition vertex_ids (a : string) (es : list Edge) : list string :=
  a :: map to_vertex es.

Definition has_vertex (g : Graph) (v : string) : Prop :=
  In v (map id (vertices g)).

(** The graphs of the theorems: every edge joins two vertices of the graph
    and carries a weight of the data model. *)
Definition Graph_valid (g : Graph) : Prop :=
  ∀ e, In e (edges g) →
    has_vertex g (from_vertex e) ∧ has_vertex g (to_vertex e) ∧ Edge_valid e.

(** The example of graph-api/examples/shortest_path_example.py. *)
Definition example_simple_graph : Graph :=
  {| vertices :=
       [ {| id := "A"; name := "City A" |}; {| id := "B"; name := "City B" |};
         {| id := "C"; name := "City C" |}; {| id := "D"; name := "City D" |};
         {| id := "E"; name := "City E" |}; {| id := "F"; name := "City F" |} ];
     edges :=
       [ {| from_vertex := "A"; to_vertex := "B"; weight := Fin 1 |};
         {| from_vertex := "B"; to_vertex := "C"; weight := Fin 2 |};
         {| from_vertex := "A"; to_vertex := "D"; weight := Fin 4 |};
         {| from_vertex := "B"; to_vertex := "E"; weight := Fin 3 |};
         {| from_vertex := "C"; to_vertex := "F"; weight := Fin 1 |};
         {| from_vertex := "D"; to_vertex := "E"; weight := Fin 1 |};
         {| from_vertex := "E"; to_vertex := "F"; weight := Fin 2 |} ] |}.

Definition example_disconnected_graph : Graph :=
  {| vertices :=
       [ {| id := "A"; name := "Island A" |}; {| id := "B"; name := "Island B" |};
         {| id := "C"; name := "Island C" |}; {| id := "D"; name := "Island D" |} ];
     edges :=
       [ {| from_vertex := "A"; to_vertex := "B"; weight := Fin 1 |};
         {| from_vertex := "C"; to_vertex := "D"; weight := Fin 1 |} ] |}.

End GraphApi.

(** routes/graph.py *)

Module GraphRoutes.
Import Py GraphApi.

(** [ShortestPathRequest] of models/graph.py; [end_] is its field [end]. *)
Record ShortestPathRequest := { graph : Graph; start : string; end_ : string }.

(** The [detail] of an [HTTPException]:
    - [ResultMessage m]: [result.message] of a failure response;
    - [ErrorComputing e]: "Error computing shortest path: {str(e)}". *)
Inductive Detail :=
| ResultMessage (m : Message)
| ErrorComputing (e : exn).

(** What the handler gives back: the response it returns (status 200), or
    the [HTTPException] it raises.  [NoReply] stands for a search that ran
    out of fuel. *)
Inductive reply :=
| Respond (result : ShortestPathResponse)
| HTTPException (status_code : Z) (detail : Detail)
| NoReply.

(** [@router.post("/shortest-path")] *)
Definition find_shortest_path (request : ShortestPathRequest) : reply :=
  match GraphApi.find_shortest_path (graph request) (start request)
          (end_ request) with
  | Returned result =>
      if negb (success result)
      then HTTPException 404 (ResultMessage (message result))
      else Respond result
  | Raised e => HTTPException 500 (ErrorComputing e)
  | Unfinished => NoReply
  end.

End GraphRoutes.

(** ** traffic-api *)

Module TrafficApi.
Import Py.
Local Open Scope Q_scope.

(** The dicts of [self.vertices], [self.edges] and [self.incidents]. *)
Module Vertex.
Record t := { id : string; name : string; x : Q; y : Q }.
End Vertex.

Module Edge.
Record t := {
  id : string;
  from : string;
  to : string;
  weight : Q;
  distance : Z;
  speed : Z;
  vehicleCount : Z;
  isIncident : bool;
  incidentSeverity : Q;
  bidirectional : bool
}.

Definition set_weight (w : Q) (e : t) : t :=
  {| id := id e; from := from e; to := to e; weight := w;
     distance := distance e; speed := speed e;
     vehicleCount := vehicleCount e; isIncident := isIncident e;
     incidentSeverity := incidentSeverity e;
     bidirectional := bidirectional e |}.

Definition set_speed (v : Z) (e : t) : t :=
  {| id := id e; from := from e; to := to e; weight := weight e;
     distance := distance e; speed := v;
     vehicleCount := vehicleCount e; isIncident := isIncident e;
     incidentSeverity := incidentSeverity e;
     bidirectional := bidirectional e |}.

Definition set_vehicleCount (n : Z) (e : t) : t :=
  {| id := id e; from := from e; to := to e; weight := weight e;
     distance := distance e; speed := speed e;
     vehicleCount := n; isIncident := isIncident e;
     incidentSeverity := incidentSeverity e;
     bidirectional := bidirectional e |}.

(** [edge['isIncident'] = b; edge['incidentSeverity'] = s] *)
Definition set_incident (b : bool) (s : Q) (e : t) : t :=
  {| id := id e; from := from e; to := to e; weight := weight e;
     distance := distance e; speed := speed e;
     vehicleCount := vehicleCount e; isIncident := b;
     incidentSeverity := s;
     bidirectional := bidirectional e |}.
End Edge.

Module Incident.
Record t := {
  id : string;
  edgeId : string;
  from : string;
  to : string;
  severity : Q;
  startTime : Z;
  endTime : Z;
  type : string;
  description : string
}.

(** [==] on two incident dicts. *)
Definition eqb (a b : t) : bool :=
  String.eqb (id a) (id b) && String.eqb (edgeId a) (edgeId b) &&
  String.eqb (from a) (from b) && String.eqb (to a) (to b) &&
  Qeq_bool (severity a) (severity b) &&
  Z.eqb (startTime a) (startTime b) && Z.eqb (endTime a) (endTime b) &&
  String.eqb (type a) (type b) && String.eqb (description a) (description b).
End Incident.

(** [self.config] *)
Record Config := {
  node_count : Z;
  update_interval : Z;
  base_traffic_level : Q;
  traffic_variability : Q;
  incident_probability : Q;
  road_density : Q
}.

(** A dict holding some of the configuration keys: the optional [config]
    of the constructor and the [new_config] of [update_config]. *)
Record PartialConfig := {
  new_node_count : option Z;
  new_update_interval : option Z;
  new_base_traffic_level : option Q;
  new_traffic_variability : option Q;
  new_incident_probability : option Q;
  new_road_density : option Q
}.

(** What the generator takes from outside.  Each stream lists the
    successive results of the call named.  [random.randint] and
    [random.choice] consume one draw of the same source as
    [random.random].  [math.sqrt] is not a rational function; the model
    takes it from the environment and nothing is assumed about it. *)
Record World := {
  math_sqrt : Q → Q;
  random_draws : nat → Q;
  clock_ms : nat → Z;
    (** [int(time.time() * 1000)] *)
  clock_hour : nat → Z;
    (** [datetime.now().hour] *)
  uuid_hex : nat → string
    (** [uuid4().hex] *)
}.

(** A [TrafficGenerator] instance.  [update_task], [start_time] and
    [callbacks] play no part in the graph and are left out. *)
Record TrafficGenerator := {
  config : Config;
  vertices : list Vertex.t;
  edges : list Edge.t;
  incidents : list Incident.t;
  update_count : Z;
  world : World
}.

Definition set_config (c : Config) (self : TrafficGenerator) :=
  {| config := c; vertices := vertices self; edges := edges self;
     incidents := incidents self; update_count := update_count self;
     world := world self |}.

Definition set_vertices (vs : list Vertex.t) (self : TrafficGenerator) :=
  {| config := config self; vertices := vs; edges := edges self;
     incidents := incidents self; update_count := update_count self;
     world := world self |}.

Definition set_edges (es : list Edge.t) (self : TrafficGenerator) :=
  {| config := config self; vertices := vertices self; edges := es;
     incidents := incidents self; update_count := update_count self;
     world := world self |}.

Definition set_incidents (l : list Incident.t) (self : TrafficGenerator) :=
  {| config := config self; vertices := vertices self; edges := edges self;
     incidents := l; update_count := update_count self;
     world := world self |}.

Definition set_update_count (n : Z) (self : TrafficGenerator) :=
  {| config := config self; vertices := vertices self; edges := edges self;
     incidents := incidents self; update_count := n;
     world := world self |}.

Definition set_world (w : World) (self : TrafficGenerator) :=
  {| config := config self; vertices := vertices self; edges := edges self;
     incidents := incidents self; update_count := update_count self;
     world := w |}.

(** *** Methods as state transformers

    A method takes [self] and gives back an outcome and the mutated
    [self]; what was mutated before an exception stays mutated. *)
Definition M (A : Type) : Type :=
  TrafficGenerator → outcome A * TrafficGenerator.

#[global] Instance M_ret : MRet M := λ A a self, (Returned a, self).

#[global] Instance M_bind : MBind M := λ A B f c self,
  match c self with
  | (Returned a, self') => f a self'
  | (Raised e, self') => (Raised e, self')
  | (Unfinished, self') => (Unfinished, self')
  end.

Definition get : M TrafficGenerator := λ self, (Returned self, self).
Definition modify (f : TrafficGenerator → TrafficGenerator) : M unit :=
  λ self, (Returned tt, f self).
Definition raise {A} (e : exn) : M A := λ self, (Raised e, self).

Fixpoint for_each {A} (l : list A) (body : A → M unit) : M unit :=
  match l with
  | [] => mret tt
  | a :: l' => body a;; for_each l' body
  end.

(** A loop that updates a local variable. *)
Fixpoint for_each_with {A B} (l : list A) (body : B → A → M B) (b : B) : M B :=
  match l with
  | [] => mret b
  | a :: l' => b' ← body b a; for_each_with l' body b'
  end.

Definition tail_of {A} (s : nat → A) : nat → A := λ n, s (S n).

Definition random_random : M Q := λ self,
  let w := world self in
  (Returned (random_draws w 0),
   set_world {| math_sqrt := math_sqrt w;
                random_draws := tail_of (random_draws w);
                clock_ms := clock_ms w; clock_hour := clock_hour w;
                uuid_hex := uuid_hex w |} self).

(** [random.randint(a, b)]: an integer of [a..b]. *)
Definition random_randint (a b : Z) : M Z :=
  u ← random_random;
  mret (Z.max a (Z.min b (a + Qfloor (u * inject_Z (b - a + 1))))).

(** [random.choice(l)] *)
Definition random_choice (l : list string) : M string :=
  u ← random_random;
  mret (nth (Z.to_nat
               (Z.max 0 (Z.min (Z.of_nat (length l) - 1)
                           (Qfloor (u * inject_Z (Z.of_nat (length l)))))))
            l "").

Definition time_ms : M Z := λ self,
  let w := world self in
  (Returned (clock_ms w 0),
   set_world {| math_sqrt := math_sqrt w; random_draws := random_draws w;
                clock_ms := tail_of (clock_ms w); clock_hour := clock_hour w;
                uuid_hex := uuid_hex w |} self).

Definition now_hour : M Z := λ self,
  let w := world self in
  (Returned (clock_hour w 0),
   set_world {| math_sqrt := math_sqrt w; random_draws := random_draws w;
                clock_ms := clock_ms w; clock_hour := tail_of (clock_hour w);
                uuid_hex := uuid_hex w |} self).

Definition uuid4_hex : M string := λ self,
  let w := world self in
  (Returned (uuid_hex w 0),
   set_world {| math_sqrt := math_sqrt w; random_draws := random_draws w;
                clock_ms := clock_ms w; clock_hour := clock_hour w;
                uuid_hex := tail_of (uuid_hex w) |} self).

(** [math.sqrt(dx * dx + dy * dy)] between two vertices. *)
Definition euclidean (w : World) (a b : Vertex.t) : Q :=
  let dx := Vertex.x a - Vertex.x b in
  let dy := Vertex.y a - Vertex.y b in
  math_sqrt w (dx * dx + dy * dy).

(** [round(d / 10)]; [round] of an infinity raises [OverflowError]. *)
Definition round_tenth (d : float) : M Z :=
  match d with
  | Fin q => mret (py_round (q / 10))
  | Inf => raise OverflowError
  end.

Definition _generate_random_traffic : M Q :=
  self ← get;
  let base := base_traffic_level (config self) in
  let variability := traffic_variability (config self) in
  u ← random_random;
  let random_factor := (u - (1 # 2)) * variability * 4 in
  mret (float_max 0 (float_min 1 (base + random_factor))).

Definition _calculate_speed (traffic_level : Q) : Z :=
  py_round (60 - traffic_level * 55).

(** [self.edges.append({...})] of [_initialize_graph] and
    [_ensure_connectivity]; the dict is built field by field, in order. *)
Definition append_edge (from to : string) (d : float) : M unit :=
  traffic ← _generate_random_traffic;
  self ← get;
  let edge_id := "edge_" +:+ pretty (length (edges self)) in
  rounded ← round_tenth d;
  vehicles ← random_randint 0 49;
  modify (λ self,
    set_edges
      (edges self ++
       [ {| Edge.id := edge_id; Edge.from := from; Edge.to := to;
            Edge.weight := traffic; Edge.distance := rounded;
            Edge.speed := _calculate_speed traffic;
            Edge.vehicleCount := vehicles; Edge.isIncident := false;
            Edge.incidentSeverity := 0; Edge.bidirectional := true |} ])
      self).

(** [distances.sort(key=lambda x: x['distance'])]: a stable sort. *)
Fixpoint insert_by_distance (x : nat * float) (l : list (nat * float)) :
  list (nat * float) :=
  match l with
  | [] => [x]
  | y :: l' =>
      if float_ltb (snd x) (snd y) then x :: l
      else y :: insert_by_distance x l'
  end.

Definition sort_by_distance (l : list (nat * float)) : list (nat * float) :=
  foldl (λ acc x, insert_by_distance x acc) [] l.

(** The [distances] list of node [i]. *)
Definition distances_from (w : World) (vs : list Vertex.t) (i : nat)
    (node_a : Vertex.t) : list (nat * float) :=
  imap (λ j node_b,
          if decide (i = j) then (j, Inf)
          else (j, Fin (euclidean w node_a node_b))) vs.

(** ['-'.join(map(str, sorted([i, j])))] *)
Definition edge_key (i j : nat) : string :=
  pretty (Nat.min i j) +:+ "-" +:+ pretty (Nat.max i j).

(** The [connected_nodes] set built from the edges. *)
Definition endpoints (es : list Edge.t) : gset string :=
  foldl (λ acc edge, {[Edge.to edge]} ∪ ({[Edge.from edge]} ∪ acc)) ∅ es.

(** The search for the nearest connected node: the final values of
    [nearest] and [min_dist]. *)
Definition nearest_connected (w : World) (connected_nodes : gset string)
    (vertex : Vertex.t) (vs : list Vertex.t) : option Vertex.t * float :=
  foldl (λ '(nearest, min_dist) other,
           if decide (Vertex.id other ∈ connected_nodes)
           then
             let dist := euclidean w vertex other in
             if float_ltb (Fin dist) min_dist
             then (Some other, Fin dist)
             else (nearest, min_dist)
           else (nearest, min_dist))
        (None, Inf) vs.

(** The body of [for vertex in self.vertices]; it returns the updated
    [connected_nodes]. *)
Definition connect_if_isolated (connected_nodes : gset string)
    (vertex : Vertex.t) : M (gset string) :=
  if decide (Vertex.id vertex ∈ connected_nodes)
  then mret connected_nodes
  else
    self ← get;
    let '(nearest, min_dist) :=
      nearest_connected (world self) connected_nodes vertex (vertices self) in
    match nearest with
    | Some nearest =>
        append_edge (Vertex.id vertex) (Vertex.id nearest) min_dist;;
        mret ({[Vertex.id vertex]} ∪ connected_nodes)
    | None => mret connected_nodes
    end.

Definition _ensure_connectivity : M unit :=
  self ← get;
  for_each_with (vertices self) connect_if_isolated (endpoints (edges self));;
  mret tt.

Definition _initialize_graph : M unit :=
  modify (set_vertices []);;
  self ← get;
  for_each (seq 0 (Z.to_nat (node_count (config self))))
    (λ i,
       x ← random_random;
       y ← random_random;
       modify (λ self,
         set_vertices
           (vertices self ++
            [ {| Vertex.id := "node_" +:+ pretty i;
                 Vertex.name := "Intersection " +:+ pretty (i + 1)%nat;
                 Vertex.x := x * 800 + 50;
                 Vertex.y := y * 500 + 50 |} ])
           self));;
  modify (set_edges []);;
  self ← get;
  for_each_with (imap (λ i node_a, (i, node_a)) (vertices self))
    (λ (edge_set : gset string) '(i, node_a),
       self ← get;
       let distances :=
         sort_by_distance
           (distances_from (world self) (vertices self) i node_a) in
       r ← random_randint 0 2;
       let connect_count := (2 + r)%Z in
       for_each_with (take (Z.to_nat connect_count) distances)
         (λ (edge_set : gset string) '(j, distance),
            let edge_id := edge_key i j in
            if decide (edge_id ∈ edge_set) then mret edge_set
            else
              self ← get;
              u ← random_random;
              if Qltb u (road_density (config self) + (1 # 2))
              then
                match vertices self !! j with
                | None => mret edge_set
                | Some node_b =>
                    append_edge (Vertex.id node_a) (Vertex.id node_b) distance;;
                    mret ({[edge_id]} ∪ edge_set)
                end
              else mret edge_set)
         edge_set)
    ∅;;
  _ensure_connectivity.

(** [next((e for e in self.edges if e['id'] == edge_id), None)], as the
    position of that edge in [self.edges]. *)
Fixpoint find_edge (edge_id : string) (es : list Edge.t) : option nat :=
  match es with
  | [] => None
  | e :: es' =>
      if String.eqb (Edge.id e) edge_id then Some 0%nat
      else S <$> find_edge edge_id es'
  end.

(** Mutation of the edge dict at position [i] of [self.edges]. *)
Definition update_edge (i : nat) (f : Edge.t → Edge.t) : M unit :=
  modify (λ self, set_edges (alter f i (edges self)) self).

(** The condition of the two [connected_edges] comprehensions. *)
Definition connected (edge e : Edge.t) : bool :=
  negb (String.eqb (Edge.id e) (Edge.id edge)) &&
  (String.eqb (Edge.from e) (Edge.from edge) ||
   String.eqb (Edge.from e) (Edge.to edge) ||
   String.eqb (Edge.to e) (Edge.from edge) ||
   String.eqb (Edge.to e) (Edge.to edge)).

Definition _get_average_neighbor_traffic (self : TrafficGenerator)
    (edge : Edge.t) : Q :=
  let connected_edges := List.filter (connected edge) (edges self) in
  match connected_edges with
  | [] => base_traffic_level (config self)
  | _ =>
      let total_traffic :=
        fold_left (λ acc e, acc + Edge.weight e) connected_edges 0 in
      total_traffic / inject_Z (Z.of_nat (length connected_edges))
  end.

Definition _get_random_incident_type : M string :=
  random_choice ["accident"; "construction"; "roadblock"; "weather"; "event"].

Definition _get_incident_description (incident_type : string) (severity : Q) :
  string :=
  let severity_cap :=
    if Qltb (7 # 10) severity then "Severe"
    else if Qltb (4 # 10) severity then "Moderate" else "Minor" in
  if String.eqb incident_type "accident"
  then severity_cap +:+ " vehicle accident causing delays"
  else if String.eqb incident_type "construction"
  then severity_cap +:+ " road construction work"
  else if String.eqb incident_type "roadblock"
  then severity_cap +:+ " road closure or blockage"
  else if String.eqb incident_type "weather"
  then severity_cap +:+ " weather-related conditions"
  else if String.eqb incident_type "event"
  then severity_cap +:+ " special event causing congestion"
  else severity_cap +:+ " traffic incident".

Definition _apply_incident_effect (edge_id : string) (severity : Q) : M unit :=
  self ← get;
  match find_edge edge_id (edges self) with
  | None => mret tt
  | Some i =>
      update_edge i
        (λ edge,
           Edge.set_weight
             (float_min 1 (Edge.weight edge + severity * (8 # 10))) edge);;
      self ← get;
      match edges self !! i with
      | None => mret tt
      | Some edge =>
          modify (λ self,
            set_edges
              (map (λ connected_edge,
                      if connected edge connected_edge
                      then Edge.set_weight
                             (float_min 1 (Edge.weight connected_edge
                                           + severity * (5 # 10)))
                             connected_edge
                      else connected_edge)
                   (edges self))
              self)
      end
  end.

(** [incident_type or self._get_random_incident_type()] *)
Definition type_or_random (incident_type : option string) : M string :=
  match incident_type with
  | Some t => if String.eqb t "" then _get_random_incident_type else mret t
  | None => _get_random_incident_type
  end.

Definition create_incident (edge_id : string) (severity duration : Q)
    (incident_type : option string) : M Incident.t :=
  self ← get;
  match find_edge edge_id (edges self) with
  | None => raise (ValueError ("Edge not found: " +:+ edge_id))
  | Some i =>
      match edges self !! i with
      | None => raise (ValueError ("Edge not found: " +:+ edge_id))
      | Some edge =>
          if Edge.isIncident edge
          then raise (ValueError ("Edge " +:+ edge_id
                                  +:+ " already has an active incident"))
          else
            let validated_severity := float_max 0 (float_min 1 severity) in
            let validated_duration :=
              float_max 10000 (float_min 3600000 duration) in
            t_id ← time_ms;
            hex ← uuid4_hex;
            t_start ← time_ms;
            t_end ← time_ms;
            ty ← type_or_random incident_type;
            ty_described ← type_or_random incident_type;
            let incident :=
              {| Incident.id :=
                   "incident_" +:+ pretty t_id +:+ "_" +:+ substring 0 9 hex;
                 Incident.edgeId := edge_id;
                 Incident.from := Edge.from edge;
                 Incident.to := Edge.to edge;
                 Incident.severity := validated_severity;
                 Incident.startTime := t_start;
                 Incident.endTime := (t_end + py_int validated_duration)%Z;
                 Incident.type := ty;
                 Incident.description :=
                   _get_incident_description ty_described validated_severity |}
            in
            modify (λ self, set_incidents (incidents self ++ [incident]) self);;
            update_edge i (Edge.set_incident true (Incident.severity incident));;
            _apply_incident_effect edge_id (Incident.severity incident);;
            mret incident
      end
  end.

(** [self.incidents.remove(incident)]: drops the first equal item. *)
Fixpoint list_remove (incident : Incident.t) (l : list Incident.t) :
  list Incident.t :=
  match l with
  | [] => []
  | i :: l' =>
      if Incident.eqb i incident then l' else i :: list_remove incident l'
  end.

(** [edge['isIncident'] = False; edge['incidentSeverity'] = 0] on the edge
    of an incident, when that edge is found. *)
Definition reset_edge_of (incident : Incident.t) : M unit :=
  self ← get;
  match find_edge (Incident.edgeId incident) (edges self) with
  | Some i => update_edge i (Edge.set_incident false 0)
  | None => mret tt
  end.

Definition _update_incidents : M unit :=
  now ← time_ms;
  self ← get;
  incidents_to_remove ←
    for_each_with (incidents self)
      (λ incidents_to_remove incident,
         if (Incident.endTime incident <=? now)%Z
         then reset_edge_of incident;;
              mret (incidents_to_remove ++ [incident])
         else mret incidents_to_remove)
      [];
  for_each incidents_to_remove
    (λ incident,
       modify (λ self,
         set_incidents (list_remove incident (incidents self)) self)).

Definition clear_incident (incident_id : string) : M Incident.t :=
  self ← get;
  match List.find (λ i, String.eqb (Incident.id i) incident_id)
                  (incidents self) with
  | None => raise (ValueError ("Incident not found: " +:+ incident_id))
  | Some incident =>
      reset_edge_of incident;;
      modify (λ self,
        set_incidents (list_remove incident (incidents self)) self);;
      mret incident
  end.

(** The rush-hour factor of [_update_traffic]. *)
Definition time_multiplier (hour : Z) : Q :=
  if ((7 <=? hour) && (hour <=? 9))%Z then 15 # 10
  else if ((17 <=? hour) && (hour <=? 19))%Z then 16 # 10
  else if ((23 <=? hour) || (hour <=? 5))%Z then 4 # 10
  else 1.

(** The body of [for edge in self.edges] in [_update_traffic]; [edge] is
    the dict at position [i]. *)
Definition update_edge_traffic (time_multiplier : Q) (i : nat) : M unit :=
  self ← get;
  match edges self !! i with
  | None => mret tt
  | Some edge =>
      let avg_neighbor_traffic := _get_average_neighbor_traffic self edge in
      u ← random_random;
      let random_change := (u - (1 # 2)) * (2 # 10) in
      let new_traffic :=
        Edge.weight edge * (85 # 100) + avg_neighbor_traffic * (5 # 100)
        + random_change in
      u ← random_random;
      new_traffic ←
        (if Qltb u (5 # 100)
         then u ← random_random;
              mret (new_traffic + (u - (1 # 2)) * (15 # 100))
         else mret new_traffic);
      let new_traffic := new_traffic * time_multiplier in
      let new_traffic := float_max 0 (float_min 1 new_traffic) in
      update_edge i (Edge.set_weight new_traffic);;
      update_edge i (Edge.set_speed (_calculate_speed new_traffic));;
      let base_vehicles := py_int (new_traffic * 100) in
      r ← random_randint (-5) 5;
      update_edge i (Edge.set_vehicleCount (Z.max 0 (base_vehicles + r)));;
      if Edge.isIncident edge then mret tt
      else
        self ← get;
        u ← random_random;
        if Qltb u (incident_probability (config self))
        then
          u_severity ← random_random;
          u_duration ← random_random;
          create_incident (Edge.id edge) (u_severity * (5 # 10) + (3 # 10))
            (30000 + u_duration * 60000) None;;
          mret tt
        else mret tt
  end.

(** [_emit_update] hands a snapshot to the registered callbacks and
    swallows their exceptions; it does not touch the generator. *)
Definition update_all_edges : M unit :=
  modify (λ self, set_update_count (update_count self + 1)%Z self);;
  hour ← now_hour;
  self ← get;
  for_each (seq 0 (length (edges self)))
    (update_edge_traffic (time_multiplier hour)).

Definition _update_traffic : M unit :=
  update_all_edges;;
  _update_incidents.

Definition update_config (new_config : PartialConfig) : M unit :=
  self ← get;
  needs_reinit ←
    match new_node_count new_config with
    | Some n =>
        if (n =? node_count (config self))%Z then mret false
        else
          modify (λ self,
            set_config
              {| node_count := n;
                 update_interval := update_interval (config self);
                 base_traffic_level := base_traffic_level (config self);
                 traffic_variability := traffic_variability (config self);
                 incident_probability := incident_probability (config self);
                 road_density := road_density (config self) |} self);;
          mret true
    | None => mret false
    end;
  needs_reinit ←
    match new_road_density new_config with
    | Some d =>
        modify (λ self,
          set_config
            {| node_count := node_count (config self);
               update_interval := update_interval (config self);
               base_traffic_level := base_traffic_level (config self);
               traffic_variability := traffic_variability (config self);
               incident_probability := incident_probability (config self);
               road_density := d |} self);;
        mret true
    | None => mret needs_reinit
    end;
  (if needs_reinit : bool then _initialize_graph else mret tt);;
  modify (λ self,
    set_config
      {| node_count := node_count (config self);
         update_interval :=
           default (update_interval (config self))
                   (new_update_interval new_config);
         base_traffic_level :=
           default (base_traffic_level (config self))
                   (new_base_traffic_level new_config);
         traffic_variability :=
           default (traffic_variability (config self))
                   (new_traffic_variability new_config);
         incident_probability :=
           default (incident_probability (config self))
                   (new_incident_probability new_config);
         road_density := road_density (config self) |} self).

(** [TrafficGenerator(config)] in a given environment. *)
Definition __init__ (config : option PartialConfig) (w : World) :
  outcome unit * TrafficGenerator :=
  let given {A} (f : PartialConfig → option A) (d : A) : A :=
    match config with
    | Some c => default d (f c)
    | None => d
    end in
  _initialize_graph
    {| config :=
         {| node_count := given new_node_count 20%Z;
            update_interval := given new_update_interval 30000%Z;
            base_traffic_level := given new_base_traffic_level (15 # 100);
            traffic_variability := given new_traffic_variability (35 # 100);
            incident_probability :=
              given new_incident_probability (1 # 100000);
            road_density := given new_road_density (3 # 10) |};
       vertices := []; edges := []; incidents := [];
       update_count := 0; world := w |}.

(** What can be asked of a running generator: a tick of the update loop
    and the three mutating operations of routes/traffic.py. *)
Inductive operation :=
| Tick
| CreateIncident (edge_id : string) (severity duration : Q)
    (incident_type : option string)
| ClearIncident (incident_id : string)
| UpdateConfig (new_config : PartialConfig).

Definition perform (op : operation) : M unit :=
  match op with
  | Tick => _update_traffic
  | CreateIncident edge_id severity duration incident_type =>
      create_incident edge_id severity duration incident_type;; mret tt
  | ClearIncident incident_id => clear_incident incident_id;; mret tt
  | UpdateConfig new_config => update_config new_config
  end.

(** The generator after a sequence of operations; an operation that
    raised leaves what it had mutated and the next one goes on from
    there. *)
Definition perform_all (ops : list operation) (self : TrafficGenerator) :
  TrafficGenerator :=
  foldl (λ self op, snd (perform op self)) self ops.

(** *** Queries *)

Definition get_edge_data (edge_id : string) (self : TrafficGenerator) :
  option Edge.t :=
  List.find (λ e, String.eqb (Edge.id e) edge_id) (edges self).

Definition get_vertex_data (vertex_id : string) (self : TrafficGenerator) :
  option Vertex.t :=
  List.find (λ v, String.eqb (Vertex.id v) vertex_id) (vertices self).

(** The dicts of [get_all_edges]. *)
Module EdgeInfo.
Record t := {
  id : string;
  from : string;
  to : string;
  distance : Z;
  currentWeight : Q;
  hasIncident : bool
}.
End EdgeInfo.

Definition get_all_edges (self : TrafficGenerator) : list EdgeInfo.t :=
  map (λ e,
         {| EdgeInfo.id := Edge.id e; EdgeInfo.from := Edge.from e;
            EdgeInfo.to := Edge.to e; EdgeInfo.distance := Edge.distance e;
            EdgeInfo.currentWeight := Edge.weight e;
            EdgeInfo.hasIncident := Edge.isIncident e |})
      (edges self).

(** The dicts of [get_available_edges_for_incident]. *)
Module AvailableEdge.
Record t := {
  id : string;
  from : string;
  to : string;
  distance : Z;
  currentTraffic : Q
}.
End AvailableEdge.

Definition get_available_edges_for_incident (self : TrafficGenerator) :
  list AvailableEdge.t :=
  map (λ e,
         {| AvailableEdge.id := Edge.id e; AvailableEdge.from := Edge.from e;
            AvailableEdge.to := Edge.to e;
            AvailableEdge.distance := Edge.distance e;
            AvailableEdge.currentTraffic := Edge.weight e |})
      (List.filter (λ e, negb (Edge.isIncident e)) (edges self)).

(** [get_active_incidents]: each incident with its [remainingTime]. *)
Definition get_active_incidents : M (list (Incident.t * Z)) :=
  now ← time_ms;
  self ← get;
  mret (map (λ i, (i, Z.max 0 (Incident.endTime i - now))) (incidents self)).

Definition get_config (self : TrafficGenerator) : Config := config self.

End TrafficApi.

(** ** traveller-api *)

Module TravellerApi.

Module TravellerInput.
Record t := { start_node : string; end_node : string; workflow_id : string }.
End TravellerInput.

Module TravellerState.
Record t := {
  workflow_id : string;
  current_node : string;
  end_node : string;
  route : list string;
  route_index : nat;
  status : string
}.
End TravellerState.

(** The attributes of a [TravellerWorkflow] instance. *)
Record TravellerWorkflow := {
  current_node : string;
  end_node : string;
  route : list string;
  route_index : nat;
  status : string;
  workflow_id : string;
  interrupted : bool
}.

Definition __init__ : TravellerWorkflow :=
  {| current_node := ""; end_node := ""; route := []; route_index := 0;
     status := "Walking"; workflow_id := ""; interrupted := false |}.

(** [@workflow.query get_state] *)
Definition get_state (self : TravellerWorkflow) : TravellerState.t :=
  {| TravellerState.workflow_id := workflow_id self;
     TravellerState.current_node := current_node self;
     TravellerState.end_node := end_node self;
     TravellerState.route := route self;
     TravellerState.route_index := route_index self;
     TravellerState.status := status self |}.

(** [@workflow.signal interrupt] *)
Definition interrupt (self : TravellerWorkflow) : TravellerWorkflow :=
  {| current_node := current_node self; end_node := end_node self;
     route := route self; route_index := route_index self;
     status := status self; workflow_id := workflow_id self;
     interrupted := true |}.

(** The workflow is a coroutine: it runs until its next [await] and is
    resumed by the runtime when the awaited activity or timer completes;
    signal handlers run while it is suspended.  [point] is where the
    coroutine of [run] stands.  [_calculate_route] is entered at the start
    ([Initial]) and from the interrupted branch of the loop ([Replan]). *)
Inductive stage := Initial | Replan.

Inductive point :=
| NotStarted
| FetchingTraffic (k : stage)
    (** awaiting [fetch_traffic_model] *)
| FetchingRoute (k : stage) (start_node end_node : string)
    (** awaiting [fetch_route], called with these [args] *)
| LoopHead
    (** about to test [self.route_index < len(self.route)] *)
| Sleeping
    (** awaiting [workflow.sleep(1)] *)
| Completed (result : TravellerState.t)
| Failed.

(** What the runtime can do to a workflow. *)
Inductive event :=
| Run (input : TravellerInput.t)
| TrafficModelFetched
| RouteFetched (route : list string)
    (** [route_data.get("route", [])] of the activity's answer *)
| Interrupt
| Resume
    (** the coroutine runs from the loop test to its next [await] *)
| TimerFired.

(** The body of [while self.route_index < len(self.route)] up to its
    first [await], or the exit of the loop. *)
Definition loop_turn (self : TravellerWorkflow) : point * TravellerWorkflow :=
  if (route_index self <? length (route self))%nat
  then
    if interrupted self
    then (FetchingTraffic Replan, self)
    else
      match route self !! route_index self with
      | None => (Failed, self)
      | Some next =>
          let self1 :=
            {| current_node := next; end_node := end_node self;
               route := route self; route_index := route_index self;
               status := status self; workflow_id := workflow_id self;
               interrupted := interrupted self |} in
          if String.eqb (current_node self1) (end_node self1)
          then
            let self2 :=
              {| current_node := current_node self1;
                 end_node := end_node self1; route := route self1;
                 route_index := route_index self1; status := "Finished";
                 workflow_id := workflow_id self1;
                 interrupted := interrupted self1 |} in
            (Completed (get_state self2), self2)
          else (Sleeping, self1)
      end
  else (Completed (get_state self), self).

Definition exec (e : event) (c : point * TravellerWorkflow) :
  option (point * TravellerWorkflow) :=
  let (p, self) := c in
  match e, p with
  | Run input, NotStarted =>
      Some (FetchingTraffic Initial,
            {| current_node := TravellerInput.start_node input;
               end_node := TravellerInput.end_node input;
               route := route self; route_index := route_index self;
               status := status self;
               workflow_id := TravellerInput.workflow_id input;
               interrupted := interrupted self |})
  | TrafficModelFetched, FetchingTraffic k =>
      Some (FetchingRoute k (current_node self) (end_node self), self)
  | RouteFetched r, FetchingRoute k _ _ =>
      (* self.route = ...; self.route_index = 0; and, in the loop,
         self.interrupted = False; continue *)
      Some (LoopHead,
            {| current_node := current_node self; end_node := end_node self;
               route := r; route_index := 0; status := status self;
               workflow_id := workflow_id self;
               interrupted :=
                 match k with
                 | Initial => interrupted self
                 | Replan => false
                 end |})
  | Resume, LoopHead => Some (loop_turn self)
  | TimerFired, Sleeping =>
      Some (LoopHead,
            {| current_node := current_node self; end_node := end_node self;
               route := route self; route_index := S (route_index self);
               status := status self; workflow_id := workflow_id self;
               interrupted := interrupted self |})
  | Interrupt, (NotStarted | FetchingTraffic _ | FetchingRoute _ _ _
               | Sleeping) =>
      Some (p, interrupt self)
  | _, _ => None
  end.

Fixpoint run_events (es : list event) (c : point * TravellerWorkflow) :
  option (point * TravellerWorkflow) :=
  match es with
  | [] => Some c
  | e :: es' =>
      match exec e c with
      | Some c' => run_events es' c'
      | None => None
      end
  end.

End TravellerApi.

(** * Facts about the Python values *)

Module PyProofs.
Import Py.

Lemma Qltb_true a b : Qltb a b = true ↔ (a < b)%Q.
Proof.
  unfold Qltb. rewrite negb_true_iff, <- not_true_iff_false, Qle_bool_iff.
  split; [apply Qnot_le_lt | apply Qlt_not_le].
Qed.

Lemma Qltb_false a b : Qltb a b = false ↔ (b <= a)%Q.
Proof.
  unfold Qltb. rewrite negb_false_iff. apply Qle_bool_iff.
Qed.

(** ** [round] *)

Lemma py_round_bounds x :
  (Qfloor x <= py_round x <= Qfloor x + 1)%Z.
Proof.
  unfold py_round. destruct (Qcompare _ _); [destruct (Z.even _)| |]; lia.
Qed.

(** [round] is monotone. *)
Lemma py_round_mono x y : (x <= y)%Q → (py_round x <= py_round y)%Z.
Proof.
  intros Hxy.
  pose proof (Qfloor_resp_le _ _ Hxy) as Hfl.
  pose proof (py_round_bounds x) as [Hx1 Hx2].
  pose proof (py_round_bounds y) as [Hy1 Hy2].
  destruct (Z.eq_dec (Qfloor x) (Qfloor y)) as [Heq|Hne]; [|lia].
  unfold py_round in *. rewrite <- Heq in *.
  destruct (Qcompare_spec (x - inject_Z (Qfloor x)) (1 # 2)) as [Ex|Lx|Gx];
    destruct (Qcompare_spec (y - inject_Z (Qfloor x)) (1 # 2)) as [Ey|Ly|Gy];
    try lia; try (exfalso; lra); destruct (Z.even (Qfloor x)); lia.
Qed.

Lemma py_round_Z n : py_round (inject_Z n) = n.
Proof.
  unfold py_round. rewrite Qfloor_Z.
  destruct (Qcompare_spec (inject_Z n - inject_Z n) (1 # 2)) as [E|L|G];
    [exfalso; lra | done | exfalso; lra].
Qed.

Lemma py_round_ge n x : (inject_Z n <= x)%Q → (n <= py_round x)%Z.
Proof. intros H. rewrite <- (py_round_Z n). by apply py_round_mono. Qed.

Lemma py_round_le n x : (x <= inject_Z n)%Q → (py_round x <= n)%Z.
Proof. intros H. rewrite <- (py_round_Z n). by apply py_round_mono. Qed.

Lemma py_round_eq n x : (x == inject_Z n)%Q → py_round x = n.
Proof.
  intros H. apply Z.le_antisymm; [apply py_round_le | apply py_round_ge];
    rewrite H; apply Qle_refl.
Qed.

(** ** Powers of 2 *)

Local Open Scope Q_scope.

Lemma pow2_pos z : 0 < 2 ^ z.
Proof. by apply Qpower_0_lt. Qed.

Lemma pow2_add a b : 2 ^ (a + b) == 2 ^ a * 2 ^ b.
Proof. by apply Qpower_plus. Qed.

Lemma pow2_le a b : (a <= b)%Z → 2 ^ a <= 2 ^ b.
Proof. intros H. by apply Qpower_le_compat_l. Qed.

Lemma pow2_lt a b : (a < b)%Z → 2 ^ a < 2 ^ b.
Proof. intros H. by apply Qpower_lt_compat_l. Qed.

Lemma pow2_lt_inv a b : 2 ^ a < 2 ^ b → (a < b)%Z.
Proof. intros H. by apply Qpower_lt_compat_l_inv in H. Qed.

Lemma pow2_Z n : (0 <= n)%Z → inject_Z (2 ^ n) == 2 ^ n.
Proof. intros H. by rewrite Zpower_Qpower. Qed.

(** ** The binade of a positive rational *)

Lemma binade_spec q : 0 < q → 2 ^ binade q <= q < 2 ^ (binade q + 1).
Proof.
  intros Hq. destruct q as [n d]. unfold binade. cbn [Qnum Qden].
  assert (Hn : (0 < n)%Z).
  { unfold Qlt in Hq. simpl in Hq. lia. }
  set (ln := Z.log2 n). set (ld := Z.log2 (Z.pos d)).
  destruct (Z.log2_spec n Hn) as [Hn1 Hn2]. fold ln in Hn1, Hn2.
  destruct (Z.log2_spec (Z.pos d) ltac:(done)) as [Hd1 Hd2].
  fold ld in Hd1, Hd2.
  pose proof (Z.log2_nonneg n) as Hln. fold ln in Hln.
  pose proof (Z.log2_nonneg (Z.pos d)) as Hld. fold ld in Hld.
  assert (HN : (n # d) * inject_Z (Z.pos d) == inject_Z n).
  { unfold Qeq, Qmult, inject_Z. simpl. lia. }
  assert (Hn1q : 2 ^ ln <= inject_Z n).
  { rewrite <- pow2_Z by done. by rewrite <- Zle_Qle. }
  assert (Hn2q : inject_Z n < 2 ^ (ln + 1)).
  { rewrite <- pow2_Z by lia. rewrite <- Zlt_Qlt.
    by replace (ln + 1)%Z with (Z.succ ln) by lia. }
  assert (Hd1q : 2 ^ ld <= inject_Z (Z.pos d)).
  { rewrite <- pow2_Z by done. by rewrite <- Zle_Qle. }
  assert (Hd2q : inject_Z (Z.pos d) < 2 ^ (ld + 1)).
  { rewrite <- pow2_Z by lia. rewrite <- Zlt_Qlt.
    by replace (ld + 1)%Z with (Z.succ ld) by lia. }
  pose proof (pow2_pos ld) as Hpld. pose proof (pow2_pos (ld + 1)) as Hpld1.
  destruct (Qle_bool (2 ^ (ln - ld)) (n # d)) eqn:Hle.
  - apply Qle_bool_iff in Hle. split; [done|].
    assert (Heq : 2 ^ (ln - ld + 1) * 2 ^ ld == 2 ^ (ln + 1)).
    { rewrite <- pow2_add. by replace (ln - ld + 1 + ld)%Z with (ln + 1)%Z by lia. }
    generalize dependent (2 ^ (ln - ld + 1)). generalize dependent (2 ^ (ln + 1)).
    generalize dependent (2 ^ ld). generalize dependent (inject_Z (Z.pos d)).
    generalize dependent (inject_Z n). generalize dependent (n # d).
    intros. nra.
  - assert (Hlt : (n # d) < 2 ^ (ln - ld)).
    { apply Qnot_le_lt. intros H. apply Qle_bool_iff in H. congruence. }
    split.
    + assert (Heq : 2 ^ (ln - ld - 1) * 2 ^ (ld + 1) == 2 ^ ln).
      { rewrite <- pow2_add. by replace (ln - ld - 1 + (ld + 1))%Z with ln by lia. }
      generalize dependent (2 ^ (ln - ld - 1)). generalize dependent (2 ^ ln).
      generalize dependent (2 ^ (ld + 1)). generalize dependent (inject_Z (Z.pos d)).
      generalize dependent (inject_Z n). generalize dependent (n # d).
      intros. nra.
    + by replace (ln - ld - 1 + 1)%Z with (ln - ld)%Z by lia.
Qed.

Lemma binade_unique q e : 0 < q → 2 ^ e <= q < 2 ^ (e + 1) → binade q = e.
Proof.
  intros Hq [H1 H2]. destruct (binade_spec q Hq) as [B1 B2].
  assert (binade q < e + 1)%Z by (apply pow2_lt_inv; lra).
  assert (e < binade q + 1)%Z by (apply pow2_lt_inv; lra).
  lia.
Qed.

Lemma binade_mono p q : 0 < p → p <= q → (binade p <= binade q)%Z.
Proof.
  intros Hp Hpq. destruct (binade_spec p Hp) as [P1 P2].
  destruct (binade_spec q) as [Q1 Q2]; [lra|].
  assert (binade p < binade q + 1)%Z by (apply pow2_lt_inv; lra). lia.
Qed.


(** ** Rounding to a double *)

(** The exponent, the unit in the last place and the rounded value that
    [round_to_double] computes for [0 < q]. *)
Definition expo (q : Q) : Z := Z.max (binade q) (-1022).
Definition ulp (q : Q) : Q := 2 ^ (expo q - 52).
Definition signif (q : Q) : Z := py_round (q / ulp q).
Definition rounded (q : Q) : Q := inject_Z (signif q) * ulp q.

Lemma round_to_double_pos q :
  0 < q →
  round_to_double q =
    if Qle_bool (2 ^ 1024) (rounded q) then Inf else Fin (Qred (rounded q)).
Proof.
  intros Hq. unfold round_to_double.
  destruct (Qle_bool q 0) eqn:H0; [|done].
  apply Qle_bool_iff in H0. lra.
Qed.

Lemma round_to_double_nonpos q : q <= 0 → round_to_double q = Fin 0.
Proof.
  intros Hq. unfold round_to_double.
  by rewrite (proj2 (Qle_bool_iff q 0) Hq).
Qed.

Lemma ulp_pos q : 0 < ulp q.
Proof. apply pow2_pos. Qed.

Lemma scaled q : q / ulp q * ulp q == q.
Proof. pose proof (ulp_pos q). field. lra. Qed.

(** A normal number has a significand of 53 bits, a subnormal one a
    shorter one. *)
Lemma signif_normal q :
  0 < q → (-1022 <= binade q)%Z →
  expo q = binade q ∧ (2 ^ 52 <= signif q <= 2 ^ 53)%Z.
Proof.
  intros Hq Hb. assert (He : expo q = binade q) by (unfold expo; lia).
  split; [done|].
  destruct (binade_spec q Hq) as [B1 B2]. rewrite <- He in B1, B2.
  assert (H52 : inject_Z (2 ^ 52) * ulp q == 2 ^ expo q).
  { unfold ulp. rewrite pow2_Z by done. rewrite <- pow2_add.
    by replace (52 + (expo q - 52))%Z with (expo q) by lia. }
  assert (H53 : inject_Z (2 ^ 53) * ulp q == 2 ^ (expo q + 1)).
  { unfold ulp. rewrite pow2_Z by done. rewrite <- pow2_add.
    by replace (53 + (expo q - 52))%Z with (expo q + 1)%Z by lia. }
  pose proof (ulp_pos q) as Hu. pose proof (scaled q) as Hs.
  unfold signif. split.
  - apply py_round_ge.
    generalize dependent (inject_Z (2 ^ 52)). generalize dependent (q / ulp q).
    generalize dependent (ulp q). generalize dependent (2 ^ expo q).
    intros. nra.
  - apply py_round_le.
    generalize dependent (inject_Z (2 ^ 53)). generalize dependent (q / ulp q).
    generalize dependent (ulp q). generalize dependent (2 ^ (expo q + 1)).
    intros. nra.
Qed.

Lemma signif_subnormal q :
  0 < q → (binade q < -1022)%Z →
  expo q = (-1022)%Z ∧ (0 <= signif q <= 2 ^ 52)%Z.
Proof.
  intros Hq Hb. assert (He : expo q = (-1022)%Z) by (unfold expo; lia).
  split; [done|].
  destruct (binade_spec q Hq) as [B1 B2].
  assert (B3 : q < 2 ^ expo q).
  { eapply Qlt_le_trans; [exact B2|]. apply pow2_le. lia. }
  assert (H52 : inject_Z (2 ^ 52) * ulp q == 2 ^ expo q).
  { unfold ulp. rewrite pow2_Z by done. rewrite <- pow2_add.
    by replace (52 + (expo q - 52))%Z with (expo q) by lia. }
  pose proof (ulp_pos q) as Hu. pose proof (scaled q) as Hs.
  unfold signif. split.
  - apply py_round_ge. change (inject_Z 0) with 0.
    generalize dependent (q / ulp q). generalize dependent (ulp q).
    intros. nra.
  - apply py_round_le.
    generalize dependent (inject_Z (2 ^ 52)). generalize dependent (q / ulp q).
    generalize dependent (ulp q). generalize dependent (2 ^ expo q).
    intros. nra.
Qed.

Lemma rounded_cases q :
  0 < q →
  (-1022 <= expo q)%Z ∧
  (0 <= signif q <= 2 ^ 53)%Z ∧
  0 <= rounded q <= 2 ^ (expo q + 1) ∧
  ((-1022 < expo q)%Z → 2 ^ expo q <= rounded q) ∧
  q < 2 ^ (expo q + 1) ∧
  ((-1022 < expo q)%Z → 2 ^ expo q <= q).
Proof.
  intros Hq. pose proof (ulp_pos q) as Hu.
  assert (H52 : inject_Z (2 ^ 52) * ulp q == 2 ^ expo q).
  { unfold ulp. rewrite pow2_Z by done. rewrite <- pow2_add.
    by replace (52 + (expo q - 52))%Z with (expo q) by lia. }
  assert (H53 : inject_Z (2 ^ 53) * ulp q == 2 ^ (expo q + 1)).
  { unfold ulp. rewrite pow2_Z by done. rewrite <- pow2_add.
    by replace (53 + (expo q - 52))%Z with (expo q + 1)%Z by lia. }
  assert (Hlt : 2 ^ expo q < 2 ^ (expo q + 1)) by (apply pow2_lt; lia).
  destruct (binade_spec q Hq) as [B1 B2].
  split; [unfold expo; lia|]. unfold rounded.
  destruct (Z_le_gt_dec (-1022) (binade q)) as [Hb|Hb].
  - destruct (signif_normal q Hq Hb) as [He [S1 S2]].
    split; [lia|]. rewrite Zle_Qle in S1, S2. rewrite <- He in B1, B2.
    set (M := inject_Z (signif q)) in *. set (u := ulp q) in *.
    set (T52 := inject_Z (2 ^ 52)) in *. set (T53 := inject_Z (2 ^ 53)) in *.
    set (P := 2 ^ expo q) in *. set (P1 := 2 ^ (expo q + 1)) in *.
    assert (0 < T52) by done.
    clearbody M u T52 T53 P P1.
    split; [nra|]. split; [intros _; nra|]. split; [done|]. by intros _.
  - destruct (signif_subnormal q Hq ltac:(lia)) as [He [S1 S2]].
    split; [lia|]. rewrite Zle_Qle in S1, S2. change (inject_Z 0) with 0 in S1.
    assert (B3 : q < 2 ^ (expo q + 1)).
    { eapply Qlt_le_trans; [exact B2|]. apply pow2_le. lia. }
    set (M := inject_Z (signif q)) in *. set (u := ulp q) in *.
    set (T52 := inject_Z (2 ^ 52)) in *. set (T53 := inject_Z (2 ^ 53)) in *.
    set (P := 2 ^ expo q) in *. set (P1 := 2 ^ (expo q + 1)) in *.
    clearbody M u T52 T53 P P1.
    split; [nra|]. split; [intros; lia|]. split; [done|]. intros; lia.
Qed.

(** Rounding is monotone. *)
Lemma rounded_mono p q : 0 < p → p <= q → rounded p <= rounded q.
Proof.
  intros Hp Hpq. assert (Hq : 0 < q) by lra.
  assert (He : (expo p <= expo q)%Z).
  { unfold expo. pose proof (binade_mono p q Hp Hpq). lia. }
  destruct (Z.eq_dec (expo p) (expo q)) as [Heq|Hne].
  - unfold rounded, signif, ulp. rewrite Heq.
    pose proof (pow2_pos (expo q - 52)) as Hu.
    assert (Hm : (py_round (p / 2 ^ (expo q - 52)) <=
                  py_round (q / 2 ^ (expo q - 52)))%Z).
    { apply py_round_mono. apply Qmult_le_compat_r; [done|].
      apply Qlt_le_weak, Qinv_lt_0_compat, Hu. }
    rewrite Zle_Qle in Hm.
    generalize dependent (inject_Z (py_round (p / 2 ^ (expo q - 52)))).
    generalize dependent (inject_Z (py_round (q / 2 ^ (expo q - 52)))).
    generalize dependent (2 ^ (expo q - 52)). intros. nra.
  - destruct (rounded_cases p Hp) as (Hp1 & _ & [_ Hp2] & _).
    destruct (rounded_cases q Hq) as (_ & _ & _ & Hq2 & _).
    pose proof (Hq2 ltac:(lia)) as Hq3.
    assert (2 ^ (expo p + 1) <= 2 ^ expo q) by (apply pow2_le; lia).
    lra.
Qed.

Lemma float_le_refl a : float_le a a.
Proof. destruct a; unfold float_le; [apply Qle_refl | done]. Qed.

Lemma float_le_trans a b c : float_le a b → float_le b c → float_le a c.
Proof. destruct a, b, c; unfold float_le; try done. apply Qle_trans. Qed.

Lemma round_to_double_nonneg q r : round_to_double q = Fin r → 0 <= r.
Proof.
  destruct (Qlt_le_dec 0 q) as [Hq|Hq].
  - rewrite round_to_double_pos by done.
    destruct (Qle_bool _ _); [done|]. intros [= <-]. rewrite Qred_correct.
    by destruct (rounded_cases q Hq) as (_ & _ & [? _] & _).
  - rewrite round_to_double_nonpos by done. intros [= <-]. lra.
Qed.

Lemma round_to_double_mono p q :
  p <= q → float_le (round_to_double p) (round_to_double q).
Proof.
  intros Hpq. destruct (Qlt_le_dec 0 p) as [Hp|Hp].
  - assert (Hq : 0 < q) by lra.
    pose proof (rounded_mono p q Hp Hpq) as Hr.
    rewrite !round_to_double_pos by done.
    destruct (Qle_bool (2 ^ 1024) (rounded q)) eqn:Oq;
      [destruct (Qle_bool (2 ^ 1024) (rounded p)); exact I|].
    destruct (Qle_bool (2 ^ 1024) (rounded p)) eqn:Op.
    + apply Qle_bool_iff in Op.
      assert (¬ 2 ^ 1024 <= rounded q)
        by (intros H; apply Qle_bool_iff in H; congruence).
      exfalso. lra.
    + unfold float_le. by rewrite !Qred_correct.
  - rewrite (round_to_double_nonpos p) by done.
    destruct (round_to_double q) as [r|] eqn:Hr; [|done].
    unfold float_le. by eapply round_to_double_nonneg.
Qed.

(** What [round_to_double] returns is a double. *)
Lemma round_to_double_idem q r :
  round_to_double q = Fin r → is_double r = true.
Proof.
  destruct (Qlt_le_dec 0 q) as [Hq|Hq].
  2: { rewrite round_to_double_nonpos by done. by intros [= <-]. }
  rewrite round_to_double_pos by done.
  destruct (Qle_bool (2 ^ 1024) (rounded q)) eqn:Oq; [done|].
  intros [= <-].
  assert (Hov : rounded q < 2 ^ 1024).
  { apply Qnot_le_lt. intros H. apply Qle_bool_iff in H. congruence. }
  assert (Hred : Qred (rounded q) == rounded q) by apply Qred_correct.
  destruct (rounded_cases q Hq) as (He & [S1 S2] & [R1 R2] & R3 & _).
  unfold is_double.
  destruct (Z.eq_dec (signif q) 0%Z) as [H0|H0].
  { assert (rounded q == 0) by (unfold rounded; rewrite H0; ring).
    rewrite round_to_double_nonpos by lra.
    apply Qeq_bool_iff. lra. }
  pose proof (ulp_pos q) as Hu.
  assert (Hm : (0 < signif q)%Z) by lia.
  assert (Hr : 0 < rounded q).
  { unfold rounded. apply Qmult_lt_0_compat; [|done].
    rewrite Zlt_Qlt in Hm. exact Hm. }
  assert (Hr' : 0 < Qred (rounded q)) by lra.
  assert (H52 : inject_Z (2 ^ 52) * ulp q == 2 ^ expo q).
  { unfold ulp. rewrite pow2_Z by done. rewrite <- pow2_add.
    by replace (52 + (expo q - 52))%Z with (expo q) by lia. }
  assert (H53 : inject_Z (2 ^ 53) * ulp q == 2 ^ (expo q + 1)).
  { unfold ulp. rewrite pow2_Z by done. rewrite <- pow2_add.
    by replace (53 + (expo q - 52))%Z with (expo q + 1)%Z by lia. }
  (* the exponent and the significand of the rounded value *)
  assert (Hsame : ∃ e' m', expo (Qred (rounded q)) = e' ∧
            rounded q == inject_Z m' * 2 ^ (e' - 52)).
  { destruct (Z_lt_le_dec (signif q) (2 ^ 52)%Z) as [Hsub|Hnorm].
    - (* subnormal *)
      assert (Hlt : rounded q < 2 ^ expo q).
      { rewrite <- H52. unfold rounded. rewrite Zlt_Qlt in Hsub.
        apply Qmult_lt_compat_r; done. }
      assert (He1 : expo q = (-1022)%Z).
      { destruct (Z.eq_dec (expo q) (-1022)%Z) as [|Hne]; [done|].
        pose proof (R3 ltac:(lia)). lra. }
      exists (expo q), (signif q). split; [|done].
      destruct (binade_spec _ Hr') as [B1 B2].
      assert (binade (Qred (rounded q)) < expo q)%Z
        by (apply pow2_lt_inv; lra).
      unfold expo at 1. lia.
    - destruct (Z.eq_dec (signif q) (2 ^ 53)%Z) as [Htop|Hntop].
      + (* rounded up to the next power of 2 *)
        exists (expo q + 1)%Z, (2 ^ 52)%Z. 
        assert (Hv : rounded q == 2 ^ (expo q + 1)).
        { unfold rounded. by rewrite Htop. }
        split.
        * assert (binade (Qred (rounded q)) = expo q + 1)%Z.
          { apply binade_unique; [done|]. rewrite Hred, Hv. split; [apply Qle_refl|].
            apply pow2_lt. lia. }
          unfold expo at 1. lia.
        * rewrite Hv, pow2_Z by done. rewrite <- pow2_add.
          by replace (52 + (expo q + 1 - 52))%Z with (expo q + 1)%Z by lia.
      + exists (expo q), (signif q). split; [|done].
        assert (binade (Qred (rounded q)) = expo q).
        { apply binade_unique; [done|]. rewrite Hred. split.
          - rewrite <- H52. unfold rounded. rewrite Zle_Qle in Hnorm.
            apply Qmult_le_compat_r; [done | lra].
          - rewrite <- H53. unfold rounded.
            assert (Hlt : (signif q < 2 ^ 53)%Z) by lia.
            rewrite Zlt_Qlt in Hlt. apply Qmult_lt_compat_r; done. }
        unfold expo at 1. lia. }
  destruct Hsame as (e' & m' & He' & Hm').
  rewrite round_to_double_pos by done.
  assert (Hval : rounded (Qred (rounded q)) == rounded q).
  { unfold rounded at 1, signif, ulp. rewrite He'.
    rewrite (py_round_eq m').
    - by rewrite Hm'.
    - rewrite Hred, Hm'. pose proof (pow2_pos (e' - 52)). field. lra. }
  destruct (Qle_bool (2 ^ 1024) (rounded (Qred (rounded q)))) eqn:Oq'.
  { apply Qle_bool_iff in Oq'. lra. }
  apply Qeq_bool_iff. rewrite !Qred_correct. by rewrite Hval.
Qed.


(** Equal rationals round to the same double. *)
Lemma round_to_double_proper p q : p == q → round_to_double p = round_to_double q.
Proof.
  intros Hpq. destruct (Qlt_le_dec 0 p) as [Hp|Hp].
  2: { rewrite !round_to_double_nonpos; [done | lra | lra]. }
  assert (Hq : 0 < q) by lra.
  rewrite !round_to_double_pos by done.
  assert (He : expo p = expo q).
  { unfold expo. f_equal. apply binade_unique; [done|].
    rewrite Hpq. by apply binade_spec. }
  assert (Hu : ulp p = ulp q) by (unfold ulp; by rewrite He).
  assert (Hs : signif p = signif q).
  { unfold signif. rewrite Hu.
    apply Z.le_antisymm; apply py_round_mono; rewrite Hpq; apply Qle_refl. }
  assert (Hr : rounded p = rounded q) by (unfold rounded; by rewrite Hs, Hu).
  by rewrite Hr.
Qed.

Lemma is_double_spec q :
  is_double q = true → ∃ r, round_to_double q = Fin r ∧ r == q.
Proof.
  unfold is_double. destruct (round_to_double q) as [r|]; [|done].
  intros H%Qeq_bool_iff. eauto.
Qed.

(** ** Sums of floats that are not negative *)

Definition nonneg_float (x : float) : Prop :=
  match x with
  | Fin q => is_double q = true ∧ 0 <= q
  | Inf => True
  end.

Lemma float_add_nonneg a b : nonneg_float (float_add a b).
Proof.
  destruct a as [x|], b as [y|]; simpl; try done.
  destruct (round_to_double (x + y)) as [r|] eqn:Hr; simpl; [|done].
  split; [by eapply round_to_double_idem | by eapply round_to_double_nonneg].
Qed.

Lemma float_add_mono_l a b w :
  float_le a b → float_le (float_add a w) (float_add b w).
Proof.
  destruct a as [x|], b as [y|], w as [z|]; simpl; try done.
  - unfold float_le at 1. intros H. apply round_to_double_mono. lra.
  - intros _. by destruct (round_to_double _).
Qed.

Lemma float_add_proper_l a b w :
  float_le a b → float_le b a → float_add a w = float_add b w.
Proof.
  destruct a as [x|], b as [y|], w as [z|]; simpl; try done.
  unfold float_le. intros H1 H2. apply round_to_double_proper. lra.
Qed.

Lemma float_add_ge_l a w :
  nonneg_float a → nonneg_float w → float_le a (float_add a w).
Proof.
  destruct a as [x|], w as [z|]; simpl; try done.
  intros [Hx Hx0] [_ Hz0].
  destruct (is_double_spec x Hx) as (r & Hr & Hrx).
  pose proof (round_to_double_mono x (x + z) ltac:(lra)) as Hm.
  rewrite Hr in Hm.
  destruct (round_to_double (x + z)); unfold float_le in *; [lra|done].
Qed.

Lemma float_add_ge_r a w :
  nonneg_float a → nonneg_float w → float_le w (float_add a w).
Proof.
  destruct a as [x|], w as [z|]; simpl; try done.
  intros [_ Hx0] [Hz Hz0].
  destruct (is_double_spec z Hz) as (r & Hr & Hrz).
  pose proof (round_to_double_mono z (x + z) ltac:(lra)) as Hm.
  rewrite Hr in Hm.
  destruct (round_to_double (x + z)); unfold float_le in *; [lra|done].
Qed.

Lemma float_ltb_true a b :
  float_ltb a b = true → float_le a b ∧ ¬ float_le b a.
Proof.
  destruct a as [x|], b as [y|]; unfold float_le; simpl; try done.
  - intros H%Qltb_true. split; lra.
  - intros _. split; [done | tauto].
Qed.

Lemma float_ltb_false a b : float_ltb a b = false → float_le b a.
Proof.
  destruct a as [x|], b as [y|]; unfold float_le; simpl; try done.
  by intros H%Qltb_false.
Qed.

Lemma float_ltb_fin a b : float_ltb a b = true → ∃ q, a = Fin q.
Proof. destruct a as [x|]; [eauto | done]. Qed.

Lemma float_le_inf a : float_le Inf a → a = Inf.
Proof. by destruct a. Qed.

End PyProofs.

(** * Verification of the shortest-path service *)

Module GraphApiProofs.
Import Py PyProofs GraphApi.

(** ** Comparisons *)

Lemma tuple_ltb_true a b : tuple_ltb a b = true → float_le (fst a) (fst b).
Proof.
  unfold tuple_ltb. destruct (float_ltb (fst a) (fst b)) eqn:E1.
  - intros _. by apply float_ltb_true in E1 as [? _].
  - destruct (float_ltb (fst b) (fst a)) eqn:E2; [done|].
    intros _. by apply float_ltb_false in E2.
Qed.

Lemma tuple_ltb_false a b : tuple_ltb a b = false → float_le (fst b) (fst a).
Proof.
  unfold tuple_ltb. destruct (float_ltb (fst a) (fst b)) eqn:E1; [done|].
  intros _. by apply float_ltb_false in E1.
Qed.

(** ** heappop removes one item, a least one *)

Lemma heappop_from_spec h : ∀ best m r,
  heappop_from best h = (m, r) →
  Permutation (best :: h) (m :: r) ∧
  float_le (fst m) (fst best) ∧ Forall (λ y, float_le (fst m) (fst y)) h.
Proof.
  induction h as [|y h IH]; intros best m r; simpl.
  - intros [= <- <-]. repeat split; [done | apply float_le_refl | constructor].
  - destruct (tuple_ltb y best) eqn:Hlt.
    + destruct (heappop_from y h) as [m' r'] eqn:Hrec.
      intros [= <- <-]. destruct (IH _ _ _ Hrec) as (Hp & Hle & Hall).
      apply tuple_ltb_true in Hlt. repeat split.
      * rewrite Hp. apply perm_swap.
      * by eapply float_le_trans.
      * constructor; [done | done].
    + destruct (heappop_from best h) as [m' r'] eqn:Hrec.
      intros [= <- <-]. destruct (IH _ _ _ Hrec) as (Hp & Hle & Hall).
      apply tuple_ltb_false in Hlt. repeat split.
      * etrans; [apply perm_swap|]. rewrite Hp. apply perm_swap.
      * done.
      * constructor; [by eapply float_le_trans | done].
Qed.

Lemma heappop_spec h k u r :
  heappop h = Some ((k, u), r) →
  Permutation h ((k, u) :: r) ∧ (∀ k' v, In (k', v) h → float_le k k').
Proof.
  destruct h as [|x h]; [discriminate|]. simpl. intros [= Hpop].
  destruct (heappop_from_spec _ _ _ _ Hpop) as (Hp & Hle & Hall).
  split; [done|]. intros k' v [->|Hin]; [done|].
  rewrite Forall_forall in Hall. apply list_elem_of_In in Hin.
  apply (Hall _ Hin).
Qed.

Lemma heappop_None h : heappop h = None → h = [].
Proof. by destruct h. Qed.

(** ** The dicts built from the vertex list *)

Lemma foldl_vertices_lookup {A} (f : Vertex → A) u vs :
  ∀ acc : gmap string A,
  (∃ v, In v vs ∧ id v = u ∧
        foldl (λ m v, <[id v := f v]> m) acc vs !! u = Some (f v)) ∨
  (¬ In u (map id vs) ∧
   foldl (λ m v, <[id v := f v]> m) acc vs !! u = acc !! u).
Proof.
  induction vs as [|v0 vs IH]; intros acc; simpl.
  - right. split; [tauto | done].
  - destruct (IH (<[id v0 := f v0]> acc)) as [(v & Hin & Hid & Hl)|[Hnin Hl]].
    + left. exists v. eauto.
    + destruct (decide (id v0 = u)) as [Heq|Hne].
      * left. exists v0. rewrite Hl, Heq, lookup_insert_eq. eauto.
      * right. rewrite Hl, lookup_insert_ne by done. split; [tauto | done].
Qed.

Lemma dict_of_vertices_Some {A} (f : Vertex → A) g u :
  has_vertex g u →
  ∃ v, In v (vertices g) ∧ id v = u ∧
       dict_of_vertices f (vertices g) !! u = Some (f v).
Proof.
  intros Hu. unfold dict_of_vertices.
  destruct (foldl_vertices_lookup f u (vertices g) ∅) as [H|[H _]];
    [done | contradiction].
Qed.

Lemma dict_of_vertices_None {A} (f : Vertex → A) g u :
  ¬ has_vertex g u → dict_of_vertices f (vertices g) !! u = None.
Proof.
  intros Hu. unfold dict_of_vertices.
  destruct (foldl_vertices_lookup f u (vertices g) ∅)
    as [(v & Hin & Hid & _)|[_ H]].
  - exfalso. apply Hu. unfold has_vertex. rewrite <- Hid. by apply in_map.
  - by rewrite H, lookup_empty.
Qed.

Lemma dict_of_vertices_const {A} (c : A) g u :
  has_vertex g u → dict_of_vertices (λ _, c) (vertices g) !! u = Some c.
Proof.
  intros Hu. by destruct (dict_of_vertices_Some (λ _, c) g u Hu) as (?&?&?&?).
Qed.

(** ** The adjacency lists *)

(** The [(to, weight)] pairs of the edges leaving [u], in edge order. *)
Definition out_edges (es : list Edge) (u : string) : list (string * float) :=
  map (λ e, (to_vertex e, weight e))
      (filter (λ e, from_vertex e = u) es).

Lemma out_edges_cons e es u :
  out_edges (e :: es) u =
  (if decide (from_vertex e = u) then [(to_vertex e, weight e)] else [])
    ++ out_edges es u.
Proof.
  unfold out_edges. rewrite filter_cons. by destruct (decide _).
Qed.

Lemma build_adjacency_spec es : ∀ acc : gmap string (list (string * float)),
  (∀ e, In e es → is_Some (acc !! from_vertex e)) →
  ∃ adj, build_adjacency es acc = Returned adj ∧
         ∀ u, adj !! u = (λ l, l ++ out_edges es u) <$> acc !! u.
Proof.
  induction es as [|e es IH]; intros acc Hfrom; simpl.
  - exists acc. split; [done|]. intros u. unfold out_edges. simpl.
    destruct (acc !! u); simpl; [by rewrite app_nil_r | done].
  - destruct (Hfrom e (or_introl eq_refl)) as [l Hl]. rewrite Hl.
    destruct (IH (<[from_vertex e := l ++ [(to_vertex e, weight e)]]> acc))
      as (adj & Hb & Hadj).
    + intros e' He'. destruct (decide (from_vertex e = from_vertex e')) as [->|Hne].
      * rewrite lookup_insert_eq. eauto.
      * rewrite lookup_insert_ne by done. apply Hfrom. by right.
    + exists adj. split; [done|]. intros u. rewrite Hadj, out_edges_cons.
      destruct (decide (from_vertex e = u)) as [<-|Hne].
      * rewrite lookup_insert_eq, Hl. simpl. by rewrite <- app_assoc.
      * by rewrite lookup_insert_ne.
Qed.

(** ** Walks and their lengths *)

Lemma walk_snoc g a b c es e :
  walk g a b es → In e (edges g) → from_vertex e = b → to_vertex e = c →
  walk g a c (es ++ [e]).
Proof.
  intros Hw He Hf Ht. induction Hw as [a|a b e0 es He0 Hf0 Hw IH]; simpl.
  - subst. econstructor; [done | done | constructor].
  - econstructor; [done | done | by apply IH].
Qed.

Lemma walk_edges g a b es : walk g a b es → ∀ e, In e es → In e (edges g).
Proof.
  induction 1 as [|a b e0 es He0 _ _ IH]; [by intros ? []|].
  intros e [<-|He]; [done | by apply IH].
Qed.

Lemma vertex_ids_snoc a es e :
  vertex_ids a (es ++ [e]) = vertex_ids a es ++ [to_vertex e].
Proof. unfold vertex_ids. by rewrite map_app. Qed.

Lemma add_weights_app d es1 es2 :
  add_weights d (es1 ++ es2) = add_weights (add_weights d es1) es2.
Proof. apply foldl_app. Qed.

Lemma cost_snoc es e : cost (es ++ [e]) = float_add (cost es) (weight e).
Proof. unfold cost. by rewrite add_weights_app. Qed.

Lemma cost_app es1 es2 : cost (es1 ++ es2) = add_weights (cost es1) es2.
Proof. apply add_weights_app. Qed.

Lemma cost_nonneg es : nonneg_float (cost es).
Proof.
  destruct es as [|e es] using rev_ind; [by split|].
  rewrite cost_snoc. apply float_add_nonneg.
Qed.

(** Adding weights is monotone in the distance it starts from. *)
Lemma add_weights_mono es : ∀ a b,
  float_le a b → float_le (add_weights a es) (add_weights b es).
Proof.
  induction es as [|e es IH]; intros a b Hab; simpl; [done|].
  by apply IH, float_add_mono_l.
Qed.

Lemma Edge_valid_nonneg e : Edge_valid e → nonneg_float (weight e).
Proof.
  unfold Edge_valid, nonneg_float. destruct (weight e); [|done].
  intros [? ?]. split; [done | lra].
Qed.

(** A walk is at least as long as each of its beginnings. *)
Lemma add_weights_ge es : ∀ d,
  nonneg_float d → (∀ e, In e es → Edge_valid e) →
  float_le d (add_weights d es).
Proof.
  induction es as [|e es IH]; intros d Hd Hes; simpl; [apply float_le_refl|].
  eapply float_le_trans.
  - apply float_add_ge_l; [done|]. apply Edge_valid_nonneg, Hes. by left.
  - apply IH; [apply float_add_nonneg|]. intros e' He'. apply Hes. by right.
Qed.

Lemma cost_prefix es1 es2 :
  (∀ e, In e es2 → Edge_valid e) → float_le (cost es1) (cost (es1 ++ es2)).
Proof.
  intros Hes. rewrite cost_app. apply add_weights_ge; [apply cost_nonneg|done].
Qed.

Section ValidGraph.
Context (g : Graph) (Hvalid : Graph_valid g).

Lemma walk_valid a b es : walk g a b es → ∀ e, In e es → Edge_valid e.
Proof.
  intros Hw e He. by destruct (Hvalid e (walk_edges _ _ _ _ Hw e He)) as (_&_&?).
Qed.

Lemma walk_has_vertex a b es : walk g a b es → has_vertex g a → has_vertex g b.
Proof.
  induction 1 as [|a b e es He _ _ IH]; [done|].
  intros _. apply IH. by destruct (Hvalid e He) as (_ & ? & _).
Qed.

(** A walk that starts inside a set and ends outside of it uses an edge
    that leaves the set; the part before that edge is a walk inside. *)
Lemma walk_crossing (S : gset string) a b es :
  walk g a b es → a ∈ S → b ∉ S →
  ∃ es1 e es2, es = es1 ++ e :: es2 ∧
           walk g a (from_vertex e) es1 ∧ In e (edges g) ∧
           (from_vertex e ∈ S) ∧ (to_vertex e ∉ S).
Proof.
  induction 1 as [a|a b e es He Hf Hw IH]; intros Ha Hb; [done|].
  destruct (decide (to_vertex e ∈ S)) as [Hin|Hout].
  - destruct (IH Hin Hb) as (es1 & e' & es2 & -> & Hw1 & He' & Hfs & Hts).
    exists (e :: es1), e', es2. split; [done|]. split; [by econstructor|].
    by repeat split.
  - exists [], e, es. subst a. split; [done|]. split; [constructor|].
    by repeat split.
Qed.

(** The walk up to and with the crossing edge is no longer than the whole
    walk. *)
Lemma crossing_cost a b es1 e es2 :
  walk g a b (es1 ++ e :: es2) →
  float_le (float_add (cost es1) (weight e)) (cost (es1 ++ e :: es2)).
Proof.
  intros Hw. rewrite <- cost_snoc.
  replace (es1 ++ e :: es2) with ((es1 ++ [e]) ++ es2)
    by (by rewrite <- app_assoc).
  apply cost_prefix. intros e' He'. eapply walk_valid; [done|].
  apply in_or_app. right. by right.
Qed.

End ValidGraph.

(** ** The search loop *)

Section Dijkstra.
Context (g : Graph) (start_id end_id : string).
Context (Hvalid : Graph_valid g).
Context (Hstart : has_vertex g start_id) (Hend : has_vertex g end_id).

(** [tree_path st v bp es]: following [previous] from [v] gives the
    vertex ids [bp] (from [v] back to [start_id]); [es] are the edges of
    that path from [start_id] to [v].  All vertices of the path but [v]
    are visited. *)
Inductive tree_path (st : search) :
  string → list string → list Edge → Prop :=
| tree_start :
    previous st !! start_id = Some None →
    tree_path st start_id [start_id] []
| tree_step u v bp es e :
    tree_path st u bp es → u ∈ visited st →
    In e (edges g) → from_vertex e = u → to_vertex e = v →
    ¬ In v bp → previous st !! v = Some (Some u) →
    tree_path st v (v :: bp) (es ++ [e]).

Lemma tree_path_shape st v bp es :
  tree_path st v bp es →
  ∃ tl, bp = v :: tl ∧ (∀ x, In x tl → x ∈ visited st) ∧ NoDup bp ∧
        (∀ x, In x bp → has_vertex g x).
Proof.
  induction 1 as [|u v bp es e Htp (tl & -> & Hvis & Hnd & Hids) Hu He Hf Ht Hnin Hp].
  - exists []. repeat split; try done.
    + repeat constructor. by intros ?%elem_of_nil.
    + by intros x [<-|[]].
  - exists (u :: tl). repeat split; try done.
    + intros x [<-|Hx]; [done | by apply Hvis].
    + apply NoDup_cons. split; [by rewrite list_elem_of_In | done].
    + intros x [<-|Hx]; [| by apply Hids].
      subst v. by destruct (Hvalid e He) as (_ & ? & _).
Qed.

Lemma tree_path_walk st v bp es :
  tree_path st v bp es →
  walk g start_id v es ∧ rev bp = vertex_ids start_id es.
Proof.
  induction 1 as [|u v bp es e Htp (Hw & Hr) Hu He Hf Ht Hnin Hp].
  - split; [constructor | done].
  - split.
    + by eapply walk_snoc.
    + simpl. rewrite Hr, vertex_ids_snoc. by subst v.
Qed.

Lemma tree_path_frame st st' v bp es :
  tree_path st v bp es →
  (∀ x, x ∈ visited st → x ∈ visited st') →
  (∀ x, In x bp → previous st' !! x = previous st !! x) →
  tree_path st' v bp es.
Proof.
  intros Htp Hvis. induction Htp as [|u v bp es e Htp IH Hu He Hf Ht Hnin Hp];
    intros Hprev.
  - constructor. rewrite Hprev; [done | by left].
  - econstructor; try done.
    + apply IH. intros x Hx. apply Hprev. by right.
    + by apply Hvis.
    + rewrite Hprev; [done | by left].
Qed.

Lemma tree_path_start_visited st v bp es :
  tree_path st v bp es → v = start_id ∨ start_id ∈ visited st.
Proof.
  induction 1 as [|u v bp es e Htp IH Hu He Hf Ht Hnin Hp]; [by left|].
  right. by destruct IH as [<-|?].
Qed.

Lemma follow_previous_tree st v bp es :
  tree_path st v bp es →
  ∀ (fuel : nat) acc, (length bp ≤ fuel)%nat →
    follow_previous (previous st) fuel (Some v) acc = Returned (acc ++ bp).
Proof.
  induction 1 as [|u v bp es e Htp IH Hu He Hf Ht Hnin Hp];
    intros [|fuel] acc Hlen; simpl in *; try lia.
  - rewrite H. by destruct fuel.
  - rewrite Hp, IH by lia. by rewrite <- app_assoc.
Qed.

(** The loop invariant.  [cur] is the vertex whose outgoing edges are
    being relaxed, if any.  A finite distance is the length of the path
    that [previous] records, as [add_weights] computes it. *)
Record Inv (cur : option string) (st : search) : Prop := {
  inv_dom : ∀ v, has_vertex g v → is_Some (distances st !! v);
  inv_start : distances st !! start_id = Some (Fin 0);
  inv_tree : ∀ v q, distances st !! v = Some (Fin q) →
    ∃ bp es, tree_path st v bp es ∧ cost es = Fin q;
  inv_pq : ∀ k v, In (k, v) (pq st) →
    ∃ q, distances st !! v = Some (Fin q) ∧ float_le (Fin q) k;
  inv_fresh : ∀ v q, distances st !! v = Some (Fin q) → v ∉ visited st →
    In (Fin q, v) (pq st);
  inv_opt : ∀ v, v ∈ visited st →
    ∃ q, distances st !! v = Some (Fin q) ∧
         ∀ es, walk g start_id v es → float_le (Fin q) (cost es);
  inv_relaxed : ∀ e, In e (edges g) → from_vertex e ∈ visited st →
    Some (from_vertex e) ≠ cur →
    ∃ qu dv, distances st !! from_vertex e = Some (Fin qu) ∧
             distances st !! to_vertex e = Some dv ∧
             float_le dv (float_add (Fin qu) (weight e));
  inv_end : end_id ∉ visited st
}.

Definition initial_search : search :=
  {| distances :=
       <[start_id := Fin 0]> (dict_of_vertices (λ _, Inf) (vertices g));
     previous := dict_of_vertices (λ _, None) (vertices g);
     pq := [(Fin 0, start_id)];
     visited := ∅ |}.

Lemma initial_distances v q :
  distances initial_search !! v = Some (Fin q) → v = start_id ∧ q = 0%Q.
Proof.
  simpl. destruct (decide (start_id = v)) as [<-|Hne].
  - rewrite lookup_insert_eq. by intros [= <-].
  - rewrite lookup_insert_ne by done. intros Hl.
    destruct (in_dec string_dec v (map id (vertices g))) as [Hv|Hv].
    + by rewrite dict_of_vertices_const in Hl.
    + by rewrite dict_of_vertices_None in Hl.
Qed.

Lemma Inv_initial : Inv None initial_search.
Proof.
  split.
  - intros v Hv. simpl. destruct (decide (start_id = v)) as [<-|Hne].
    + rewrite lookup_insert_eq. eauto.
    + rewrite lookup_insert_ne, dict_of_vertices_const by done. eauto.
  - simpl. by rewrite lookup_insert_eq.
  - intros v q [-> ->]%initial_distances. exists [start_id], [].
    split; [|done]. constructor. simpl.
    by apply dict_of_vertices_const.
  - intros k v [[= <- <-]|[]]. exists 0%Q. simpl.
    rewrite lookup_insert_eq. split; [done | apply Qle_refl].
  - intros v q [-> ->]%initial_distances _. by left.
  - intros v Hv. simpl in Hv. set_solver.
  - intros e _ Hv. simpl in Hv. set_solver.
  - simpl. set_solver.
Qed.

(** Relaxing edges never raises a distance and leaves [visited] alone. *)
Definition improves (st st' : search) : Prop :=
  visited st' = visited st ∧
  ∀ v d, distances st !! v = Some d →
    ∃ d', distances st' !! v = Some d' ∧ float_le d' d.

Lemma improves_refl st : improves st st.
Proof. split; [done|]. intros v d Hd. exists d. split; [done | apply float_le_refl]. Qed.

Lemma improves_trans st1 st2 st3 :
  improves st1 st2 → improves st2 st3 → improves st1 st3.
Proof.
  intros [Hv1 Hd1] [Hv2 Hd2]. split; [congruence|].
  intros v d Hd. destruct (Hd1 _ _ Hd) as (d1 & Hq1 & Hle1).
  destruct (Hd2 _ _ Hq1) as (d2 & Hq2 & Hle2). exists d2.
  split; [done | by eapply float_le_trans].
Qed.

Lemma relax_inv cur k qc st e :
  Inv (Some cur) st → cur ∈ visited st →
  distances st !! cur = Some (Fin qc) →
  float_le k (Fin qc) → float_le (Fin qc) k →
  In e (edges g) → from_vertex e = cur →
  ∃ st', relax cur k st (to_vertex e, weight e) = Returned st' ∧
    Inv (Some cur) st' ∧ improves st st' ∧
    distances st' !! cur = Some (Fin qc) ∧
    (∃ dv, distances st' !! to_vertex e = Some dv ∧
           float_le dv (float_add (Fin qc) (weight e))) ∧
    (length (pq st') ≤ S (length (pq st)))%nat.
Proof.
  intros HI Hcur Hdc Hk1 Hk2 He Hf.
  destruct (Hvalid e He) as (_ & Hv & Hw).
  destruct (inv_dom _ _ HI _ Hv) as [dn Hdn].
  destruct (inv_tree _ _ HI _ _ Hdc) as (bpc & esc & Htpc & Hcc).
  destruct (tree_path_walk _ _ _ _ Htpc) as (Hwc & _).
  destruct (tree_path_shape _ _ _ _ Htpc) as (tlc & -> & Htlc & _ & _).
  assert (Hkq : float_add k (weight e) = float_add (Fin qc) (weight e))
    by by apply float_add_proper_l.
  assert (Hcost : cost (esc ++ [e]) = float_add (Fin qc) (weight e))
    by by rewrite cost_snoc, Hcc.
  unfold relax. cbn [fst snd]. rewrite Hdn, Hkq.
  destruct (float_ltb (float_add (Fin qc) (weight e)) dn) eqn:Hlt.
  - (* the neighbour gets closer *)
    destruct (float_ltb_fin _ _ Hlt) as [d Hd].
    apply float_ltb_true in Hlt as [Hlt1 Hlt2]. rewrite Hd in *.
    assert (Hnv : to_vertex e ∉ visited st).
    { intros Hvis. destruct (inv_opt _ _ HI _ Hvis) as (qv & Hqv & Hopt).
      rewrite Hdn in Hqv. injection Hqv as ->.
      pose proof (Hopt _ (walk_snoc _ _ _ _ _ _ Hwc He Hf eq_refl)) as Hle.
      rewrite Hcost in Hle. done. }
    assert (Hns : to_vertex e ≠ start_id).
    { intros Heq. rewrite Heq, (inv_start _ _ HI) in Hdn.
      injection Hdn as <-.
      pose proof (cost_nonneg (esc ++ [e])) as Hnn. rewrite Hcost in Hnn.
      destruct Hnn as [_ Hnn]. simpl in Hlt2. done. }
    assert (Hnc : to_vertex e ≠ cur) by (intros Heq; by rewrite Heq in Hnv).
    assert (Hold : ∀ x, x ∈ visited st → to_vertex e ≠ x)
      by (intros x Hx <-; done).
    eexists. split; [done|]. split; [|split; [|split; [|split]]]; simpl.
    + split; simpl.
      * intros v Hv'. destruct (decide (to_vertex e = v)) as [<-|Hne].
        -- rewrite lookup_insert_eq. eauto.
        -- rewrite lookup_insert_ne by done. by apply (inv_dom _ _ HI).
      * rewrite lookup_insert_ne by done. apply (inv_start _ _ HI).
      * intros v q. destruct (decide (to_vertex e = v)) as [<-|Hne].
        -- rewrite lookup_insert_eq. intros [= <-].
           exists (to_vertex e :: cur :: tlc), (esc ++ [e]).
           split; [|done]. eapply tree_step; try done.
           ++ eapply tree_path_frame; [done | done |]. simpl.
              intros x [<-|Hx]; rewrite lookup_insert_ne; try done.
              apply Hold. by apply Htlc.
           ++ intros [Heq|Hx]; [by apply Hnc | by apply Hnv, Htlc].
           ++ simpl. by rewrite lookup_insert_eq.
        -- rewrite lookup_insert_ne by done. intros Hq.
           destruct (inv_tree _ _ HI _ _ Hq) as (bp & es & Htp & Hq').
           exists bp, es. split; [|done].
           eapply tree_path_frame; [done | done |]. simpl.
           destruct (tree_path_shape _ _ _ _ Htp) as (tl & -> & Htl & _ & _).
           intros x [<-|Hx]; rewrite lookup_insert_ne; try done.
           apply Hold. by apply Htl.
      * intros k0 v [Hin|[[= <- <-]|[]]]%in_app_or.
        -- destruct (inv_pq _ _ HI _ _ Hin) as (q & Hq & Hle).
           destruct (decide (to_vertex e = v)) as [<-|Hne].
           ++ rewrite lookup_insert_eq. eexists. split; [done|].
              rewrite Hdn in Hq. injection Hq as ->.
              exact (float_le_trans _ _ _ Hlt1 Hle).
           ++ rewrite lookup_insert_ne by done. eauto.
        -- rewrite lookup_insert_eq. eexists. split; [done | apply float_le_refl].
      * intros v q. destruct (decide (to_vertex e = v)) as [<-|Hne].
        -- rewrite lookup_insert_eq. intros [= <-] _.
           apply in_or_app; right; by left.
        -- rewrite lookup_insert_ne by done. intros Hq Hnvis.
           apply in_or_app; left. by apply (inv_fresh _ _ HI).
      * intros v Hvis. rewrite lookup_insert_ne by (by apply Hold).
        by apply (inv_opt _ _ HI).
      * intros e' He' Hvis Hne.
        destruct (inv_relaxed _ _ HI _ He' Hvis Hne) as (qu & dv & Hqu & Hqv & Hle).
        rewrite lookup_insert_ne by (by apply Hold).
        destruct (decide (to_vertex e = to_vertex e')) as [Heq|Hne'].
        -- rewrite Heq, lookup_insert_eq. eexists _, _. split; [done|].
           split; [done|]. rewrite <- Heq, Hdn in Hqv. injection Hqv as ->.
           exact (float_le_trans _ _ _ Hlt1 Hle).
        -- rewrite lookup_insert_ne by done. eauto.
      * apply (inv_end _ _ HI).
    + split; [done|]. simpl. intros v d0 Hq.
      destruct (decide (to_vertex e = v)) as [<-|Hne].
      * rewrite lookup_insert_eq. eexists. split; [done|].
        rewrite Hdn in Hq. by injection Hq as ->.
      * rewrite lookup_insert_ne by done. exists d0.
        split; [done | apply float_le_refl].
    + by rewrite lookup_insert_ne.
    + rewrite lookup_insert_eq. eexists. split; [done | apply float_le_refl].
    + unfold heappush. rewrite length_app. simpl. lia.
  - (* nothing changes *)
    exists st. split; [done|]. split; [done|]. split; [apply improves_refl|].
    split; [done|]. split; [|lia].
    apply float_ltb_false in Hlt. eauto.
Qed.

Lemma relax_all_inv cur k qc (l : list Edge) :
  (∀ e, In e l → In e (edges g) ∧ from_vertex e = cur) →
  float_le k (Fin qc) → float_le (Fin qc) k →
  ∀ st, Inv (Some cur) st → cur ∈ visited st →
  distances st !! cur = Some (Fin qc) →
  ∃ st', relax_all cur k (map (λ e, (to_vertex e, weight e)) l) st
           = Returned st' ∧
    Inv (Some cur) st' ∧ improves st st' ∧
    distances st' !! cur = Some (Fin qc) ∧
    (∀ e, In e l → ∃ dv, distances st' !! to_vertex e = Some dv ∧
                         float_le dv (float_add (Fin qc) (weight e))) ∧
    (length (pq st') ≤ length (pq st) + length l)%nat.
Proof.
  intros Hl Hk1 Hk2. induction l as [|e l IH]; intros st HI Hcur Hdc; simpl.
  - exists st. split; [done|]. split; [done|]. split; [apply improves_refl|].
    split; [done|]. split; [by intros ? []|lia].
  - destruct (Hl e (or_introl eq_refl)) as [He Hf].
    destruct (relax_inv cur k qc st e HI Hcur Hdc Hk1 Hk2 He Hf)
      as (st1 & -> & HI1 & Himp1 & Hdc1 & (dv & Hqv & Hle) & Hlen1).
    destruct (IH (λ e' He', Hl e' (or_intror He')) st1 HI1)
      as (st' & -> & HI' & Himp' & Hdc' & Hdone & Hlen'); [|done|].
    { destruct Himp1 as [-> _]. done. }
    exists st'. split; [done|]. split; [done|].
    split; [by eapply improves_trans|]. split; [done|]. split; [|lia].
    intros e' [<-|He']; [|by apply Hdone].
    destruct Himp' as [_ Hmono]. destruct (Hmono _ _ Hqv) as (d' & Hq' & Hle').
    exists d'. split; [done | by eapply float_le_trans].
Qed.

(** The quantity that decreases at every turn of the loop: items on the
    heap plus edges whose source has not been visited yet. *)
Definition pending (st : search) : nat :=
  length (pq st) +
  length (filter (λ e, from_vertex e ∉ visited st) (edges g)).

Lemma unvisited_edges_split (V : gset string) u (es : list Edge) :
  u ∉ V →
  length (filter (λ e, from_vertex e ∉ V) es) =
  (length (filter (λ e, from_vertex e ∉ {[u]} ∪ V) es) +
   length (filter (λ e, from_vertex e = u) es))%nat.
Proof.
  intros Hu. induction es as [|e es IH]; [done|].
  rewrite !filter_cons.
  destruct (decide (from_vertex e = u)) as [Heq|Hne].
  - rewrite decide_True by (by rewrite Heq).
    rewrite decide_False by set_solver. simpl. lia.
  - destruct (decide (from_vertex e ∉ V)) as [Hn|Hn].
    + rewrite decide_True; [simpl; lia|].
      rewrite not_elem_of_union, elem_of_singleton. by split.
    + rewrite decide_False; [done|].
      rewrite not_elem_of_union. by intros [_ ?].
Qed.

(** What holds when the loop is left: a finite distance to [end_id] is
    the length of the recorded path and no walk is shorter; an infinite
    one means that every walk to [end_id] has an infinite length. *)
Definition Post (st : search) : Prop :=
  ∃ d, distances st !! end_id = Some d ∧
    (∀ es, walk g start_id end_id es → float_le d (cost es)) ∧
    ∀ q, d = Fin q → ∃ bp es, tree_path st end_id bp es ∧ cost es = Fin q.

(** The state after [heappop], and after [visited.add]. *)
Definition popped (st : search) (pq' : list (float * string)) : search :=
  {| distances := distances st; previous := previous st;
     pq := pq'; visited := visited st |}.

Definition visit (st : search) (pq' : list (float * string)) (u : string) :
  search :=
  {| distances := distances st; previous := previous st;
     pq := pq'; visited := {[u]} ∪ visited st |}.

Lemma tree_path_popped st pq' v bp es :
  tree_path st v bp es → tree_path (popped st pq') v bp es.
Proof. intros H. by eapply tree_path_frame. Qed.

Lemma tree_path_visit st pq' u v bp es :
  tree_path st v bp es → tree_path (visit st pq' u) v bp es.
Proof. intros H. eapply tree_path_frame; [done | simpl; set_solver | done]. Qed.

Lemma Inv_pop_visited st k u pq' :
  Inv None st → Permutation (pq st) ((k, u) :: pq') → u ∈ visited st →
  Inv None (popped st pq').
Proof.
  intros HI Hperm Hu. split; simpl.
  - apply (inv_dom _ _ HI).
  - apply (inv_start _ _ HI).
  - intros v q Hq. destruct (inv_tree _ _ HI _ _ Hq) as (bp & es & Htp & Hq').
    exists bp, es. split; [by apply tree_path_popped | done].
  - intros k0 v Hin. apply (inv_pq _ _ HI).
    eapply Permutation_in; [symmetry; done | by right].
  - intros v q Hq Hnv. pose proof (inv_fresh _ _ HI _ _ Hq Hnv) as Hin.
    apply (Permutation_in _ Hperm) in Hin as [[= -> ->]|Hin]; done.
  - apply (inv_opt _ _ HI).
  - apply (inv_relaxed _ _ HI).
  - apply (inv_end _ _ HI).
Qed.

(** A walk that leaves the visited vertices is at least as long as the
    least key of the heap; when the heap is empty it is infinitely long. *)
Lemma leaving_walk st u es :
  Inv None st → start_id ∈ visited st → u ∉ visited st →
  walk g start_id u es →
  ∃ dy, float_le dy (cost es) ∧
        ∀ q, dy = Fin q → ∃ y, In (Fin q, y) (pq st).
Proof.
  intros HI Hsv Hu Hw.
  destruct (walk_crossing g _ _ _ _ Hw Hsv Hu)
    as (es1 & e & es2 & -> & Hw1 & He & Hfs & Hts).
  destruct (inv_opt _ _ HI _ Hfs) as (qx & Hqx & Hoptx).
  destruct (inv_relaxed _ _ HI _ He Hfs) as (qx' & dy & Hqx' & Hdy & Hrel);
    [done|].
  rewrite Hqx in Hqx'. injection Hqx' as <-.
  exists dy. split.
  - eapply float_le_trans; [exact Hrel|].
    eapply float_le_trans; [|by eapply crossing_cost].
    apply float_add_mono_l, Hoptx, Hw1.
  - intros q ->. exists (to_vertex e). by apply (inv_fresh _ _ HI).
Qed.

(** The vertex popped first is at its final, least distance. *)
Lemma popped_optimal st k u pq' :
  Inv None st → Permutation (pq st) ((k, u) :: pq') →
  (∀ k' v, In (k', v) (pq st) → float_le k k') → u ∉ visited st →
  ∃ qu, distances st !! u = Some (Fin qu) ∧
        float_le k (Fin qu) ∧ float_le (Fin qu) k ∧
        (∀ es, walk g start_id u es → float_le (Fin qu) (cost es)) ∧
        has_vertex g u.
Proof.
  intros HI Hperm Hmin Hu.
  assert (Hin : In (k, u) (pq st))
    by (eapply Permutation_in; [symmetry; done | by left]).
  destruct (inv_pq _ _ HI _ _ Hin) as (qu & Hqu & Hle).
  pose proof (inv_fresh _ _ HI _ _ Hqu Hu) as Hin0.
  pose proof (Hmin _ _ Hin0) as Hle0.
  destruct (inv_tree _ _ HI _ _ Hqu) as (bp & es & Htp & Hq').
  exists qu. split; [done|]. split; [done|]. split; [done|]. split.
  - intros es' Hw'.
    destruct (tree_path_start_visited _ _ _ _ Htp) as [->|Hsv].
    + rewrite (inv_start _ _ HI) in Hqu. injection Hqu as <-.
      pose proof (cost_nonneg es') as Hnn.
      destruct (cost es'); [by destruct Hnn | done].
    + destruct (leaving_walk st u es' HI Hsv Hu Hw') as (dy & Hdy & Hpq).
      eapply float_le_trans; [|exact Hdy].
      destruct dy as [qy|]; [|done].
      destruct (Hpq qy eq_refl) as (y & Hy).
      eapply float_le_trans; [exact Hle|]. by eapply Hmin.
  - destruct (tree_path_shape _ _ _ _ Htp) as (tl & -> & _ & _ & Hids).
    apply Hids. by left.
Qed.

Lemma Inv_visit st k u pq' qu :
  Inv None st → Permutation (pq st) ((k, u) :: pq') →
  u ∉ visited st → u ≠ end_id →
  distances st !! u = Some (Fin qu) →
  (∀ es, walk g start_id u es → float_le (Fin qu) (cost es)) →
  Inv (Some u) (visit st pq' u).
Proof.
  intros HI Hperm Hu Hne Hqu Hopt. split; simpl.
  - apply (inv_dom _ _ HI).
  - apply (inv_start _ _ HI).
  - intros v q Hq. destruct (inv_tree _ _ HI _ _ Hq) as (bp & es & Htp & Hq').
    exists bp, es. split; [by apply tree_path_visit | done].
  - intros k0 v Hin. apply (inv_pq _ _ HI).
    eapply Permutation_in; [symmetry; done | by right].
  - intros v q Hq Hnv.
    assert (Hnv' : v ∉ visited st) by set_solver.
    pose proof (inv_fresh _ _ HI _ _ Hq Hnv') as Hin.
    apply (Permutation_in _ Hperm) in Hin as [[= -> ->]|Hin]; [set_solver|done].
  - intros v [->%elem_of_singleton|Hv]%elem_of_union; [eauto|].
    by apply (inv_opt _ _ HI).
  - intros e He [Hf%elem_of_singleton|Hv]%elem_of_union Hcur;
      [congruence|]. by apply (inv_relaxed _ _ HI).
  - rewrite not_elem_of_union, elem_of_singleton.
    split; [done | apply (inv_end _ _ HI)].
Qed.

Lemma Inv_relaxed_done st u :
  Inv (Some u) st →
  (∀ e, In e (edges g) → from_vertex e = u →
     ∃ qu dv, distances st !! from_vertex e = Some (Fin qu) ∧
              distances st !! to_vertex e = Some dv ∧
              float_le dv (float_add (Fin qu) (weight e))) →
  Inv None st.
Proof.
  intros HI Hu. split; try apply HI.
  intros e He Hv _. destruct (decide (from_vertex e = u)) as [Heq|Hne].
  - by apply Hu.
  - apply (inv_relaxed _ _ HI); [done | done | congruence].
Qed.

Lemma Post_break st k pq' :
  Inv None st → Permutation (pq st) ((k, end_id) :: pq') →
  (∀ k' v, In (k', v) (pq st) → float_le k k') →
  Post (visit st pq' end_id).
Proof.
  intros HI Hperm Hmin.
  destruct (popped_optimal st k end_id pq' HI Hperm Hmin (inv_end _ _ HI))
    as (q & Hq & _ & _ & Hopt & _).
  exists (Fin q). split; [done|]. split; [done|]. intros q' [= <-].
  destruct (inv_tree _ _ HI _ _ Hq) as (bp & es & Htp & Hq').
  exists bp, es. split; [by apply tree_path_visit | done].
Qed.

Lemma Post_exhausted st : Inv None st → pq st = [] → Post st.
Proof.
  intros HI Hpq. destruct (inv_dom _ _ HI _ Hend) as [d Hd].
  exists d. split; [done|]. destruct d as [q|].
  - pose proof (inv_fresh _ _ HI _ _ Hd (inv_end _ _ HI)) as Hin.
    rewrite Hpq in Hin. destruct Hin.
  - split; [|done]. intros es Hw.
    assert (Hsv : start_id ∈ visited st).
    { destruct (decide (start_id ∈ visited st)) as [|Hn]; [done|].
      pose proof (inv_fresh _ _ HI _ _ (inv_start _ _ HI) Hn) as Hin.
      rewrite Hpq in Hin. destruct Hin. }
    destruct (leaving_walk st end_id es HI Hsv (inv_end _ _ HI) Hw)
      as (dy & Hdy & Hin).
    destruct dy as [qy|]; [|done].
    destruct (Hin qy eq_refl) as (y & Hy). rewrite Hpq in Hy. destruct Hy.
Qed.

(** The loop returns, with fuel to spare, in a state satisfying [Post]. *)
Lemma while_pq_spec (adjacency : gmap string (list (string * float))) :
  (∀ u, has_vertex g u → adjacency !! u = Some (out_edges (edges g) u)) →
  ∀ (fuel : nat) st, Inv None st → (pending st < fuel)%nat →
  ∃ st', while_pq adjacency end_id fuel st = Returned st' ∧ Post st'.
Proof.
  intros Hadj. induction fuel as [|fuel IH]; intros st HI Hfuel; [lia|].
  simpl. destruct (heappop (pq st)) as [[[k u] pq']|] eqn:Hpop.
  2: { exists st. split; [done|]. by apply Post_exhausted, heappop_None. }
  destruct (heappop_spec _ _ _ _ Hpop) as [Hperm Hmin].
  pose proof (Permutation_length Hperm) as Hlen. simpl in Hlen.
  destruct (decide (u ∈ visited st)) as [Hu|Hu].
  - apply IH; [by eapply Inv_pop_visited|].
    unfold pending in *. simpl. lia.
  - destruct (popped_optimal st k u pq' HI Hperm Hmin Hu)
      as (qu & Hqu & Hk1 & Hk2 & Hopt & Hvu).
    destruct (decide (u = end_id)) as [->|Hne].
    { eexists. split; [done|]. by eapply Post_break. }
    simpl. rewrite Hqu.
    replace (float_ltb (Fin qu) k) with false.
    2: { symmetry. destruct k as [kq|]; simpl in *; [|done].
         by apply Qltb_false. }
    rewrite (Hadj u Hvu). unfold out_edges.
    pose proof (Inv_visit st k u pq' qu HI Hperm Hu Hne Hqu Hopt) as HI1.
    destruct (relax_all_inv u k qu (filter (λ e, from_vertex e = u) (edges g)))
      with (st := visit st pq' u)
      as (st2 & Hrel & HI2 & [Hvis2 _] & Hqu2 & Hdone & Hlen2);
      [ | done | done | done | simpl; set_solver | done | ].
    { intros e He%list_elem_of_In%list_elem_of_filter.
      destruct He as [Hf He%list_elem_of_In]. done. }
    unfold visit in Hrel. rewrite Hrel.
    apply IH.
    + apply (Inv_relaxed_done _ u); [done|].
      intros e He Hf. destruct (Hdone e) as (dv & Hqv & Hle).
      { apply list_elem_of_In, list_elem_of_filter.
        split; [done | by apply list_elem_of_In]. }
      exists qu, dv. rewrite Hf. by split.
    + unfold pending in *. rewrite Hvis2. simpl in *.
      rewrite (unvisited_edges_split (visited st) u (edges g) Hu) in Hfuel.
      lia.
Qed.

End Dijkstra.

(** ** The whole function *)

Lemma lookup_all_spec g (l : list string) :
  (∀ x, In x l → has_vertex g x) →
  ∃ pv, lookup_all (dict_of_vertices (λ v, v) (vertices g)) l = Returned pv ∧
        map id pv = l ∧ ∀ v, In v pv → In v (vertices g).
Proof.
  induction l as [|x l IH]; intros Hl; simpl.
  - exists []. by repeat split.
  - destruct (dict_of_vertices_Some (λ v, v) g x) as (v & Hin & Hid & ->);
      [apply Hl; by left|].
    destruct IH as (pv & -> & Hmap & Hpv); [intros; apply Hl; by right|].
    exists (v :: pv). split; [done|]. split; [simpl; congruence|].
    intros v' [<-|Hv']; [done | by apply Hpv].
Qed.

Lemma build_adjacency_valid g :
  (∀ e, In e (edges g) → has_vertex g (from_vertex e)) →
  ∃ adjacency,
    build_adjacency (edges g) (dict_of_vertices (λ _, []) (vertices g))
      = Returned adjacency ∧
    ∀ u, has_vertex g u → adjacency !! u = Some (out_edges (edges g) u).
Proof.
  intros Hfrom.
  destruct (build_adjacency_spec (edges g)
              (dict_of_vertices (λ _, []) (vertices g)))
    as (adj & Hb & Hadj).
  { intros e He. rewrite dict_of_vertices_const by by apply Hfrom. eauto. }
  exists adj. split; [done|]. intros u Hu.
  by rewrite Hadj, dict_of_vertices_const.
Qed.

(** The response on a found path. *)
Definition found (p : list string) (pv : list Vertex) (q : Q) :
  ShortestPathResponse :=
  {| path := p; path_vertices := pv; total_distance := Fin q;
     success := true; message := FoundShortestPath (Fin q) |}.

(** On a valid graph with both end points present the function returns:
    either a shortest walk, with its length as [add_weights] computes it,
    or the report that there is no path when no walk has a finite
    length. *)
Lemma find_shortest_path_cases g start_id end_id :
  Graph_valid g → has_vertex g start_id → has_vertex g end_id →
  (∃ es q pv,
     find_shortest_path g start_id end_id
       = Returned (found (vertex_ids start_id es) pv q) ∧
     walk g start_id end_id es ∧ cost es = Fin q ∧
     (∀ es', walk g start_id end_id es' → float_le (Fin q) (cost es')) ∧
     map id pv = vertex_ids start_id es ∧
     (∀ v, In v pv → In v (vertices g)) ∧
     NoDup (vertex_ids start_id es) ∧
     lookup_all (dict_of_vertices (λ v, v) (vertices g))
       (vertex_ids start_id es) = Returned pv) ∨
  (find_shortest_path g start_id end_id
     = Returned (not_found (NoPathFound start_id end_id)) ∧
   ∀ es, walk g start_id end_id es → cost es = Inf).
Proof.
  intros Hvalid Hstart Hend. unfold find_shortest_path.
  destruct (dict_of_vertices_Some (λ v, v) g start_id Hstart) as (vs & _ & _ & ->).
  destruct (dict_of_vertices_Some (λ v, v) g end_id Hend) as (ve & _ & _ & ->).
  destruct (build_adjacency_valid g) as (adjacency & -> & Hadj).
  { intros e He. by destruct (Hvalid e He). }
  destruct (while_pq_spec g start_id end_id Hvalid Hstart Hend adjacency Hadj
              (search_fuel g) (initial_search g start_id))
    as (st & Hloop & d & Hd & Hopt & Htree).
  { by apply Inv_initial. }
  { unfold pending, search_fuel. simpl.
    apply -> Nat.succ_lt_mono. apply Nat.lt_succ_r, length_filter. }
  unfold initial_search in Hloop. rewrite Hloop, Hd.
  destruct d as [q|]; simpl.
  2: { right. split; [done|]. intros es Hw. by apply float_le_inf, Hopt. }
  destruct (Htree q eq_refl) as (bp & es & Htp & Hq'). left.
  destruct (tree_path_walk _ _ _ _ _ _ Htp) as (Hw & Hrev).
  destruct (tree_path_shape _ _ Hvalid Hstart _ _ _ _ Htp)
    as (tl & Hbp & _ & Hnd & Hids).
  rewrite (follow_previous_tree _ _ _ _ _ _ Htp).
  2: { unfold path_fuel. rewrite <- (length_map id (vertices g)).
       apply submseteq_length, NoDup_submseteq; [done|].
       intros x Hx%list_elem_of_In. by apply list_elem_of_In, Hids. }
  simpl. rewrite Hrev.
  destruct (lookup_all_spec g (vertex_ids start_id es)) as (pv & Hpv' & Hmap & Hpv).
  { intros x Hx. apply Hids. apply in_rev. by rewrite Hrev. }
  rewrite Hpv'.
  exists es, q, pv. split; [done|]. split; [done|]. split; [done|].
  split; [done|]. split; [done|]. split; [done|]. split; [|done].
  rewrite <- Hrev. by apply NoDup_ListNoDup, List.NoDup_rev, NoDup_ListNoDup.
Qed.


Lemma example_simple_graph_valid : Graph_valid example_simple_graph.
Proof.
  intros e He. simpl in He.
  repeat (destruct He as [<-|He]; [vm_compute; intuition congruence|]).
  destruct He.
Qed.

(** An edge whose source is not a vertex makes the function raise
    before the search starts. *)
Definition example_dangling_edge : Graph :=
  {| vertices := [ {| id := "A"; name := "A" |}; {| id := "B"; name := "B" |} ];
     edges := [ {| from_vertex := "A"; to_vertex := "B"; weight := Fin 1 |};
                {| from_vertex := "X"; to_vertex := "A"; weight := Fin 1 |} ] |}.

Example find_shortest_path_dangling_edge :
  find_shortest_path example_dangling_edge "A" "B" = Raised (KeyError "X").
Proof. reflexivity. Qed.

(** The float [1e308], the double nearest to [10^308]; the largest double
    is about [1.8e308]. *)
Definition float_1e308 : float := float_literal (10 ^ 308).

(** Two edges whose weights add up to [inf]. *)
Definition example_overflow : Graph :=
  {| vertices :=
       [ {| id := "A"; name := "A" |}; {| id := "B"; name := "B" |};
         {| id := "C"; name := "C" |} ];
     edges :=
       [ {| from_vertex := "A"; to_vertex := "B"; weight := float_1e308 |};
         {| from_vertex := "B"; to_vertex := "C"; weight := float_1e308 |} ] |}.


Lemma example_overflow_walk :
  walk example_overflow "A" "C" (edges example_overflow).
Proof.
  repeat (econstructor; [simpl; tauto | reflexivity |]). constructor.
Qed.

Example find_shortest_path_overflow :
  find_shortest_path example_overflow "A" "B"
    = Returned
        {| path := ["A"; "B"];
           path_vertices :=
             [ {| id := "A"; name := "A" |}; {| id := "B"; name := "B" |} ];
           total_distance := float_1e308; success := true;
           message := FoundShortestPath float_1e308 |} ∧
  find_shortest_path example_overflow "A" "C"
    = Returned (not_found (NoPathFound "A" "C")).
Proof. split; vm_compute; reflexivity. Qed.

(** The floats [0.1], [0.2] and [0.1 + 0.2 = 0.30000000000000004]: the
    sum is rounded up, the exact sum of the two doubles is smaller. *)
Definition float_0_1 : float := float_literal (1 # 10).
Definition float_0_2 : float := float_literal (2 # 10).

Definition example_rounding : Graph :=
  {| vertices :=
       [ {| id := "A"; name := "A" |}; {| id := "B"; name := "B" |};
         {| id := "C"; name := "C" |} ];
     edges :=
       [ {| from_vertex := "A"; to_vertex := "B"; weight := float_0_1 |};
         {| from_vertex := "B"; to_vertex := "C"; weight := float_0_2 |};
         {| from_vertex := "A"; to_vertex := "C";
            weight := float_add float_0_1 float_0_2 |} ] |}.

(** The way over B is not strictly shorter in double precision, so the
    direct edge found first is kept. *)
Example find_shortest_path_rounding :
  float_add float_0_1 float_0_2
    = Fin (1351079888211149 # 4503599627370496) ∧
  ∃ pv, find_shortest_path example_rounding "A" "C"
    = Returned
        {| path := ["A"; "C"]; path_vertices := pv;
           total_distance := float_add float_0_1 float_0_2; success := true;
           message := FoundShortestPath (float_add float_0_1 float_0_2) |}.
Proof. split; [vm_compute; reflexivity|]. eexists. vm_compute. reflexivity. Qed.




(** Every failure response is one of the [not_found] responses. *)
Lemma failure_is_not_found g start_id end_id r :
  find_shortest_path g start_id end_id = Returned r → success r = false →
  r = not_found (StartNotFound start_id) ∨
  r = not_found (EndNotFound end_id) ∨
  r = not_found (NoPathFound start_id end_id).
Proof.
  unfold find_shortest_path. intros Hr Hs.
  repeat (case_match; try discriminate);
    injection Hr as <-; try discriminate; auto.
Qed.

Lemma follow_previous_app previous (fuel : nat) : ∀ current acc l,
  follow_previous previous fuel current acc = Returned l →
  ∃ l', l = acc ++ l' ∧ (is_Some current → l' ≠ []).
Proof.
  induction fuel as [|fuel IH]; intros [c|] acc l; simpl; try done;
    try (intros [= <-]; exists []; split;
         [by rewrite app_nil_r | by intros [? [=]]]).
  destruct (previous !! c) as [p|]; [|done]. intros Hl.
  destruct (IH _ _ _ Hl) as (l' & -> & _). exists (c :: l').
  split; [by rewrite <- app_assoc | done].
Qed.

(** The path of a success holds at least [end_id]. *)
Lemma success_path_nonempty g start_id end_id r :
  find_shortest_path g start_id end_id = Returned r → success r = true →
  path r ≠ [].
Proof.
  unfold find_shortest_path. intros Hr Hs.
  repeat (case_match; try discriminate);
    injection Hr as <-; try discriminate. simpl.
  match goal with
  | H : follow_previous _ _ _ _ = Returned _ |- _ =>
      destruct (follow_previous_app _ _ _ _ _ H) as (l' & -> & Hne)
  end.
  simpl. intros Hrev. apply (f_equal (@length _)) in Hrev.
  rewrite length_rev in Hrev. destruct l'; [by apply Hne; eauto | done].
Qed.

Lemma example_disconnected_graph_valid : Graph_valid example_disconnected_graph.
Proof.
  intros e He. simpl in He.
  repeat (destruct He as [<-|He]; [vm_compute; intuition congruence|]).
  destruct He.
Qed.

(** A graph with an edge that leaves a vertex that does not exist, and no
    path from A to B. *)
Definition example_no_path_dangling : Graph :=
  {| vertices := [ {| id := "A"; name := "A" |}; {| id := "B"; name := "B" |} ];
     edges := [ {| from_vertex := "X"; to_vertex := "A"; weight := Fin 1 |} ] |}.

(** C2 as stated fails in two ways.  With both end points present and
    no path, an edge whose source is not a vertex makes the call raise
    [KeyError] instead of returning the failure result; and a failure
    result is returned although a path exists when the weights of every
    path add up to [inf]. *)
Theorem failure_result_is_not_exactly_no_path :
  (has_vertex example_no_path_dangling "A" ∧
   has_vertex example_no_path_dangling "B" ∧
   (∀ es, ¬ walk example_no_path_dangling "A" "B" es) ∧
   find_shortest_path example_no_path_dangling "A" "B"
     = Raised (KeyError "X")) ∧
  (has_vertex example_overflow "A" ∧ has_vertex example_overflow "C" ∧
   walk example_overflow "A" "C" (edges example_overflow) ∧
   ∃ r, find_shortest_path example_overflow "A" "C" = Returned r ∧
        success r = false).
Proof.
  split; [split; [|split; [|split]] | split; [|split; [|split]]].
  - unfold has_vertex. simpl. tauto.
  - unfold has_vertex. simpl. tauto.
  - intros es Hw. inversion Hw as [|a b e es' He Hf Hw']; subst.
    simpl in He. destruct He as [<-|[]]. discriminate.
  - reflexivity.
  - unfold has_vertex. simpl. tauto.
  - unfold has_vertex. simpl. tauto.
  - apply example_overflow_walk.
  - eexists. split; [vm_compute; reflexivity | reflexivity].
Qed.

(** C2.  On any graph, an absent [start_id] gives the "start not found"
    response and a present [start_id] with an absent [end_id] the "end
    not found" response; a failure that is returned has an empty [path],
    empty [vertices], an infinite distance and one of the three
    messages, and a success that is returned never has an empty [path].
    On a graph whose edges join vertices of the graph and carry positive
    weights, [find_shortest_path] returns a response, and it is a failure
    ([success = false]) exactly when [start_id] is not a vertex, or
    [end_id] is not a vertex, or no walk from [start_id] to [end_id] has
    a finite length (the sum of its weights in double precision), as
    when there is no walk; with both end points present that failure is
    the "no path found" response. *)
Theorem find_shortest_path_failure_iff g start_id end_id :
  (¬ has_vertex g start_id →
     find_shortest_path g start_id end_id
       = Returned (not_found (StartNotFound start_id))) ∧
  (has_vertex g start_id → ¬ has_vertex g end_id →
     find_shortest_path g start_id end_id
       = Returned (not_found (EndNotFound end_id))) ∧
  (Graph_valid g →
   ∃ r, find_shortest_path g start_id end_id = Returned r ∧
     (success r = false ↔
        ¬ has_vertex g start_id ∨ ¬ has_vertex g end_id ∨
        ∀ es, walk g start_id end_id es → cost es = Inf) ∧
     (success r = false →
        path r = [] ∧ path_vertices r = [] ∧ total_distance r = Inf ∧
        (message r = StartNotFound start_id ∨
         message r = EndNotFound end_id ∨
         message r = NoPathFound start_id end_id)) ∧
     (success r = true → path r ≠ []) ∧
     (has_vertex g start_id → has_vertex g end_id →
        (∀ es, walk g start_id end_id es → cost es = Inf) →
        r = not_found (NoPathFound start_id end_id))) ∧
  (∀ r, find_shortest_path g start_id end_id = Returned r →
     (success r = false →
        path r = [] ∧ path_vertices r = [] ∧ total_distance r = Inf ∧
        (message r = StartNotFound start_id ∨
         message r = EndNotFound end_id ∨
         message r = NoPathFound start_id end_id)) ∧
     (success r = true → path r ≠ [])).
Proof.
  assert (Hnostart : ¬ has_vertex g start_id →
    find_shortest_path g start_id end_id
      = Returned (not_found (StartNotFound start_id))).
  { intros Hs. unfold find_shortest_path. by rewrite dict_of_vertices_None. }
  assert (Hnoend : has_vertex g start_id → ¬ has_vertex g end_id →
    find_shortest_path g start_id end_id
      = Returned (not_found (EndNotFound end_id))).
  { intros Hs He. unfold find_shortest_path.
    destruct (dict_of_vertices_Some (λ v, v) g start_id Hs) as (? & _ & _ & ->).
    by rewrite dict_of_vertices_None. }
  split; [done|]. split; [done|]. split.
  2: { intros r Hr. split; [|by eapply success_path_nonempty].
       intros Hs.
       destruct (failure_is_not_found g start_id end_id r Hr Hs)
         as [-> | [-> | ->]]; simpl; auto 10. }
  intros Hvalid.
  destruct (in_dec string_dec start_id (map id (vertices g))) as [Hs|Hs].
  2: { exists (not_found (StartNotFound start_id)). split; [by apply Hnostart|].
       unfold has_vertex. simpl. intuition (try done; auto). }
  destruct (in_dec string_dec end_id (map id (vertices g))) as [He|He].
  2: { exists (not_found (EndNotFound end_id)). split; [by apply Hnoend|].
       unfold has_vertex. simpl. intuition (try done; auto). }
  destruct (find_shortest_path_cases g start_id end_id Hvalid Hs He)
    as [(es & q & pv & Hr & Hw & Hc & Hmin & _)|[Hr Hno]].
  - exists (found (vertex_ids start_id es) pv q). split; [done|].
    assert (Hfin : ¬ ∀ es, walk g start_id end_id es → cost es = Inf).
    { intros Hno. specialize (Hno es Hw). congruence. }
    unfold has_vertex. simpl. split; [|split; [|split]].
    + split; [done|]. intros [?|[?|Hno]]; done.
    + done.
    + done.
    + intros _ _ Hno. done.
  - exists (not_found (NoPathFound start_id end_id)). split; [done|].
    unfold has_vertex. simpl. intuition (try done; auto).
Qed.

Lemma find_shortest_path_failure_iff_witness :
  Graph_valid example_disconnected_graph ∧
  ∃ r, find_shortest_path example_disconnected_graph "A" "D" = Returned r ∧
    (success r = false ↔
       ¬ has_vertex example_disconnected_graph "A" ∨
       ¬ has_vertex example_disconnected_graph "D" ∨
       ∀ es, walk example_disconnected_graph "A" "D" es → cost es = Inf) ∧
    (success r = false →
       path r = [] ∧ path_vertices r = [] ∧ total_distance r = Inf ∧
       (message r = StartNotFound "A" ∨
        message r = EndNotFound "D" ∨
        message r = NoPathFound "A" "D")) ∧
    (success r = true → path r ≠ []) ∧
    (has_vertex example_disconnected_graph "A" →
     has_vertex example_disconnected_graph "D" →
       (∀ es, walk example_disconnected_graph "A" "D" es → cost es = Inf) →
       r = not_found (NoPathFound "A" "D")).
Proof.
  split; [apply example_disconnected_graph_valid|].
  exact (proj1 (proj2 (proj2
           (find_shortest_path_failure_iff example_disconnected_graph "A" "D")))
           example_disconnected_graph_valid).
Defined.

(** A single vertex and an edge that arrives from a vertex that does not
    exist. *)
Definition example_lonely_vertex : Graph :=
  {| vertices := [ {| id := "A"; name := "A" |} ];
     edges := [ {| from_vertex := "X"; to_vertex := "A"; weight := Fin 1 |} ] |}.

(** C10 as stated fails when some edge leaves a vertex that does not
    exist: the adjacency lists are built before the search, and such an
    edge makes that raise [KeyError]. *)
Theorem same_vertex_needs_edge_sources :
  has_vertex example_lonely_vertex "A" ∧
  find_shortest_path example_lonely_vertex "A" "A" = Raised (KeyError "X").
Proof. split; [unfold has_vertex; simpl; tauto | reflexivity]. Qed.

(** C10.  When [start_id] is a vertex and every edge leaves a vertex of
    the graph, asking for the path from [start_id] to itself succeeds
    with [path = [start_id]], [vertices] holding exactly the vertex stored
    under that id, and [total_distance = 0]. *)
Theorem find_shortest_path_same_vertex g start_id :
  has_vertex g start_id →
  (∀ e, In e (edges g) → has_vertex g (from_vertex e)) →
  ∃ v, In v (vertices g) ∧ id v = start_id ∧
    find_shortest_path g start_id start_id =
      Returned {| path := [start_id]; path_vertices := [v];
                  total_distance := Fin 0; success := true;
                  message := FoundShortestPath (Fin 0) |}.
Proof.
  intros Hs Hfrom.
  destruct (dict_of_vertices_Some (λ v, v) g start_id Hs) as (v & Hin & Hid & Hv).
  exists v. split; [done|]. split; [done|].
  unfold find_shortest_path. rewrite Hv.
  destruct (build_adjacency_valid g Hfrom) as (adjacency & -> & _).
  unfold search_fuel. simpl.
  rewrite decide_False by set_solver. rewrite decide_True by done.
  simpl. rewrite lookup_insert_eq. simpl.
  assert (Hlen : ∃ n, path_fuel g = S n).
  { unfold path_fuel, has_vertex in *. destruct (vertices g); [destruct Hs|].
    simpl. eauto. }
  destruct Hlen as [n ->]. simpl.
  rewrite (dict_of_vertices_const None g start_id Hs).
  destruct n; simpl; by rewrite Hv.
Qed.

Lemma find_shortest_path_same_vertex_witness :
  has_vertex example_disconnected_graph "C" ∧
  (∀ e, In e (edges example_disconnected_graph) →
        has_vertex example_disconnected_graph (from_vertex e)) ∧
  ∃ v, In v (vertices example_disconnected_graph) ∧ id v = "C" ∧
    find_shortest_path example_disconnected_graph "C" "C" =
      Returned {| path := ["C"]; path_vertices := [v];
                  total_distance := Fin 0; success := true;
                  message := FoundShortestPath (Fin 0) |}.
Proof.
  assert (HC : has_vertex example_disconnected_graph "C")
    by (unfold has_vertex; simpl; tauto).
  assert (Hfrom : ∀ e, In e (edges example_disconnected_graph) →
                       has_vertex example_disconnected_graph (from_vertex e)).
  { intros e He. by destruct (example_disconnected_graph_valid e He). }
  split; [done|]. split; [done|].
  exact (find_shortest_path_same_vertex example_disconnected_graph "C" HC Hfrom).
Defined.

End GraphApiProofs.

(** * Verification of the traveller workflow *)

Module TravellerApiProofs.
Import TravellerApi.

Lemma run_events_app es1 es2 c :
  run_events (es1 ++ es2) c =
  match run_events es1 c with
  | Some c' => run_events es2 c'
  | None => None
  end.
Proof.
  revert c. induction es1 as [|e es1 IH]; intros c; simpl; [done|].
  destruct (exec e c); [apply IH | done].
Qed.

Lemma interrupt_idempotent self : interrupt (interrupt self) = interrupt self.
Proof. done. Qed.

(** Any positive number of interrupts received during the sleep leaves
    the same state as a single one. *)
Lemma interrupts_absorbed (n : nat) self :
  run_events (repeat Interrupt n) (Sleeping, interrupt self) =
  Some (Sleeping, interrupt self).
Proof. induction n as [|n IH]; [done | exact IH]. Qed.

Lemma interrupts_coalesce (n : nat) self :
  run_events (repeat Interrupt (S n)) (Sleeping, self) =
  Some (Sleeping, interrupt self).
Proof. exact (interrupts_absorbed n self). Qed.

(** C7.  A traveller is asleep between two turns of its loop ([Sleeping]);
    [n >= 1] interrupts arrive before the timer fires, and the loop has a
    next turn ([route_index + 1 < len(route)]).  Then the interrupts leave
    the same state as a single one; the next turn does not move the
    traveller but calls [fetch_route] from [current_node] to [end_node];
    when the route [r] arrives the workflow is back at the loop test with
    [route = r], [route_index = 0], the interrupt flag cleared and
    [current_node] unchanged; and the turn after that does not replan. *)
Theorem interrupt_replans_at_next_step (n : nat) self r :
  (0 < n)%nat →
  (S (route_index self) < length (route self))%nat →
  let walking :=
    {| current_node := current_node self; end_node := end_node self;
       route := route self; route_index := S (route_index self);
       status := status self; workflow_id := workflow_id self;
       interrupted := true |} in
  let replanned :=
    {| current_node := current_node self; end_node := end_node self;
       route := r; route_index := 0;
       status := status self; workflow_id := workflow_id self;
       interrupted := false |} in
  run_events (repeat Interrupt n) (Sleeping, self) =
    run_events [Interrupt] (Sleeping, self) ∧
  run_events (repeat Interrupt n ++ [TimerFired; Resume]) (Sleeping, self) =
    Some (FetchingTraffic Replan, walking) ∧
  run_events (repeat Interrupt n ++ [TimerFired; Resume; TrafficModelFetched])
    (Sleeping, self) =
    Some (FetchingRoute Replan (current_node self) (end_node self), walking) ∧
  run_events
    (repeat Interrupt n
       ++ [TimerFired; Resume; TrafficModelFetched; RouteFetched r])
    (Sleeping, self) = Some (LoopHead, replanned) ∧
  fst (loop_turn replanned) ≠ FetchingTraffic Replan.
Proof.
  intros Hn Hlen walking replanned. destruct n as [|n]; [lia|].
  rewrite !run_events_app, interrupts_coalesce.
  assert (Hturn : loop_turn walking = (FetchingTraffic Replan, walking)).
  { unfold loop_turn. simpl.
    by rewrite (proj2 (Nat.ltb_lt _ _) Hlen). }
  split; [done|]. cbn [run_events exec interrupt]. simpl.
  fold walking. rewrite Hturn. simpl.
  repeat split; try done.
  unfold loop_turn. simpl. destruct (0 <? length r)%nat; [|done].
  destruct (r !! 0%nat); [|done]. simpl. by destruct (String.eqb _ _).
Qed.

Lemma interrupt_replans_at_next_step_witness :
  let self :=
    {| current_node := "A"; end_node := "C"; route := ["A"; "B"; "C"];
       route_index := 0; status := "Walking"; workflow_id := "traveller-1";
       interrupted := false |} in
  (0 < 2)%nat ∧ (S (route_index self) < length (route self))%nat ∧
  run_events
    ([Interrupt; Interrupt]
       ++ [TimerFired; Resume; TrafficModelFetched; RouteFetched ["A"; "D"; "C"]])
    (Sleeping, self) =
  Some (LoopHead,
        {| current_node := "A"; end_node := "C"; route := ["A"; "D"; "C"];
           route_index := 0; status := "Walking"; workflow_id := "traveller-1";
           interrupted := false |}).
Proof.
  intros self.
  assert (H0 : (0 < 2)%nat) by lia.
  assert (H1 : (S (route_index self) < length (route self))%nat)
    by (simpl; lia).
  split; [done|]. split; [done|].
  exact (proj1 (proj2 (proj2 (proj2
    (interrupt_replans_at_next_step 2 self ["A"; "D"; "C"] H0 H1))))).
Defined.

(** An interrupt that arrives while the new route is being fetched is
    cleared together with the one being served. *)
Example interrupt_during_replan_is_dropped :
  run_events [Interrupt; RouteFetched ["B"; "C"]; Resume]
    (FetchingRoute Replan "A" "C",
     {| current_node := "A"; end_node := "C"; route := ["A"; "B"; "C"];
        route_index := 1; status := "Walking"; workflow_id := "traveller-1";
        interrupted := true |}) =
  Some (Sleeping,
        {| current_node := "B"; end_node := "C"; route := ["B"; "C"];
           route_index := 0; status := "Walking"; workflow_id := "traveller-1";
           interrupted := false |}).
Proof. reflexivity. Qed.

(** When the sleep was the last one of the route, the loop is left and a
    pending interrupt is never served. *)
Example interrupt_at_end_of_route :
  run_events [Interrupt; TimerFired; Resume]
    (Sleeping,
     {| current_node := "B"; end_node := "C"; route := ["A"; "B"];
        route_index := 1; status := "Walking"; workflow_id := "traveller-1";
        interrupted := false |}) =
  Some (Completed
          {| TravellerState.workflow_id := "traveller-1";
             TravellerState.current_node := "B";
             TravellerState.end_node := "C";
             TravellerState.route := ["A"; "B"];
             TravellerState.route_index := 2;
             TravellerState.status := "Walking" |},
        {| current_node := "B"; end_node := "C"; route := ["A"; "B"];
           route_index := 2; status := "Walking"; workflow_id := "traveller-1";
           interrupted := true |}).
Proof. reflexivity. Qed.

(** ** The status of a traveller *)

(** What every state reached from [__init__] satisfies. *)
Definition status_ok (c : point * TravellerWorkflow) : Prop :=
  (status (snd c) = "Walking" ∨ status (snd c) = "Finished") ∧
  (status (snd c) = "Finished" →
     fst c = Completed (get_state (snd c)) ∧
     current_node (snd c) = end_node (snd c)).

Lemma status_ok_exec e c c' :
  status_ok c → exec e c = Some c' →
  status_ok c' ∧
  (status (snd c') = status (snd c) ∨
   status (snd c) = "Walking" ∧ status (snd c') = "Finished" ∧
   e = Resume ∧ fst c = LoopHead ∧
   current_node (snd c') = end_node (snd c') ∧
   fst c' = Completed (get_state (snd c'))).
Proof.
  destruct c as [p self], c' as [p' self']. intros [Hst Hfin] Hexec.
  assert (Hw : status self = "Walking").
  { destruct Hst as [?|Hf]; [done|]. destruct (Hfin Hf) as [Hp _].
    simpl in Hp. subst p. by destruct e. }
  clear Hst Hfin. unfold status_ok. simpl in *.
  destruct e, p; simpl in Hexec; try discriminate;
    try (injection Hexec as <- <-; simpl; rewrite Hw;
         (split; [split; [by left | done] | by left])).
  unfold loop_turn in Hexec.
  destruct (route_index self <? length (route self))%nat.
  2: { injection Hexec as <- <-. rewrite Hw.
       split; [split; [by left | done] | by left]. }
  destruct (interrupted self).
  { injection Hexec as <- <-. rewrite Hw.
    split; [split; [by left | done] | by left]. }
  destruct (route self !! route_index self) as [next|].
  2: { injection Hexec as <- <-. rewrite Hw.
       split; [split; [by left | done] | by left]. }
  simpl in Hexec. destruct (String.eqb next (end_node self)) eqn:Heq.
  - apply String.eqb_eq in Heq. injection Hexec as <- <-. simpl.
    split; [split; [by right | done] | right; by rewrite Hw].
  - injection Hexec as <- <-. simpl. rewrite Hw.
    split; [split; [by left | done] | by left].
Qed.

Lemma status_ok_run es : ∀ c c',
  status_ok c → run_events es c = Some c' → status_ok c'.
Proof.
  induction es as [|e es IH]; intros c c' Hc; simpl.
  - by intros [= <-].
  - destruct (exec e c) as [c1|] eqn:He; [|done].
    apply IH. by destruct (status_ok_exec e c c1 Hc He).
Qed.

Lemma status_ok_init : status_ok (NotStarted, __init__).
Proof. split; simpl; [by left | done]. Qed.

(** C8 as stated fails at the start: a workflow begins in status
    "Walking", not "Planning". *)
Lemma initial_status_is_not_planning :
  status __init__ = "Walking" ∧ status __init__ ≠ "Planning".
Proof. split; [reflexivity | discriminate]. Qed.

(** C8, amended.  A traveller workflow begins in status "Walking".  In
    every state it reaches its status is "Walking" or "Finished" (never
    "Planning": routes are computed while the status is "Walking").  The
    status changes only from "Walking" to "Finished", in a loop turn that
    moved the traveller onto [end_node], and that turn completes the
    workflow; a completed workflow takes no further step. *)
Theorem status_walking_then_finished es p self :
  run_events es (NotStarted, __init__) = Some (p, self) →
  status __init__ = "Walking" ∧
  (status self = "Walking" ∨ status self = "Finished") ∧
  status self ≠ "Planning" ∧
  (status self = "Finished" →
     p = Completed (get_state self) ∧ current_node self = end_node self ∧
     ∀ e, exec e (p, self) = None) ∧
  (∀ e p' self', exec e (p, self) = Some (p', self') →
     status self' = status self ∨
     status self = "Walking" ∧ status self' = "Finished" ∧
     e = Resume ∧ p = LoopHead ∧ current_node self' = end_node self' ∧
     p' = Completed (get_state self')).
Proof.
  intros Hrun.
  pose proof (status_ok_run es _ _ status_ok_init Hrun) as Hok.
  destruct Hok as [Hst Hfin]. simpl in *.
  split; [done|]. split; [done|]. split; [by destruct Hst as [->| ->]|]. split.
  - intros Hf. destruct (Hfin Hf) as [-> Hc]. split; [done|]. split; [done|].
    by intros [].
  - intros e p' self' He.
    by destruct (status_ok_exec e (p, self) (p', self') (conj Hst Hfin) He)
      as [_ H].
Qed.

Lemma status_walking_then_finished_witness :
  let input :=
    {| TravellerInput.start_node := "A"; TravellerInput.end_node := "B";
       TravellerInput.workflow_id := "traveller-1" |} in
  let es :=
    [Run input; TrafficModelFetched; RouteFetched ["A"; "B"];
     Resume; TimerFired; Resume] in
  let self :=
    {| current_node := "B"; end_node := "B"; route := ["A"; "B"];
       route_index := 1; status := "Finished"; workflow_id := "traveller-1";
       interrupted := false |} in
  run_events es (NotStarted, __init__) = Some (Completed (get_state self), self) ∧
  (status self = "Walking" ∨ status self = "Finished") ∧
  status self ≠ "Planning".
Proof.
  intros input es self.
  assert (Hrun : run_events es (NotStarted, __init__)
                 = Some (Completed (get_state self), self)) by reflexivity.
  split; [exact Hrun|].
  pose proof (status_walking_then_finished es _ self Hrun) as (_ & H1 & H2 & _).
  by split.
Defined.

End TravellerApiProofs.

(** * Verification of the traffic generator *)

Module TrafficApiProofs.
Import Py PyProofs TrafficApi.
Local Open Scope Q_scope.

(** ** Clamping *)

Lemma float_min_le a b : float_min a b <= a ∧ float_min a b <= b.
Proof.
  unfold float_min. destruct (Qltb b a) eqn:H.
  - apply Qltb_true in H. lra.
  - apply Qltb_false in H. lra.
Qed.

Lemma float_max_ge a b : a <= float_max a b ∧ b <= float_max a b.
Proof.
  unfold float_max. destruct (Qltb a b) eqn:H.
  - apply Qltb_true in H. lra.
  - apply Qltb_false in H. lra.
Qed.

Lemma float_min_cases a b : float_min a b = a ∨ float_min a b = b.
Proof. unfold float_min. destruct (Qltb b a); auto. Qed.

Lemma float_max_cases a b : float_max a b = a ∨ float_max a b = b.
Proof. unfold float_max. destruct (Qltb a b); auto. Qed.

(** [max(0.0, min(1.0, x))] lies in [0, 1]. *)
Lemma clamp_unit x : 0 <= float_max 0 (float_min 1 x) <= 1.
Proof.
  pose proof (float_max_ge 0 (float_min 1 x)) as [H0 _].
  pose proof (float_min_le 1 x) as [H1 _].
  destruct (float_max_cases 0 (float_min 1 x)) as [Hm | Hm];
    rewrite Hm in *; lra.
Qed.


(** [min(1.0, w + d)] stays in [0, 1] when [w] does and [d >= 0]. *)
Lemma raise_unit w d : 0 <= w <= 1 → 0 <= d → 0 <= float_min 1 (w + d) <= 1.
Proof.
  intros Hw Hd. destruct (float_min_cases 1 (w + d)) as [-> | Hm]; [lra|].
  pose proof (float_min_le 1 (w + d)) as [H1 _]. rewrite Hm in *. lra.
Qed.

(** ** Invariants of methods

    [keeps I c R]: whatever its outcome, [c] leaves the generator in a
    state satisfying [I] when it started in one, and a value it returns
    satisfies [R]. *)
Definition keeps {A} (I : TrafficGenerator → Prop) (c : M A) (R : A → Prop) :
  Prop :=
  ∀ self, I self →
    I (snd (c self)) ∧ ∀ a, fst (c self) = Returned a → R a.

Lemma keeps_ret {A} I (a : A) (R : A → Prop) : R a → keeps I (mret a) R.
Proof. intros Ha self HI. split; [done|]. by intros ? [= <-]. Qed.

Lemma keeps_raise {A} I e (R : A → Prop) : keeps I (raise e) R.
Proof. intros self HI. by split. Qed.

Lemma keeps_bind {A B} I (c : M A) (k : A → M B) R1 R2 :
  keeps I c R1 → (∀ a, R1 a → keeps I (k a) R2) → keeps I (c ≫= k) R2.
Proof.
  intros Hc Hk self HI. destruct (Hc self HI) as [HI1 HR1].
  unfold mbind, M_bind. destruct (c self) as [[a| |] self1]; simpl in *;
    try by split.
  apply (Hk a); [by apply HR1 | done].
Qed.

Lemma keeps_weaken {A} I (c : M A) (R1 R2 : A → Prop) :
  keeps I c R1 → (∀ a, R1 a → R2 a) → keeps I c R2.
Proof.
  intros Hc HR self HI. destruct (Hc self HI) as [HI1 HR1].
  split; [done|]. intros a Ha. by apply HR, HR1.
Qed.

Lemma keeps_get I : keeps I get I.
Proof. intros self HI. split; [done|]. by intros ? [= <-]. Qed.

Lemma keeps_modify I f :
  (∀ self, I self → I (f self)) → keeps I (modify f) (λ _, True).
Proof. intros Hf self HI. split; [by apply Hf | done]. Qed.

Lemma keeps_for_each {A} I (l : list A) (body : A → M unit) :
  (∀ a, keeps I (body a) (λ _, True)) →
  keeps I (for_each l body) (λ _, True).
Proof.
  intros Hb. induction l as [|a l IH]; simpl.
  - by apply keeps_ret.
  - eapply keeps_bind; [apply Hb | done].
Qed.

Lemma keeps_for_each_with {A B} I (l : list A) (body : B → A → M B) (b : B) :
  (∀ b a, keeps I (body b a) (λ _, True)) →
  keeps I (for_each_with l body b) (λ _, True).
Proof.
  intros Hb. revert b. induction l as [|a l IH]; intros b; simpl.
  - by apply keeps_ret.
  - eapply keeps_bind; [apply Hb | done].
Qed.

(** Invariants that only look at the edges. *)
Definition on_edges (P : list Edge.t → Prop) : TrafficGenerator → Prop :=
  λ self, P (edges self).

Lemma keeps_random_random P : keeps (on_edges P) random_random (λ _, True).
Proof. by intros self HI. Qed.

Lemma keeps_random_randint P a b :
  keeps (on_edges P) (random_randint a b) (λ _, True).
Proof. by intros self HI. Qed.

Lemma keeps_random_choice P l :
  keeps (on_edges P) (random_choice l) (λ _, True).
Proof. by intros self HI. Qed.

Lemma keeps_time_ms P : keeps (on_edges P) time_ms (λ _, True).
Proof. by intros self HI. Qed.

Lemma keeps_now_hour P : keeps (on_edges P) now_hour (λ _, True).
Proof. by intros self HI. Qed.

Lemma keeps_uuid4_hex P : keeps (on_edges P) uuid4_hex (λ _, True).
Proof. by intros self HI. Qed.

(** A returned value that does not matter. *)
Lemma keeps_any {A} I (c : M A) R : keeps I c R → keeps I c (λ _, True).
Proof. intros H. by eapply keeps_weaken. Qed.

(** ** The invariant of the edge list

    Weights lie in [0, 1] and the ids are [edge_0], [edge_1], ... in
    order. *)
Definition weight_ok (e : Edge.t) : Prop := 0 <= Edge.weight e <= 1.

Definition edge_name (k : nat) : string := "edge_" +:+ pretty k.

Definition edges_ok (es : list Edge.t) : Prop :=
  Forall weight_ok es ∧ map Edge.id es = map edge_name (seq 0 (length es)).

Lemma edges_ok_nil : edges_ok [].
Proof. by split. Qed.

Lemma edges_ok_snoc es e :
  edges_ok es → weight_ok e → Edge.id e = edge_name (length es) →
  edges_ok (es ++ [e]).
Proof.
  intros [Hw Hid] He Hn. split.
  - apply Forall_app. split; [done | by constructor].
  - rewrite map_app, length_app, seq_app, map_app, Hid. simpl.
    by rewrite Hn.
Qed.

Lemma edges_ok_fmap (f : Edge.t → Edge.t) es :
  (∀ e, Edge.id (f e) = Edge.id e) → (∀ e, weight_ok e → weight_ok (f e)) →
  edges_ok es → edges_ok (map f es).
Proof.
  intros Hid Hw [Hes Hids]. split.
  - apply Forall_fmap. by eapply Forall_impl.
  - rewrite length_map, <- Hids, map_map. by apply map_ext.
Qed.

Lemma map_alter_same {A B} (g : A → B) (f : A → A) (l : list A) :
  (∀ x, g (f x) = g x) → ∀ i : nat, map g (alter f i l) = map g l.
Proof.
  intros H. induction l as [|a l IH]; intros [|i]; simpl; try done.
  - by rewrite H.
  - f_equal. apply IH.
Qed.

Lemma edges_ok_alter (f : Edge.t → Edge.t) (i : nat) es :
  (∀ e, Edge.id (f e) = Edge.id e) → (∀ e, weight_ok e → weight_ok (f e)) →
  edges_ok es → edges_ok (alter f i es).
Proof.
  intros Hid Hw [Hes Hids]. split.
  - apply Forall_alter; [done|]. intros e _. apply Hw.
  - by rewrite length_alter, map_alter_same.
Qed.

(** The invariant of the generator. *)
Definition graph_ok : TrafficGenerator → Prop := on_edges edges_ok.

Lemma keeps_get_any I : keeps I get (λ _, True).
Proof. by intros self HI. Qed.

(** Decomposition of a method into the steps proved so far. *)
Ltac keeps_step :=
  first
    [ apply keeps_ret; done
    | apply keeps_raise
    | apply keeps_get_any
    | apply keeps_random_random
    | apply keeps_random_randint
    | apply keeps_random_choice
    | apply keeps_time_ms
    | apply keeps_now_hour
    | apply keeps_uuid4_hex
    | lazymatch goal with
      | |- keeps _ (_ ≫= _) _ =>
          eapply keeps_bind with (R1 := λ _, True); [|intros ? _]
      | |- keeps _ (if ?b then _ else _) _ => destruct b eqn:?
      | |- keeps _ (match ?x with _ => _ end) _ => destruct x eqn:?
      | |- keeps _ (let '(_, _) := ?x in _) _ => destruct x eqn:?
      end ].

Lemma keeps_update_edge (i : nat) f :
  (∀ e, Edge.id (f e) = Edge.id e) → (∀ e, weight_ok e → weight_ok (f e)) →
  keeps graph_ok (update_edge i f) (λ _, True).
Proof.
  intros Hid Hw. apply keeps_modify. intros self HI.
  by apply edges_ok_alter.
Qed.

(** Generation builds the edge list from nothing by appending edges; an
    invariant [P] of the edge list that holds of [[]] and survives such an
    append holds after generation. *)
Section Generation.
Context (P : list Edge.t → Prop).
Hypothesis P_nil : P [].
Hypothesis P_snoc : ∀ es from to traffic rounded vehicles,
  P es → 0 <= traffic <= 1 →
  P (es ++
     [ {| Edge.id := edge_name (length es); Edge.from := from; Edge.to := to;
          Edge.weight := traffic; Edge.distance := rounded;
          Edge.speed := _calculate_speed traffic;
          Edge.vehicleCount := vehicles; Edge.isIncident := false;
          Edge.incidentSeverity := 0; Edge.bidirectional := true |} ]).

Lemma keeps_generate_random_traffic_gen :
  keeps (on_edges P) _generate_random_traffic (λ t, 0 <= t <= 1).
Proof using Type.
  unfold _generate_random_traffic.
  eapply keeps_bind with (R1 := λ _, True); [keeps_step | intros self _].
  eapply keeps_bind with (R1 := λ _, True); [keeps_step | intros u _].
  apply keeps_ret, clamp_unit.
Qed.

Lemma keeps_append_edge_gen from to d :
  keeps (on_edges P) (append_edge from to d) (λ _, True).
Proof using P_snoc.
  unfold append_edge.
  eapply keeps_bind; [apply keeps_generate_random_traffic_gen | intros t Ht].
  intros self HI. unfold mbind, M_bind. simpl.
  destruct d as [q|]; simpl; [|done]. split; [|done].
  by apply P_snoc.
Qed.

Lemma keeps_ensure_connectivity_gen :
  keeps (on_edges P) _ensure_connectivity (λ _, True).
Proof using P_snoc.
  unfold _ensure_connectivity. repeat keeps_step.
  apply keeps_for_each_with. intros connected_nodes vertex.
  unfold connect_if_isolated. repeat keeps_step.
  apply keeps_append_edge_gen.
Qed.

Lemma keeps_initialize_graph_gen :
  keeps (on_edges P) _initialize_graph (λ _, True).
Proof using P_nil P_snoc.
  unfold _initialize_graph. repeat keeps_step.
  - by apply keeps_modify.
  - apply keeps_for_each. intros i. repeat keeps_step. by apply keeps_modify.
  - apply keeps_modify. intros self _. apply P_nil.
  - apply keeps_for_each_with. intros edge_set [i node_a].
    repeat keeps_step. apply keeps_for_each_with. intros edge_set' [j distance].
    repeat keeps_step. apply keeps_append_edge_gen.
  - apply keeps_ensure_connectivity_gen.
Qed.

End Generation.

Lemma edges_ok_new es from to traffic rounded vehicles :
  edges_ok es → 0 <= traffic <= 1 →
  edges_ok
    (es ++
     [ {| Edge.id := edge_name (length es); Edge.from := from; Edge.to := to;
          Edge.weight := traffic; Edge.distance := rounded;
          Edge.speed := _calculate_speed traffic;
          Edge.vehicleCount := vehicles; Edge.isIncident := false;
          Edge.incidentSeverity := 0; Edge.bidirectional := true |} ]).
Proof. intros Hes Ht. by apply edges_ok_snoc. Qed.

Lemma keeps_initialize_graph : keeps graph_ok _initialize_graph (λ _, True).
Proof.
  apply keeps_initialize_graph_gen; [apply edges_ok_nil | apply edges_ok_new].
Qed.

(** After generation every edge is free of incidents and its speed is the
    one derived from its weight. *)
Definition fresh_edge (e : Edge.t) : Prop :=
  Edge.speed e = _calculate_speed (Edge.weight e) ∧
  Edge.isIncident e = false ∧ Edge.incidentSeverity e = 0.

Lemma edges_fresh_after_generation config w :
  Forall fresh_edge (edges (snd (__init__ config w))).
Proof.
  unfold __init__.
  apply (keeps_initialize_graph_gen (Forall fresh_edge)); simpl.
  - constructor.
  - intros es from to t r v Hes _. apply Forall_app. split; [done|].
    by repeat constructor.
  - constructor.
Qed.

Lemma weight_ok_raise (d : Q) e :
  0 <= d → weight_ok e →
  weight_ok (Edge.set_weight (float_min 1 (Edge.weight e + d)) e).
Proof. intros Hd He. by apply raise_unit. Qed.

Lemma keeps_apply_incident_effect edge_id severity :
  0 <= severity →
  keeps graph_ok (_apply_incident_effect edge_id severity) (λ _, True).
Proof.
  intros Hs. unfold _apply_incident_effect. repeat keeps_step.
  - apply keeps_update_edge; [done|]. intros e He.
    apply weight_ok_raise; [lra | done].
  - apply keeps_modify. intros self HI. apply edges_ok_fmap; [| |done].
    + intros e. by destruct (connected _ e).
    + intros e He. destruct (connected _ e); [|done].
      apply weight_ok_raise; [lra | done].
Qed.

Lemma keeps_type_or_random incident_type :
  keeps graph_ok (type_or_random incident_type) (λ _, True).
Proof.
  unfold type_or_random, _get_random_incident_type. repeat keeps_step.
Qed.

Lemma keeps_create_incident edge_id severity duration incident_type :
  keeps graph_ok (create_incident edge_id severity duration incident_type)
        (λ _, True).
Proof.
  unfold create_incident. repeat keeps_step.
  - apply keeps_type_or_random.
  - apply keeps_type_or_random.
  - by apply keeps_modify.
  - by apply keeps_update_edge.
  - apply keeps_apply_incident_effect. simpl. apply clamp_unit.
Qed.

Lemma keeps_reset_edge_of incident :
  keeps graph_ok (reset_edge_of incident) (λ _, True).
Proof.
  unfold reset_edge_of. repeat keeps_step. by apply keeps_update_edge.
Qed.

Lemma keeps_update_incidents : keeps graph_ok _update_incidents (λ _, True).
Proof.
  unfold _update_incidents. repeat keeps_step.
  - apply keeps_for_each_with. intros acc incident. repeat keeps_step.
    apply keeps_reset_edge_of.
  - apply keeps_for_each. intros incident. by apply keeps_modify.
Qed.

Lemma keeps_clear_incident incident_id :
  keeps graph_ok (clear_incident incident_id) (λ _, True).
Proof.
  unfold clear_incident. repeat keeps_step.
  - apply keeps_reset_edge_of.
  - by apply keeps_modify.
Qed.

Lemma keeps_update_edge_traffic m (i : nat) :
  keeps graph_ok (update_edge_traffic m i) (λ _, True).
Proof.
  unfold update_edge_traffic. repeat keeps_step.
  - apply keeps_update_edge; [done|]. intros e _. apply clamp_unit.
  - by apply keeps_update_edge.
  - by apply keeps_update_edge.
  - apply keeps_create_incident.
Qed.

Lemma keeps_update_traffic : keeps graph_ok _update_traffic (λ _, True).
Proof.
  unfold _update_traffic, update_all_edges. repeat keeps_step.
  - by apply keeps_modify.
  - apply keeps_for_each. intros i. apply keeps_update_edge_traffic.
  - apply keeps_update_incidents.
Qed.

Lemma keeps_update_config new_config :
  keeps graph_ok (update_config new_config) (λ _, True).
Proof.
  unfold update_config. repeat keeps_step;
    try (by apply keeps_modify); apply keeps_initialize_graph.
Qed.

Lemma keeps_perform op : keeps graph_ok (perform op) (λ _, True).
Proof.
  destruct op; simpl; repeat keeps_step.
  - apply keeps_update_traffic.
  - apply keeps_create_incident.
  - apply keeps_clear_incident.
  - apply keeps_update_config.
Qed.

Lemma graph_ok_init config w : graph_ok (snd (__init__ config w)).
Proof.
  unfold __init__. apply keeps_initialize_graph. apply edges_ok_nil.
Qed.

Lemma graph_ok_perform_all ops : ∀ self,
  graph_ok self → graph_ok (perform_all ops self).
Proof.
  induction ops as [|op ops IH]; intros self HI; [done|].
  apply IH. by apply keeps_perform.
Qed.

(** The state of any generator a client can observe. *)
Lemma graph_ok_reachable config w ops :
  graph_ok (perform_all ops (snd (__init__ config w))).
Proof. apply graph_ok_perform_all, graph_ok_init. Qed.

(** C3.  Whatever the configuration, the random draws, the clock and the
    sequence of ticks, incident creations, incident clears and
    configuration updates (which regenerate the graph), every edge of the
    generator has its weight in [0, 1]: initially ([ops = []]) and after
    every operation. *)
Theorem weights_stay_in_unit_interval config w ops :
  Forall (λ e, 0 <= Edge.weight e <= 1)
         (edges (perform_all ops (snd (__init__ config w)))).
Proof. by destruct (graph_ok_reachable config w ops) as [Hw _]. Qed.

(** The edge ids of a generator are pairwise distinct. *)
Lemma edge_name_inj : Inj (=) (=) edge_name.
Proof.
  intros a b H. unfold edge_name in H.
  apply (inj pretty). by apply (inj (String.append "edge_")).
Qed.

Lemma edges_ok_NoDup es : edges_ok es → NoDup (map Edge.id es).
Proof.
  intros [_ ->]. apply (NoDup_fmap_2 edge_name). apply NoDup_seq.
Qed.

Lemma edge_ids_distinct config w ops :
  NoDup (map Edge.id (edges (perform_all ops (snd (__init__ config w))))).
Proof. apply edges_ok_NoDup, graph_ok_reachable. Qed.

(** ** Looking an edge up by id *)

Lemma find_edge_ext edge_id es : ∀ es',
  map Edge.id es = map Edge.id es' →
  find_edge edge_id es = find_edge edge_id es'.
Proof.
  induction es as [|e es IH]; intros [|e' es']; simpl; try done.
  intros [= He Hes]. rewrite He. destruct (String.eqb _ _); [done|].
  by rewrite (IH es' Hes).
Qed.

Lemma find_edge_Some edge_id es : ∀ i : nat,
  find_edge edge_id es = Some i →
  ∃ e, es !! i = Some e ∧ Edge.id e = edge_id.
Proof.
  induction es as [|e es IH]; intros i; simpl; [done|].
  destruct (String.eqb (Edge.id e) edge_id) eqn:Heq.
  - intros [= <-]. exists e. split; [done|]. by apply String.eqb_eq.
  - destruct (find_edge edge_id es) as [k|]; simpl; [|done].
    intros [= <-]. by apply IH.
Qed.

Lemma find_edge_None edge_id es :
  find_edge edge_id es = None → ¬ In edge_id (map Edge.id es).
Proof.
  induction es as [|e es IH]; simpl; [tauto|].
  destruct (String.eqb (Edge.id e) edge_id) eqn:Heq; [done|].
  apply String.eqb_neq in Heq.
  destruct (find_edge edge_id es); simpl; [done|]. intros _ [?|?]; [done|].
  by apply IH.
Qed.

Lemma find_edge_NoDup es : ∀ (i : nat) e,
  NoDup (map Edge.id es) → es !! i = Some e →
  find_edge (Edge.id e) es = Some i.
Proof.
  induction es as [|e0 es IH]; intros [|i] e Hnd Hi; simpl in *; try done.
  - injection Hi as ->. by rewrite String.eqb_refl.
  - apply NoDup_cons in Hnd as [Hnin Hnd].
    destruct (String.eqb (Edge.id e0) (Edge.id e)) eqn:Heq.
    + apply String.eqb_eq in Heq. exfalso. apply Hnin. rewrite Heq.
      apply list_elem_of_In, in_map, list_elem_of_In.
      by eapply list_elem_of_lookup_2.
    + by rewrite (IH i e).
Qed.

(** ** Methods that always return

    [total P c Q]: started in a state satisfying [P], [c] returns a value
    [a] and leaves a state satisfying [Q a]. *)
Definition total {A} (P : TrafficGenerator → Prop) (c : M A)
    (Q : A → TrafficGenerator → Prop) : Prop :=
  ∀ self, P self → ∃ a self', c self = (Returned a, self') ∧ Q a self'.

Lemma total_ret {A} (P : TrafficGenerator → Prop) (a : A) Q :
  (∀ self, P self → Q a self) → total P (mret a) Q.
Proof. intros H self HP. exists a, self. split; [done | by apply H]. Qed.

Lemma total_bind {A B} P (c : M A) (k : A → M B) R Q :
  total P c R → (∀ a, total (R a) (k a) Q) → total P (c ≫= k) Q.
Proof.
  intros Hc Hk self HP. destruct (Hc self HP) as (a & self1 & Hrun & HR).
  destruct (Hk a self1 HR) as (b & self2 & Hrun2 & HQ).
  exists b, self2. split; [|done]. unfold mbind, M_bind. by rewrite Hrun.
Qed.

Lemma total_get P : total P get (λ a self, a = self ∧ P self).
Proof. intros self HP. by exists self, self. Qed.

Lemma total_modify (P : TrafficGenerator → Prop) f Q :
  (∀ self, P self → Q tt (f self)) → total P (modify f) Q.
Proof. intros H self HP. exists tt, (f self). split; [done | by apply H]. Qed.

Lemma total_conseq {A} (P P' : TrafficGenerator → Prop) (c : M A)
    (Q Q' : A → TrafficGenerator → Prop) :
  total P c Q → (∀ self, P' self → P self) →
  (∀ a self, Q a self → Q' a self) → total P' c Q'.
Proof.
  intros Hc HP HQ self HP'. destruct (Hc self (HP _ HP')) as (a & s' & ? & ?).
  exists a, s'. split; [done | by apply HQ].
Qed.

(** A fact that follows from the precondition may be used. *)
Lemma total_assume {A} (P : TrafficGenerator → Prop) (φ : Prop) (c : M A) Q :
  (∀ self, P self → φ) → (φ → total P c Q) → total P c Q.
Proof. intros Hφ Hc self HP. by apply Hc; [eapply Hφ|]. Qed.

Lemma total_for_each {A} I (l : list A) (body : A → M unit) :
  (∀ a, In a l → total I (body a) (λ _, I)) →
  total I (for_each l body) (λ _, I).
Proof.
  induction l as [|a l IH]; intros Hb; simpl.
  - by apply total_ret.
  - eapply total_bind; [apply Hb; by left|]. intros [].
    apply IH. intros a' Ha'. apply Hb. by right.
Qed.

(** Methods that only read the environment. *)
Definition reads_world {A} (c : M A) : Prop :=
  ∀ self, ∃ a w, c self = (Returned a, set_world w self).

Definition world_free (P : TrafficGenerator → Prop) : Prop :=
  ∀ w self, P self → P (set_world w self).

Lemma total_reads_world {A} (c : M A) P :
  reads_world c → world_free P → total P c (λ _, P).
Proof.
  intros Hc HP self Hself. destruct (Hc self) as (a & w & ->).
  exists a, (set_world w self). split; [done | by apply HP].
Qed.

Lemma reads_world_ret {A} (a : A) : reads_world (mret a).
Proof. intros self. exists a, (world self). by destruct self. Qed.

Lemma reads_world_bind {A B} (c : M A) (k : A → M B) :
  reads_world c → (∀ a, reads_world (k a)) → reads_world (c ≫= k).
Proof.
  intros Hc Hk self. destruct (Hc self) as (a & w & Hrun).
  destruct (Hk a (set_world w self)) as (b & w' & Hrun').
  exists b, w'. unfold mbind, M_bind. by rewrite Hrun, Hrun'.
Qed.

Lemma reads_world_random_random : reads_world random_random.
Proof. intros self. by eexists _, _. Qed.

Lemma reads_world_random_randint a b : reads_world (random_randint a b).
Proof. intros self. by eexists _, _. Qed.

Lemma reads_world_random_choice l : reads_world (random_choice l).
Proof. intros self. by eexists _, _. Qed.

Lemma reads_world_time_ms : reads_world time_ms.
Proof. intros self. by eexists _, _. Qed.

Lemma reads_world_now_hour : reads_world now_hour.
Proof. intros self. by eexists _, _. Qed.

Lemma reads_world_uuid4_hex : reads_world uuid4_hex.
Proof. intros self. by eexists _, _. Qed.

Lemma reads_world_type_or_random incident_type :
  reads_world (type_or_random incident_type).
Proof.
  unfold type_or_random, _get_random_incident_type.
  destruct incident_type as [t|]; [destruct (String.eqb t "")|];
    first [apply reads_world_random_choice | apply reads_world_ret].
Qed.

Lemma bind_reads_world {A B} (c : M A) (k : A → M B) self :
  reads_world c → ∃ a w, (c ≫= k) self = k a (set_world w self).
Proof.
  intros Hc. destruct (Hc self) as (a & w & Hrun). exists a, w.
  unfold mbind, M_bind. by rewrite Hrun.
Qed.

(** Runs the first step of the method in the goal, which reads the
    environment only. *)
Ltac read_world H :=
  match goal with
  | |- context [ @mbind M _ ?A ?B ?k ?c ?st ] =>
      let a := fresh "a" in
      let w := fresh "w" in
      destruct (@bind_reads_world A B c k st H) as (a & w & ->)
  end.

(** ** Creating an incident *)

(** [w := min(1.0, w + d)] on one edge. *)
Definition raise_weight (d : Q) (e : Edge.t) : Edge.t :=
  Edge.set_weight (float_min 1 (Edge.weight e + d)) e.

(** The edge list after an incident of severity [s] on the edge at
    position [i]. *)
Definition incident_effect (i : nat) (s : Q) (es : list Edge.t) :
  list Edge.t :=
  let es2 :=
    alter (raise_weight (s * (8 # 10))) i
      (alter (Edge.set_incident true s) i es) in
  match es2 !! i with
  | Some edge =>
      map (λ connected_edge,
             if connected edge connected_edge
             then raise_weight (s * (5 # 10)) connected_edge
             else connected_edge) es2
  | None => es2
  end.

Lemma create_incident_run edge_id severity duration incident_type self
    (i : nat) edge :
  find_edge edge_id (edges self) = Some i →
  edges self !! i = Some edge → Edge.isIncident edge = false →
  ∃ incident w,
    create_incident edge_id severity duration incident_type self =
      (Returned incident,
       {| config := config self; vertices := vertices self;
          edges :=
            incident_effect i (float_max 0 (float_min 1 severity))
                            (edges self);
          incidents := incidents self ++ [incident];
          update_count := update_count self; world := w |}) ∧
    Incident.severity incident = float_max 0 (float_min 1 severity) ∧
    Incident.edgeId incident = edge_id.
Proof.
  intros Hfind Hi Hflag. unfold create_incident.
  unfold mbind at 1, M_bind at 1, get at 1. rewrite Hfind, Hi, Hflag.
  read_world reads_world_time_ms. read_world reads_world_uuid4_hex.
  read_world reads_world_time_ms. read_world reads_world_time_ms.
  read_world (reads_world_type_or_random incident_type).
  read_world (reads_world_type_or_random incident_type).
  eexists _, _. split.
  { unfold _apply_incident_effect, update_edge, modify, get, mret, M_ret,
      mbind, M_bind. cbn [edges set_world set_incidents set_edges
                          Incident.severity fst snd].
    rewrite (find_edge_ext edge_id _ (edges self)), Hfind
      by (by apply map_alter_same).
    unfold incident_effect, raise_weight. cbn [edges set_world set_incidents
      set_edges config vertices incidents update_count world].
    destruct (alter _ i (alter _ i (edges self)) !! i); reflexivity. }
  by split.
Qed.

(** The adjacency test of [_apply_incident_effect] between two different
    edges: they share an end point. *)
Definition shares_endpoint (edge e : Edge.t) : bool :=
  String.eqb (Edge.from e) (Edge.from edge) ||
  String.eqb (Edge.from e) (Edge.to edge) ||
  String.eqb (Edge.to e) (Edge.from edge) ||
  String.eqb (Edge.to e) (Edge.to edge).

Lemma lookup_same_id es (i j : nat) (e e' : Edge.t) :
  NoDup (map Edge.id es) → es !! i = Some e → es !! j = Some e' →
  Edge.id e = Edge.id e' → i = j.
Proof.
  intros Hnd Hi Hj Hid.
  apply (NoDup_lookup (Edge.id <$> es) i j (Edge.id e)); [done| |].
  - by rewrite list_lookup_fmap, Hi.
  - by rewrite list_lookup_fmap, Hj, Hid.
Qed.



(** ** A tick *)

Lemma total_read_bind {A B} (c : M A) (k : A → M B) P Q :
  reads_world c → world_free P → (∀ a, total P (k a) Q) →
  total P (c ≫= k) Q.
Proof.
  intros Hc HP Hk. eapply total_bind; [by apply total_reads_world|].
  apply Hk.
Qed.

Lemma total_modify_bind {B} f (k : unit → M B)
    (P P' : TrafficGenerator → Prop) Q :
  (∀ self, P self → P' (f self)) → total P' (k tt) Q →
  total P (modify f ≫= k) Q.
Proof.
  intros Hf Hk. apply total_bind with (R := λ _, P').
  - by apply total_modify.
  - by intros [].
Qed.

Lemma total_get_bind {B} (k : TrafficGenerator → M B)
    (P : TrafficGenerator → Prop) Q :
  (∀ self0, P self0 → total (λ self, self = self0) (k self0) Q) →
  total P (get ≫= k) Q.
Proof.
  intros Hk self HP. destruct (Hk self HP self eq_refl) as (b & s' & Hr & HQ).
  by exists b, s'.
Qed.

Lemma incident_effect_ids (i : nat) s es :
  map Edge.id (incident_effect i s es) = map Edge.id es.
Proof.
  unfold incident_effect. destruct (_ !! i).
  - rewrite List.map_map. erewrite map_ext; [by rewrite !map_alter_same|].
    intros e. by destruct (connected _ e).
  - by rewrite !map_alter_same.
Qed.

(** What the edge loop of a tick maintains: the ids of the edges, and the
    incidents that were there. *)
Definition tick_inv (ids : list string) (inc0 : list Incident.t) :
  TrafficGenerator → Prop :=
  λ self, map Edge.id (edges self) = ids ∧
          ∃ extra, incidents self = inc0 ++ extra.

(** The same, with the flag and the id of the edge at position [i]. *)
Definition at_edge (ids : list string) (inc0 : list Incident.t) (i : nat)
    (edge_id : string) (flag : bool) : TrafficGenerator → Prop :=
  λ self, tick_inv ids inc0 self ∧
          ∃ e, edges self !! i = Some e ∧ Edge.id e = edge_id ∧
               Edge.isIncident e = flag.

Lemma world_free_tick_inv ids inc0 : world_free (tick_inv ids inc0).
Proof. by intros w self H. Qed.

Lemma world_free_at_edge ids inc0 i edge_id flag :
  world_free (at_edge ids inc0 i edge_id flag).
Proof. by intros w self H. Qed.

Lemma at_edge_update ids inc0 (i : nat) edge_id flag f self :
  (∀ e, Edge.id (f e) = Edge.id e) →
  (∀ e, Edge.isIncident (f e) = Edge.isIncident e) →
  at_edge ids inc0 i edge_id flag self →
  at_edge ids inc0 i edge_id flag
    (set_edges (alter f i (edges self)) self).
Proof.
  intros Hid Hfl [[Hids Hinc] (e & He & Heid & Hefl)]. split; [split|]; simpl.
  - by rewrite map_alter_same.
  - done.
  - exists (f e). rewrite list_lookup_alter_eq, He. simpl.
    by rewrite Hid, Hfl.
Qed.

Lemma total_create_incident ids inc0 (i : nat) edge_id severity duration
    incident_type :
  NoDup ids →
  total (at_edge ids inc0 i edge_id false)
        (create_incident edge_id severity duration incident_type)
        (λ _, tick_inv ids inc0).
Proof.
  intros Hnd self [[Hids (extra & Hinc)] (e & He & Heid & Hefl)].
  destruct (create_incident_run edge_id severity duration incident_type
              self i e) as (incident & w & Hrun & _); [|done|done|].
  { rewrite <- Heid. apply find_edge_NoDup; [by rewrite Hids | done]. }
  eexists _, _. split; [exact Hrun|]. split; simpl.
  - by rewrite incident_effect_ids.
  - exists (extra ++ [incident]). by rewrite Hinc, <- app_assoc.
Qed.

Lemma total_update_edge_traffic ids inc0 m (i : nat) :
  NoDup ids →
  total (tick_inv ids inc0) (update_edge_traffic m i)
        (λ _, tick_inv ids inc0).
Proof.
  intros Hnd. unfold update_edge_traffic.
  apply total_get_bind. intros self0 H0.
  destruct (edges self0 !! i) as [edge|] eqn:Hedge.
  2: { apply total_ret. by intros ? ->. }
  eapply total_conseq with
    (P := at_edge ids inc0 i (Edge.id edge) (Edge.isIncident edge))
    (Q := λ _, tick_inv ids inc0); [|intros ? ->; split; eauto|done].
  apply total_read_bind;
    [apply reads_world_random_random | apply world_free_at_edge | intros u1].
  apply total_read_bind;
    [apply reads_world_random_random | apply world_free_at_edge | intros u2].
  apply total_read_bind; [|apply world_free_at_edge | intros new_traffic].
  { destruct (Qltb u2 _); [|apply reads_world_ret].
    apply reads_world_bind; [apply reads_world_random_random|].
    intros ?. apply reads_world_ret. }
  unfold update_edge.
  eapply total_modify_bind; [intros ?; by apply at_edge_update|].
  eapply total_modify_bind; [intros ?; by apply at_edge_update|].
  apply total_read_bind;
    [apply reads_world_random_randint | apply world_free_at_edge | intros r].
  eapply total_modify_bind; [intros ?; by apply at_edge_update|].
  destruct (Edge.isIncident edge) eqn:Hflag.
  { apply total_ret. by intros ? [? _]. }
  apply total_get_bind. intros self1 H1.
  eapply total_conseq with (P := at_edge ids inc0 i (Edge.id edge) false)
    (Q := λ _, tick_inv ids inc0); [|by intros ? ->|done].
  apply total_read_bind;
    [apply reads_world_random_random | apply world_free_at_edge | intros u3].
  destruct (Qltb u3 _).
  2: { apply total_ret. by intros ? [? _]. }
  apply total_read_bind;
    [apply reads_world_random_random | apply world_free_at_edge | intros u4].
  apply total_read_bind;
    [apply reads_world_random_random | apply world_free_at_edge | intros u5].
  eapply total_bind; [by apply total_create_incident|].
  intros incident. by apply total_ret.
Qed.

Lemma update_all_edges_run self :
  NoDup (map Edge.id (edges self)) →
  ∃ mid extra,
    update_all_edges self = (Returned tt, mid) ∧
    map Edge.id (edges mid) = map Edge.id (edges self) ∧
    incidents mid = incidents self ++ extra.
Proof.
  intros Hnd.
  assert (Ht : total (tick_inv (map Edge.id (edges self)) (incidents self))
                 update_all_edges
                 (λ _, tick_inv (map Edge.id (edges self)) (incidents self))).
  { unfold update_all_edges.
    apply total_modify_bind
      with (P' := tick_inv (map Edge.id (edges self)) (incidents self));
      [by intros ? ?|].
    apply total_read_bind;
      [apply reads_world_now_hour | apply world_free_tick_inv | intros hour].
    apply total_get_bind. intros self0 H0.
    eapply total_conseq with (Q := λ _, tick_inv _ _);
      [|by intros ? ->|done].
    apply total_for_each. intros i _. by apply total_update_edge_traffic. }
  destruct (Ht self) as ([] & mid & Hrun & Hids & extra & Hinc).
  { split; [done|]. exists []. by rewrite app_nil_r. }
  by exists mid, extra.
Qed.

(** ** Expiry of incidents *)

Definition expired (now : Z) (incident : Incident.t) : bool :=
  (Incident.endTime incident <=? now)%Z.

(** The flags of the edge at position [k] are reset. *)
Definition cleared (es : list Edge.t) (k : nat) : Prop :=
  ∃ e, es !! k = Some e ∧
       Edge.isIncident e = false ∧ Edge.incidentSeverity e = 0.

Lemma set_edges_same self : set_edges (edges self) self = self.
Proof. by destruct self. Qed.

Lemma reset_edge_of_run incident self :
  ∃ es', reset_edge_of incident self = (Returned tt, set_edges es' self) ∧
    map Edge.id es' = map Edge.id (edges self) ∧
    (∀ k, cleared (edges self) k → cleared es' k) ∧
    (∀ k, find_edge (Incident.edgeId incident) (edges self) = Some k →
          cleared es' k).
Proof.
  unfold reset_edge_of, mbind, M_bind, get, update_edge, modify.
  destruct (find_edge _ (edges self)) as [i|] eqn:Hfind.
  - eexists. split; [done|]. split; [by apply map_alter_same|]. split.
    + intros k (e & He & Hf & Hs). unfold cleared.
      rewrite list_lookup_alter. destruct (decide (i = k)) as [->|].
      * rewrite He. simpl. eauto.
      * eauto.
    + intros k [= <-]. destruct (find_edge_Some _ _ _ Hfind) as (e & He & _).
      exists (Edge.set_incident false 0 e).
      by rewrite list_lookup_alter_eq, He.
  - exists (edges self). rewrite set_edges_same. by repeat split.
Qed.

Lemma expire_scan now l : ∀ acc self,
  ∃ es',
    for_each_with l
      (λ incidents_to_remove incident,
         if (Incident.endTime incident <=? now)%Z
         then reset_edge_of incident;;
              mret (incidents_to_remove ++ [incident])
         else mret incidents_to_remove)
      acc self
    = (Returned (acc ++ List.filter (expired now) l), set_edges es' self) ∧
    map Edge.id es' = map Edge.id (edges self) ∧
    (∀ k, cleared (edges self) k → cleared es' k) ∧
    (∀ incident k, In incident l → expired now incident = true →
       find_edge (Incident.edgeId incident) (edges self) = Some k →
       cleared es' k).
Proof.
  induction l as [|incident l IH]; intros acc self; simpl.
  - exists (edges self). rewrite set_edges_same, app_nil_r.
    by repeat split.
  - unfold expired at 1.
    destruct (Incident.endTime incident <=? now)%Z eqn:Hexp.
    + destruct (reset_edge_of_run incident self)
        as (es1 & Hr & Hids1 & Hkeep1 & Hnew1).
      destruct (IH (acc ++ [incident]) (set_edges es1 self))
        as (es' & Hrun & Hids & Hkeep & Hnew).
      exists es'. split; [|split; [|split]].
      * unfold mbind, M_bind in *. rewrite Hr. unfold mret, M_ret in *.
        rewrite Hrun. by rewrite <- app_assoc.
      * simpl in Hids. congruence.
      * intros k Hk. apply Hkeep. simpl. by apply Hkeep1.
      * intros inc k [<-|Hin] He Hf.
        -- apply Hkeep. simpl. by apply Hnew1.
        -- apply (Hnew inc k Hin He). simpl.
           by rewrite (find_edge_ext _ es1 (edges self)).
    + destruct (IH acc self) as (es' & Hrun & Hids & Hkeep & Hnew).
      exists es'. split; [|split; [done|split; [done|]]].
      * unfold mbind, M_bind, mret, M_ret in *. by rewrite Hrun.
      * intros inc k [<-|Hin] He Hf; [|by eapply Hnew].
        unfold expired in He. congruence.
Qed.

Lemma Incident_eqb_refl a : Incident.eqb a a = true.
Proof.
  unfold Incident.eqb.
  rewrite !String.eqb_refl, !Z.eqb_refl. simpl.
  rewrite !andb_true_r. apply Qeq_bool_iff. reflexivity.
Qed.

Lemma Incident_eqb_endTime a b :
  Incident.eqb a b = true → Incident.endTime a = Incident.endTime b.
Proof.
  unfold Incident.eqb. rewrite !andb_true_iff.
  intros [[[_ H] _] _]. by apply Z.eqb_eq.
Qed.

Lemma remove_loop (R : list Incident.t) : ∀ self,
  for_each R
    (λ incident,
       modify (λ self,
         set_incidents (list_remove incident (incidents self)) self)) self
  = (Returned tt,
     set_incidents
       (foldl (λ l incident, list_remove incident l) (incidents self) R)
       self).
Proof.
  induction R as [|r R IH]; intros self; simpl.
  - by destruct self.
  - unfold mbind, M_bind, modify. rewrite IH. by destruct self.
Qed.

Lemma remove_all_skip (a : Incident.t) (R : list Incident.t) : ∀ X,
  (∀ r, In r R → Incident.eqb a r = false) →
  foldl (λ l incident, list_remove incident l) (a :: X) R =
  a :: foldl (λ l incident, list_remove incident l) X R.
Proof.
  induction R as [|r R IH]; intros X HR; simpl; [done|].
  rewrite (HR r) by by left. apply IH. intros r' Hr'. apply HR. by right.
Qed.

(** Removing the expired incidents one by one leaves exactly those that
    have not expired. *)
Lemma remove_expired now (l : list Incident.t) :
  foldl (λ l incident, list_remove incident l) l (List.filter (expired now) l)
  = List.filter (λ incident, negb (expired now incident)) l.
Proof.
  induction l as [|a l IH]; simpl; [done|].
  destruct (expired now a) eqn:Ha; simpl.
  - by rewrite Incident_eqb_refl.
  - rewrite remove_all_skip; [by rewrite IH|].
    intros r Hr%filter_In. destruct Hr as [_ Hr].
    destruct (Incident.eqb a r) eqn:Heq; [|done].
    apply Incident_eqb_endTime in Heq. unfold expired in *. congruence.
Qed.

Lemma update_incidents_run self :
  let now := clock_ms (world self) 0 in
  ∃ es' w,
    _update_incidents self =
      (Returned tt,
       {| config := config self; vertices := vertices self; edges := es';
          incidents :=
            List.filter (λ incident, negb (expired now incident))
                        (incidents self);
          update_count := update_count self; world := w |}) ∧
    map Edge.id es' = map Edge.id (edges self) ∧
    (∀ incident k, In incident (incidents self) →
       expired now incident = true →
       find_edge (Incident.edgeId incident) (edges self) = Some k →
       cleared es' k).
Proof.
  intros now. unfold _update_incidents.
  unfold mbind at 1, M_bind at 1, time_ms at 1. fold now.
  unfold mbind at 1, M_bind at 1, get at 1.
  unfold mbind at 1, M_bind at 1.
  match goal with
  | |- context [ for_each_with ?l ?body ?acc ?st ] =>
      destruct (expire_scan now l acc st) as (es' & Hrun & Hids & _ & Hnew)
  end.
  simpl in Hrun. simpl. rewrite Hrun. rewrite remove_loop. simpl.
  rewrite remove_expired. eexists es', _. split; [done|]. by split.
Qed.

(** C6.  A tick on a generator (whose edge ids are distinct, as they
    always are: [edge_ids_distinct]) returns.  Let [now] be the time the
    tick reads when it comes to the incidents, after its edge loop.  Every
    incident left afterwards ends later than [now].  Every incident that
    was there before the tick or was created by its edge loop, and whose
    [endTime] is at most [now], is gone, and the edge it names, when
    there is one, has [isIncident = False] and [incidentSeverity = 0]. *)
Theorem expired_incidents_are_cleared self :
  NoDup (map Edge.id (edges self)) →
  ∃ mid extra self',
    update_all_edges self = (Returned tt, mid) ∧
    incidents mid = incidents self ++ extra ∧
    _update_traffic self = (Returned tt, self') ∧
    let now := clock_ms (world mid) 0 in
    (∀ incident, In incident (incidents self') →
       (now < Incident.endTime incident)%Z) ∧
    (∀ incident, In incident (incidents self ++ extra) →
       (Incident.endTime incident <= now)%Z →
       ¬ In incident (incidents self') ∧
       ∀ k, find_edge (Incident.edgeId incident) (edges self') = Some k →
         ∃ e, edges self' !! k = Some e ∧
              Edge.isIncident e = false ∧ Edge.incidentSeverity e = 0).
Proof.
  intros Hnd.
  destruct (update_all_edges_run self Hnd) as (mid & extra & Hmid & Hids & Hinc).
  destruct (update_incidents_run mid) as (es' & w & Hrun & Hids' & Hclr).
  eexists mid, extra, _. split; [done|]. split; [done|]. split.
  { unfold _update_traffic, mbind, M_bind. rewrite Hmid. exact Hrun. }
  simpl. assert (Hleft : ∀ incident,
    In incident (List.filter
                   (λ incident, negb (expired (clock_ms (world mid) 0) incident))
                   (incidents mid)) →
    (clock_ms (world mid) 0 < Incident.endTime incident)%Z).
  { intros incident [_ H]%filter_In. unfold expired in H.
    apply negb_true_iff, Z.leb_gt in H. lia. }
  split; [done|]. intros incident Hin Hend. split.
  - intros Hin'. apply Hleft in Hin'. lia.
  - intros k Hk. apply (Hclr incident k).
    + by rewrite Hinc.
    + unfold expired. by apply Z.leb_le.
    + by rewrite <- (find_edge_ext _ es' (edges mid)).
Qed.

(** ** The connectivity repair pass *)

Lemma elem_of_foldl_endpoints x es : ∀ acc : gset string,
  x ∈ foldl (λ acc edge, {[Edge.to edge]} ∪ ({[Edge.from edge]} ∪ acc)) acc es
  ↔ x ∈ acc ∨ ∃ e, In e es ∧ (Edge.from e = x ∨ Edge.to e = x).
Proof.
  induction es as [|e es IH]; intros acc; simpl.
  - split; [by left | by intros [?|(? & [] & _)]].
  - rewrite IH, !elem_of_union, !elem_of_singleton. split.
    + intros [[->|[->|?]]|(e' & ? & ?)]; eauto 6.
    + intros [?|(e' & [<-|?] & [<-|<-])]; eauto 6.
Qed.

Lemma elem_of_endpoints x es :
  x ∈ endpoints es ↔ ∃ e, In e es ∧ (Edge.from e = x ∨ Edge.to e = x).
Proof.
  unfold endpoints. rewrite elem_of_foldl_endpoints, elem_of_empty. tauto.
Qed.

Lemma nearest_connected_found w (cn : gset string) vertex vs :
  (∃ v0, In v0 vs ∧ Vertex.id v0 ∈ cn) →
  ∃ n d, nearest_connected w cn vertex vs = (Some n, Fin d) ∧
         Vertex.id n ∈ cn.
Proof.
  unfold nearest_connected.
  assert (Hgood : ∀ vs (acc : option Vertex.t * float),
    (∃ n d, acc = (Some n, Fin d) ∧ Vertex.id n ∈ cn) →
    ∃ n d,
      foldl (λ '(nearest, min_dist) other,
               if decide (Vertex.id other ∈ cn)
               then
                 let dist := euclidean w vertex other in
                 if float_ltb (Fin dist) min_dist
                 then (Some other, Fin dist)
                 else (nearest, min_dist)
               else (nearest, min_dist)) acc vs = (Some n, Fin d) ∧
      Vertex.id n ∈ cn).
  { clear vs. induction vs as [|v vs IH]; intros acc Hacc; [done|].
    simpl. apply IH. destruct Hacc as (n & d & -> & Hn).
    destruct (decide (Vertex.id v ∈ cn)); [|eauto]. simpl.
    destruct (Qltb _ d); eauto. }
  assert (Hany : ∀ vs (acc : option Vertex.t * float),
    (acc = (None, Inf) ∨ ∃ n d, acc = (Some n, Fin d) ∧ Vertex.id n ∈ cn) →
    (∃ v0, In v0 vs ∧ Vertex.id v0 ∈ cn) →
    ∃ n d,
      foldl (λ '(nearest, min_dist) other,
               if decide (Vertex.id other ∈ cn)
               then
                 let dist := euclidean w vertex other in
                 if float_ltb (Fin dist) min_dist
                 then (Some other, Fin dist)
                 else (nearest, min_dist)
               else (nearest, min_dist)) acc vs = (Some n, Fin d) ∧
      Vertex.id n ∈ cn).
  { clear vs. induction vs as [|v vs IH]; intros acc Hacc (v0 & Hin & Hv0);
      [destruct Hin|].
    simpl. destruct (decide (Vertex.id v ∈ cn)) as [Hv|Hv].
    - apply Hgood.
      destruct Hacc as [->|(n & d & -> & Hn)]; rewrite decide_True by done;
        simpl; [eauto|].
      destruct (Qltb _ d); eauto.
    - destruct acc as [nearest min_dist]. rewrite decide_False by done.
      apply IH; [done|]. destruct Hin as [->|Hin]; [done | eauto]. }
  intros Hv0. apply Hany; [by left | done].
Qed.

Lemma append_edge_run from to d self :
  ∃ e w,
    append_edge from to (Fin d) self =
      (Returned tt,
       {| config := config self; vertices := vertices self;
          edges := edges self ++ [e]; incidents := incidents self;
          update_count := update_count self; world := w |}) ∧
    Edge.from e = from ∧ Edge.to e = to.
Proof.
  unfold append_edge, _generate_random_traffic, round_tenth, random_randint,
    random_random, mbind, M_bind, get, modify, mret, M_ret. simpl.
  eexists _, _. split; [reflexivity | by split].
Qed.

Lemma endpoints_snoc es e :
  endpoints (es ++ [e]) = {[Edge.to e]} ∪ ({[Edge.from e]} ∪ endpoints es).
Proof. unfold endpoints. by rewrite foldl_app. Qed.

(** The loop of the repair pass: when some vertex is connected, every
    vertex met is connected afterwards, and [connected_nodes] stays the set
    of end points of the edges. *)
Lemma repair_loop (V l : list Vertex.t) : ∀ (cn : gset string) self,
  vertices self = V → cn = endpoints (edges self) →
  (∃ v0, In v0 V ∧ Vertex.id v0 ∈ cn) →
  ∃ cn' self',
    for_each_with l connect_if_isolated cn self = (Returned cn', self') ∧
    vertices self' = V ∧ cn' = endpoints (edges self') ∧
    cn ⊆ cn' ∧ ∀ v, In v l → Vertex.id v ∈ cn'.
Proof.
  induction l as [|v l IH]; intros cn self HV Hcn Hv0; simpl.
  - exists cn, self. by repeat split.
  - assert (Hstep : ∃ cn1 self1,
      connect_if_isolated cn v self = (Returned cn1, self1) ∧
      vertices self1 = V ∧ cn1 = endpoints (edges self1) ∧
      cn ⊆ cn1 ∧ Vertex.id v ∈ cn1).
    { unfold connect_if_isolated.
      destruct (decide (Vertex.id v ∈ cn)) as [Hv|Hv].
      { exists cn, self. by repeat split. }
      unfold mbind at 1, M_bind at 1, get at 1.
      destruct (nearest_connected_found (world self) cn v (vertices self))
        as (n & d & -> & Hn); [by rewrite HV|].
      destruct (append_edge_run (Vertex.id v) (Vertex.id n) d self)
        as (e & w & Hrun & Hfrom & Hto).
      unfold mbind, M_bind. rewrite Hrun. eexists _, _.
      split; [reflexivity|]. simpl. split; [done|].
      rewrite endpoints_snoc, Hfrom, Hto, <- Hcn.
      split; [|split].
      - apply set_eq. intros x.
        rewrite !elem_of_union, !elem_of_singleton. split; [tauto|].
        intros [->|?]; tauto.
      - apply union_subseteq_r.
      - apply elem_of_union_l. by apply elem_of_singleton. }
    destruct Hstep as (cn1 & self1 & Hrun1 & HV1 & Hcn1 & Hsub1 & Hv1).
    destruct (IH cn1 self1 HV1 Hcn1) as (cn' & self' & Hrun & HV' & Hcn' & Hsub & Hl).
    { destruct Hv0 as (v0 & ? & ?). exists v0. split; [done|]. by apply Hsub1. }
    exists cn', self'. unfold mbind, M_bind. rewrite Hrun1.
    split; [done|]. split; [done|]. split; [done|].
    split; [by etrans|]. intros v' [<-|Hv']; [by apply Hsub | by apply Hl].
Qed.

(** When some vertex is an end point of an edge, the repair pass returns
    and leaves every vertex with an edge.  (When no vertex is, it changes
    nothing: see [generation_can_leave_vertices_isolated].) *)
Lemma ensure_connectivity_repairs self :
  (∃ v0, In v0 (vertices self) ∧ Vertex.id v0 ∈ endpoints (edges self)) →
  ∃ self',
    _ensure_connectivity self = (Returned tt, self') ∧
    vertices self' = vertices self ∧
    ∀ v, In v (vertices self') →
      ∃ e, In e (edges self') ∧
           (Edge.from e = Vertex.id v ∨ Edge.to e = Vertex.id v).
Proof.
  intros Hv0. unfold _ensure_connectivity.
  unfold mbind at 1, M_bind at 1, get at 1.
  destruct (repair_loop (vertices self) (vertices self)
              (endpoints (edges self)) self eq_refl eq_refl Hv0)
    as (cn' & self' & Hrun & HV & Hcn & _ & Hall).
  exists self'. unfold mbind, M_bind. rewrite Hrun.
  split; [done|]. split; [done|]. intros v Hv. rewrite HV in Hv.
  apply elem_of_endpoints. rewrite <- Hcn. by apply Hall.
Qed.


(** ** Examples *)

(** In the examples an integer square root stands for [math.sqrt]; it is
    exact at the distance that occurs (300, 400, 500). *)
Definition example_sqrt (q : Q) : Q := inject_Z (Z.sqrt (Qfloor q)).

(** A world whose random draws are the listed ones and then [rest] for
    ever, at noon, where each reading of the clock comes 20 s after the
    one before. *)
Definition example_world (draws : list Q) (rest : Q) : World :=
  {| math_sqrt := example_sqrt;
     random_draws := λ n, nth n draws rest;
     clock_ms := λ n, (1000 + 20000 * Z.of_nat n)%Z;
     clock_hour := λ _, 12%Z;
     uuid_hex := λ _, "0123456789abcdef0123456789abcdef" |}.

(** [{'node_count': 2}] *)
Definition two_nodes : PartialConfig :=
  {| new_node_count := Some 2%Z; new_update_interval := None;
     new_base_traffic_level := None; new_traffic_variability := None;
     new_incident_probability := None; new_road_density := None |}.

(** Two nodes at (50, 50) and (350, 450) joined by one edge of weight
    0.15; the draw [t] decides the weight of the edge. *)
Definition one_road (t : Q) : TrafficGenerator :=
  snd (__init__ (Some two_nodes)
         (example_world [0; 0; 3 # 8; 4 # 5; 0; 0; t; 1 # 2] (9 # 10))).

Example one_road_edges :
  map (λ e, (Edge.id e, Edge.from e, Edge.to e, Qred (Edge.weight e),
             Edge.distance e, Edge.speed e))
      (edges (one_road (1 # 2)))
  = [("edge_0", "node_0", "node_1", 3 # 20, 50%Z, 52%Z)].
Proof. vm_compute. reflexivity. Qed.

Lemma expired_incidents_are_cleared_witness :
  let self :=
    perform_all [CreateIncident "edge_0" (1 # 2) 10000 None] (one_road (1 # 2)) in
  NoDup (map Edge.id (edges self)) ∧
  length (incidents self) = 1%nat ∧
  ∃ mid extra self',
    update_all_edges self = (Returned tt, mid) ∧
    incidents mid = incidents self ++ extra ∧
    _update_traffic self = (Returned tt, self') ∧
    let now := clock_ms (world mid) 0 in
    (∀ incident, In incident (incidents self') →
       (now < Incident.endTime incident)%Z) ∧
    (∀ incident, In incident (incidents self ++ extra) →
       (Incident.endTime incident <= now)%Z →
       ¬ In incident (incidents self') ∧
       ∀ k, find_edge (Incident.edgeId incident) (edges self') = Some k →
         ∃ e, edges self' !! k = Some e ∧
              Edge.isIncident e = false ∧ Edge.incidentSeverity e = 0).
Proof.
  intros self.
  assert (Hnd : NoDup (map Edge.id (edges self))).
  { vm_compute. apply NoDup_singleton. }
  split; [exact Hnd|]. split; [reflexivity|].
  exact (expired_incidents_are_cleared self Hnd).
Defined.

(** An incident created at 21 s for 10 s has ended when the next tick
    reads the clock at 61 s. *)
Example tick_expires_incident :
  let self :=
    perform_all [CreateIncident "edge_0" (1 # 2) 10000 None] (one_road (1 # 2)) in
  map (λ i, (Incident.edgeId i, Incident.startTime i, Incident.endTime i))
      (incidents self) = [("edge_0", 21000%Z, 51000%Z)] ∧
  map Edge.isIncident (edges self) = [true] ∧
  incidents (perform_all [Tick] self) = [] ∧
  map (λ e, (Edge.isIncident e, Edge.incidentSeverity e))
      (edges (perform_all [Tick] self)) = [(false, 0)].
Proof. vm_compute. by repeat split. Qed.



(** C5 fails after an incident: [_apply_incident_effect] raises the
    weight and leaves [speed] as it was.  Here the edge has weight 0.15
    and speed 52 = round(60 - 55 * 0.15); after an incident of severity
    0.5 its weight is 0.55, for which the speed would be 30, and its speed
    is still 52. *)
Theorem incident_leaves_speed_stale :
  let self := one_road (1 # 2) in
  let self' := snd (create_incident "edge_0" (1 # 2) 60000 None self) in
  map (λ e, (Qred (Edge.weight e), Edge.speed e,
             _calculate_speed (Edge.weight e))) (edges self)
    = [(3 # 20, 52%Z, 52%Z)] ∧
  map (λ e, (Qred (Edge.weight e), Edge.speed e,
             _calculate_speed (Edge.weight e))) (edges self')
    = [(11 # 20, 52%Z, 30%Z)].
Proof. vm_compute. by split. Qed.

(** C9 fails when the density draws reject every candidate edge: with
    two nodes, the default road density 0.3 and every draw equal to 0.9
    (not below 0.3 + 0.5), generation returns a graph without any edge.
    The repair pass finds no connected vertex to attach to, and both
    vertices stay isolated. *)
Theorem generation_can_leave_vertices_isolated (sqrt : Q → Q) :
  let w :=
    {| math_sqrt := sqrt; random_draws := λ _, 9 # 10;
       clock_ms := λ _, 0%Z; clock_hour := λ _, 12%Z;
       uuid_hex := λ _, "" |} in
  let self := __init__ (Some two_nodes) w in
  fst self = Returned tt ∧
  map Vertex.id (vertices (snd self)) = ["node_0"; "node_1"] ∧
  edges (snd self) = [] ∧
  road_density (config (snd self)) == 3 # 10.
Proof. vm_compute. by repeat split. Qed.

(** With a single node there is no other vertex to connect to: either
    the graph has no edge, or the node is joined to itself, for which
    the distance is infinite and [round] raises. *)
Example generation_with_one_node :
  let one_node :=
    {| new_node_count := Some 1%Z; new_update_interval := None;
       new_base_traffic_level := None; new_traffic_variability := None;
       new_incident_probability := None; new_road_density := None |} in
  (let self := __init__ (Some one_node) (example_world [] (9 # 10)) in
   fst self = Returned tt ∧ edges (snd self) = []) ∧
  (let self := __init__ (Some one_node) (example_world [] 0) in
   fst self = Raised OverflowError ∧ edges (snd self) = []).
Proof. vm_compute. by repeat split. Qed.

End TrafficApiProofs.

(** * Further properties of the shortest-path service and its route *)

Module GraphApiProperties.
Import Py PyProofs GraphApi GraphApiProofs.

(** A success comes with both end points among the vertices. *)
Lemma success_has_vertices g start_id end_id r :
  find_shortest_path g start_id end_id = Returned r → success r = true →
  has_vertex g start_id ∧ has_vertex g end_id.
Proof.
  intros Hr Hs.
  destruct (in_dec string_dec start_id (map id (vertices g))) as [Hstart|Hstart].
  2: { unfold find_shortest_path in Hr.
       rewrite dict_of_vertices_None in Hr by done.
       injection Hr as <-. discriminate. }
  destruct (in_dec string_dec end_id (map id (vertices g))) as [Hend|Hend];
    [done|].
  unfold find_shortest_path in Hr.
  destruct (dict_of_vertices_Some (λ v, v) g start_id Hstart) as (? & _ & _ & Hv).
  rewrite Hv, dict_of_vertices_None in Hr by done.
  injection Hr as <-. discriminate.
Qed.

(** The shortest walk found, with the vertices listed for it; it passes
    through no vertex twice. *)
Lemma find_shortest_path_found g start_id end_id r :
  Graph_valid g → find_shortest_path g start_id end_id = Returned r →
  success r = true →
  ∃ es q,
    r = found (vertex_ids start_id es) (path_vertices r) q ∧
    walk g start_id end_id es ∧ cost es = Fin q ∧
    (∀ es', walk g start_id end_id es' → float_le (Fin q) (cost es')) ∧
    map id (path_vertices r) = vertex_ids start_id es ∧
    (∀ v, In v (path_vertices r) → In v (vertices g)) ∧
    NoDup (vertex_ids start_id es) ∧
    lookup_all (dict_of_vertices (λ v, v) (vertices g))
      (vertex_ids start_id es) = Returned (path_vertices r).
Proof.
  intros Hvalid Hr Hs.
  destruct (success_has_vertices g start_id end_id r Hr Hs) as [Hstart Hend].
  destruct (find_shortest_path_cases g start_id end_id Hvalid Hstart Hend)
    as [(es & q & pv & Hr' & H)|[Hr' _]]; rewrite Hr' in Hr;
    injection Hr as <-; [|discriminate].
  by exists es, q.
Qed.

(** Walks compose. *)
Lemma walk_app g a b c es1 es2 :
  walk g a b es1 → walk g b c es2 → walk g a c (es1 ++ es2).
Proof.
  induction 1 as [a|a b e es He Hf Hw IH]; intros H2; simpl; [done|].
  econstructor; eauto.
Qed.

(** A walk of a graph is a walk of any graph with more edges. *)
Lemma walk_mono g g' a b es :
  (∀ e, In e (edges g) → In e (edges g')) →
  walk g a b es → walk g' a b es.
Proof.
  intros Hsub. induction 1 as [a|a b e es He Hf Hw IH]; [constructor|].
  econstructor; eauto.
Qed.

Lemma has_vertex_same g g' v :
  vertices g' = vertices g → has_vertex g v → has_vertex g' v.
Proof. unfold has_vertex. by intros ->. Qed.

(** X1.  On a graph of the data model, a success response lists in
    [vertices] one vertex of the graph for each id of [path], in the same
    order; its distance is finite and its message reports that distance. *)
Theorem path_vertices_follow_path g start_id end_id r :
  Graph_valid g →
  find_shortest_path g start_id end_id = Returned r → success r = true →
  map id (path_vertices r) = path r ∧
  length (path_vertices r) = length (path r) ∧
  (∀ v, In v (path_vertices r) → In v (vertices g)) ∧
  (∃ q, total_distance r = Fin q) ∧
  message r = FoundShortestPath (total_distance r).
Proof.
  intros Hvalid Hr Hs.
  destruct (find_shortest_path_found g start_id end_id r Hvalid Hr Hs)
    as (es & q & Hfound & _ & _ & _ & Hmap & Hin & _ & _).
  assert (Hpath : path r = vertex_ids start_id es) by by rewrite Hfound.
  split; [congruence|]. split.
  { by rewrite Hpath, <- Hmap, length_map. }
  split; [done|]. split; [exists q; by rewrite Hfound|]. by rewrite Hfound.
Qed.

Lemma path_vertices_follow_path_witness :
  Graph_valid example_simple_graph ∧
  ∃ r, find_shortest_path example_simple_graph "A" "F" = Returned r ∧
    success r = true ∧ map id (path_vertices r) = path r.
Proof.
  split; [apply example_simple_graph_valid|].
  assert (H : ∃ r, find_shortest_path example_simple_graph "A" "F" = Returned r ∧
                   success r = true).
  { eexists. split; [vm_compute; reflexivity | reflexivity]. }
  destruct H as (r & Hr & Hs). exists r. split; [exact Hr|]. split; [exact Hs|].
  exact (proj1 (path_vertices_follow_path example_simple_graph "A" "F" r
                  example_simple_graph_valid Hr Hs)).
Defined.

(** X2.  On a graph of the data model, the path of a success response
    passes through no vertex twice, so it has at most as many entries as
    the graph has vertices. *)
Theorem path_is_simple g start_id end_id r :
  Graph_valid g →
  find_shortest_path g start_id end_id = Returned r → success r = true →
  NoDup (path r) ∧ (length (path r) ≤ length (vertices g))%nat.
Proof.
  intros Hvalid Hr Hs.
  destruct (find_shortest_path_found g start_id end_id r Hvalid Hr Hs)
    as (es & q & Hfound & _ & _ & _ & Hmap & Hin & Hnd & _).
  assert (Hpath : path r = vertex_ids start_id es) by by rewrite Hfound.
  rewrite Hpath. split; [done|].
  rewrite <- (length_map id (vertices g)).
  apply submseteq_length, NoDup_submseteq; [done|].
  intros x Hx. rewrite <- Hmap in Hx.
  apply list_elem_of_In, in_map_iff in Hx as (v & <- & Hv).
  apply list_elem_of_In, in_map. by apply Hin.
Qed.

Lemma path_is_simple_witness :
  Graph_valid example_simple_graph ∧
  ∃ r, find_shortest_path example_simple_graph "A" "F" = Returned r ∧
    success r = true ∧
    NoDup (path r) ∧
    (length (path r) ≤ length (vertices example_simple_graph))%nat.
Proof.
  split; [apply example_simple_graph_valid|].
  assert (H : ∃ r, find_shortest_path example_simple_graph "A" "F" = Returned r ∧
                   success r = true).
  { eexists. split; [vm_compute; reflexivity | reflexivity]. }
  destruct H as (r & Hr & Hs). exists r. split; [exact Hr|]. split; [exact Hs|].
  exact (path_is_simple example_simple_graph "A" "F" r
           example_simple_graph_valid Hr Hs).
Defined.

(** The vertex kept for an id by [{v.id: v for v in graph.vertices}] is the
    last one of the list with that id. *)
Lemma foldl_vertices_last u vs : ∀ acc : gmap string Vertex,
  foldl (λ m v, <[id v := v]> m) acc vs !! u =
  match last (List.filter (λ v, String.eqb (id v) u) vs) with
  | Some v => Some v
  | None => acc !! u
  end.
Proof.
  induction vs as [|v0 vs IH]; intros acc; simpl; [done|].
  rewrite IH. destruct (String.eqb (id v0) u) eqn:Heq.
  - apply String.eqb_eq in Heq. simpl.
    destruct (List.filter _ vs) as [|v1 l] eqn:Hf; simpl.
    + by rewrite Heq, lookup_insert_eq.
    + by destruct (last (v1 :: l)) eqn:Hl;
        [|apply last_None in Hl; discriminate].
  - apply String.eqb_neq in Heq.
    destruct (last _); [done|]. by rewrite lookup_insert_ne.
Qed.

Lemma lookup_all_lookup (vertex_map : gmap string Vertex) l : ∀ pv,
  lookup_all vertex_map l = Returned pv →
  ∀ (i : nat) u v, l !! i = Some u → pv !! i = Some v →
    vertex_map !! u = Some v.
Proof.
  induction l as [|x l IH]; intros pv; simpl.
  - intros _ i u v Hi. by destruct i.
  - destruct (vertex_map !! x) as [vx|] eqn:Hx; [|done].
    destruct (lookup_all vertex_map l) as [pv'| |]; try done.
    intros [= <-] [|i] u v; simpl.
    + by intros [= <-] [= <-].
    + by apply IH.
Qed.

(** X3.  Vertex ids need not be unique in a request.  When several
    vertices of the graph carry the id at some position of the path, the
    response lists the last of them at that position. *)
Theorem path_vertex_is_last_with_id g start_id end_id r (i : nat) u v :
  find_shortest_path g start_id end_id = Returned r → success r = true →
  path r !! i = Some u → path_vertices r !! i = Some v →
  last (List.filter (λ v', String.eqb (id v') u) (vertices g)) = Some v.
Proof.
  intros Hr Hs Hu Hv.
  assert (Hall : lookup_all (dict_of_vertices (λ v, v) (vertices g)) (path r)
                 = Returned (path_vertices r)).
  { unfold find_shortest_path in Hr.
    repeat (case_match; try discriminate); injection Hr as <-;
      try discriminate; done. }
  pose proof (lookup_all_lookup _ _ _ Hall i u v Hu Hv) as Hl.
  unfold dict_of_vertices in Hl. rewrite foldl_vertices_last in Hl.
  destruct (last _); [done|]. by rewrite lookup_empty in Hl.
Qed.

(** A graph in which two vertices carry the id "B". *)
Definition example_duplicate_ids : Graph :=
  {| vertices :=
       [ {| id := "A"; name := "first A" |}; {| id := "B"; name := "first B" |};
         {| id := "B"; name := "second B" |} ];
     edges := [ {| from_vertex := "A"; to_vertex := "B"; weight := Fin 1 |} ] |}.

Lemma path_vertex_is_last_with_id_witness :
  ∃ r, find_shortest_path example_duplicate_ids "A" "B" = Returned r ∧
    success r = true ∧ path r !! 1%nat = Some "B" ∧
    path_vertices r !! 1%nat = Some {| id := "B"; name := "second B" |} ∧
    last (List.filter (λ v', String.eqb (id v') "B")
            (vertices example_duplicate_ids))
      = Some {| id := "B"; name := "second B" |}.
Proof.
  assert (H : ∃ r, find_shortest_path example_duplicate_ids "A" "B" = Returned r ∧
                   success r = true ∧ path r !! 1%nat = Some "B" ∧
                   path_vertices r !! 1%nat
                     = Some {| id := "B"; name := "second B" |}).
  { eexists. split; [vm_compute; reflexivity|]. by repeat split. }
  destruct H as (r & Hr & Hs & Hu & Hv). exists r.
  split; [exact Hr|]. split; [exact Hs|]. split; [exact Hu|].
  split; [exact Hv|].
  exact (path_vertex_is_last_with_id example_duplicate_ids "A" "B" r 1 "B" _
           Hr Hs Hu Hv).
Defined.

(** An edge whose source is not a vertex stops the construction of the
    adjacency lists. *)
Lemma build_adjacency_dangling es :
  ∀ acc : gmap string (list (string * float)),
  (∃ e, In e es ∧ acc !! from_vertex e = None) →
  ∃ x, build_adjacency es acc = Raised (KeyError x) ∧ acc !! x = None ∧
       ∃ e, In e es ∧ from_vertex e = x.
Proof.
  induction es as [|e0 es IH]; intros acc (e & Hin & Hnone); [destruct Hin|].
  simpl. destruct (acc !! from_vertex e0) as [l|] eqn:H0.
  - destruct Hin as [->|Hin]; [congruence|].
    destruct (IH (<[from_vertex e0 := l ++ [(to_vertex e0, weight e0)]]> acc))
      as (x & Hr & Hx & e' & He' & Hfrom).
    { exists e. split; [done|]. rewrite lookup_insert_ne; [done|].
      intros Heq. congruence. }
    exists x. split; [done|]. split.
    + destruct (decide (from_vertex e0 = x)) as [Heq|Hne].
      * rewrite Heq, lookup_insert_eq in Hx. discriminate.
      * by rewrite lookup_insert_ne in Hx.
    + exists e'. split; [by right | done].
  - exists (from_vertex e0). split; [done|]. split; [done|].
    exists e0. split; [by left | done].
Qed.

(** X4.  The service does not check that edges leave existing vertices.
    When [start_id] and [end_id] are vertices and some edge has a source
    that is not, the call raises [KeyError] on the source of such an
    edge (the first in edge order), whatever the end points asked for. *)
Theorem dangling_source_raises_KeyError g start_id end_id e :
  has_vertex g start_id → has_vertex g end_id →
  In e (edges g) → ¬ has_vertex g (from_vertex e) →
  ∃ x, find_shortest_path g start_id end_id = Raised (KeyError x) ∧
       ¬ has_vertex g x ∧ ∃ e', In e' (edges g) ∧ from_vertex e' = x.
Proof.
  intros Hstart Hend He Hfrom. unfold find_shortest_path.
  destruct (dict_of_vertices_Some (λ v, v) g start_id Hstart) as (? & _ & _ & ->).
  destruct (dict_of_vertices_Some (λ v, v) g end_id Hend) as (? & _ & _ & ->).
  destruct (build_adjacency_dangling (edges g)
              (dict_of_vertices (λ _, []) (vertices g)))
    as (k & -> & Hk & He').
  { exists e. split; [done|]. by apply dict_of_vertices_None. }
  exists k. split; [done|]. split; [|done].
  intros Hv. by rewrite dict_of_vertices_const in Hk.
Qed.

Lemma dangling_source_raises_KeyError_witness :
  let g := example_dangling_edge in
  has_vertex g "A" ∧ has_vertex g "B" ∧
  ∃ x, find_shortest_path g "A" "B" = Raised (KeyError x) ∧ ¬ has_vertex g x.
Proof.
  intros g.
  assert (HA : has_vertex g "A") by (unfold has_vertex; simpl; tauto).
  assert (HB : has_vertex g "B") by (unfold has_vertex; simpl; tauto).
  assert (HX : ¬ has_vertex g "X").
  { unfold has_vertex. simpl. intros [?|[?|[]]]; discriminate. }
  split; [exact HA|]. split; [exact HB|].
  destruct (dangling_source_raises_KeyError g "A" "B"
              {| from_vertex := "X"; to_vertex := "A"; weight := Fin 1 |}
              HA HB (or_intror (or_introl eq_refl)) HX)
    as (x & Hr & Hx & _).
  exists x. split; [exact Hr | exact Hx].
Defined.

(** A walk with an edge is at least as long as its first edge. *)
Lemma cost_ge_first g a b e es :
  Graph_valid g → walk g a b (e :: es) → float_le (weight e) (cost (e :: es)).
Proof.
  intros Hvalid Hw.
  pose proof (walk_valid g Hvalid _ _ _ Hw) as Hes.
  eapply float_le_trans; [|apply (cost_prefix [e] es)].
  - apply (float_add_ge_r (Fin 0)); [by split|].
    apply Edge_valid_nonneg, Hes. by left.
  - intros e' He'. apply Hes. by right.
Qed.

(** X5.  On a graph of the data model the distance of a success is never
    negative, and it is 0 exactly when [start_id] and [end_id] are the
    same vertex. *)
Theorem total_distance_zero_iff_same_vertex g start_id end_id r q :
  Graph_valid g →
  find_shortest_path g start_id end_id = Returned r →
  total_distance r = Fin q →
  (0 <= q)%Q ∧ ((q == 0)%Q ↔ start_id = end_id).
Proof.
  intros Hvalid Hr Hq.
  assert (Hs : success r = true).
  { destruct (success r) eqn:Hs; [done|]. exfalso.
    destruct (failure_is_not_found g start_id end_id r Hr Hs)
      as [-> | [-> | ->]]; discriminate. }
  destruct (find_shortest_path_found g start_id end_id r Hvalid Hr Hs)
    as (es & q' & Hfound & Hw & Hc & Hmin & _).
  assert (q' = q) as -> by (rewrite Hfound in Hq; by injection Hq).
  assert (Hnn : (0 <= q)%Q).
  { pose proof (cost_nonneg es) as Hn. rewrite Hc in Hn. by destruct Hn. }
  split; [done|]. split.
  - intros H0. destruct es as [|e es]; [by inversion Hw|]. exfalso.
    pose proof (cost_ge_first g _ _ _ _ Hvalid Hw) as Hge.
    rewrite Hc in Hge. destruct (Hvalid e) as (_ & _ & He).
    { eapply walk_edges; [done | by left]. }
    unfold Edge_valid in He. destruct (weight e); [|done].
    unfold float_le in Hge. lra.
  - intros <-. pose proof (Hmin [] (walk_nil g start_id)) as Hle.
    unfold cost, float_le in Hle. simpl in Hle. lra.
Qed.

Lemma total_distance_zero_iff_same_vertex_witness :
  Graph_valid example_simple_graph ∧
  ∃ r, find_shortest_path example_simple_graph "A" "F" = Returned r ∧
    total_distance r = Fin 4 ∧ (0 <= 4)%Q ∧ ((4 == 0)%Q ↔ "A" = "F").
Proof.
  split; [apply example_simple_graph_valid|].
  assert (H : ∃ r, find_shortest_path example_simple_graph "A" "F" = Returned r ∧
                   total_distance r = Fin 4).
  { eexists. split; [vm_compute; reflexivity | reflexivity]. }
  destruct H as (r & Hr & Hq). exists r. split; [exact Hr|]. split; [exact Hq|].
  exact (total_distance_zero_iff_same_vertex example_simple_graph "A" "F" r 4
           example_simple_graph_valid Hr Hq).
Defined.

(** A finite distance comes with a success. *)
Lemma finite_distance_success g start_id end_id r q :
  find_shortest_path g start_id end_id = Returned r →
  total_distance r = Fin q → success r = true.
Proof.
  intros Hr Hq. destruct (success r) eqn:Hs; [done|]. exfalso.
  destruct (failure_is_not_found g start_id end_id r Hr Hs)
    as [-> | [-> | ->]]; discriminate.
Qed.

(** The walk behind a finite distance. *)
Lemma finite_distance_walk g start_id end_id r q :
  Graph_valid g →
  find_shortest_path g start_id end_id = Returned r →
  total_distance r = Fin q →
  has_vertex g start_id ∧ has_vertex g end_id ∧
  ∃ es, walk g start_id end_id es ∧ cost es = Fin q ∧
        ∀ es', walk g start_id end_id es' → float_le (Fin q) (cost es').
Proof.
  intros Hvalid Hr Hq.
  pose proof (finite_distance_success g start_id end_id r q Hr Hq) as Hs.
  destruct (success_has_vertices g start_id end_id r Hr Hs) as [Hstart Hend].
  destruct (find_shortest_path_found g start_id end_id r Hvalid Hr Hs)
    as (es & q' & Hfound & Hw & Hc & Hmin & _).
  assert (q' = q) as -> by (rewrite Hfound in Hq; by injection Hq).
  split; [done|]. split; [done|]. by exists es.
Qed.

(** The answer is at most as long as any walk; when some walk has a
    finite length it is a success. *)
Lemma walk_bounds_distance g start_id end_id es :
  Graph_valid g → has_vertex g start_id → has_vertex g end_id →
  walk g start_id end_id es →
  ∃ r, find_shortest_path g start_id end_id = Returned r ∧
       float_le (total_distance r) (cost es) ∧
       (cost es ≠ Inf → success r = true).
Proof.
  intros Hvalid Hstart Hend Hw.
  destruct (find_shortest_path_cases g start_id end_id Hvalid Hstart Hend)
    as [(es0 & q & pv & Hr & _ & _ & Hmin & _)|[Hr Hno]].
  - exists (found (vertex_ids start_id es0) pv q).
    split; [done|]. split; [by apply Hmin | done].
  - exists (not_found (NoPathFound start_id end_id)). split; [done|].
    rewrite (Hno es Hw). by split.
Qed.

(** X6.  Shortest distances compose: when the call from [a] to [b] gives
    a distance and there is a walk from [b] to [c], the call from [a] to
    [c] returns a distance of at most that distance with the weights of
    the walk added to it in order (in double precision), and it is a
    success when that sum is finite. *)
Theorem shortest_distance_extends_along_walk g a b c r1 q1 es2 :
  Graph_valid g →
  find_shortest_path g a b = Returned r1 → total_distance r1 = Fin q1 →
  walk g b c es2 →
  ∃ r3, find_shortest_path g a c = Returned r3 ∧
        float_le (total_distance r3) (add_weights (Fin q1) es2) ∧
        (add_weights (Fin q1) es2 ≠ Inf → success r3 = true).
Proof.
  intros Hvalid Hr1 Hq1 Hw2.
  destruct (finite_distance_walk g a b r1 q1 Hvalid Hr1 Hq1)
    as (Ha & Hb & es1 & Hw1 & Hc1 & _).
  pose proof (walk_has_vertex g Hvalid _ _ _ Hw2 Hb) as Hc.
  destruct (walk_bounds_distance g a c (es1 ++ es2) Hvalid Ha Hc)
    as (r3 & Hr3 & Hle & Hs3); [by eapply walk_app|].
  rewrite cost_app, Hc1 in Hle, Hs3. by exists r3.
Qed.

Lemma shortest_distance_extends_along_walk_witness :
  let es2 := [ {| from_vertex := "E"; to_vertex := "F"; weight := Fin 2 |} ] in
  Graph_valid example_simple_graph ∧
  walk example_simple_graph "E" "F" es2 ∧
  add_weights (Fin 4) es2 = Fin 6 ∧
  ∃ r1,
    find_shortest_path example_simple_graph "A" "E" = Returned r1 ∧
    total_distance r1 = Fin 4 ∧
    ∃ r3, find_shortest_path example_simple_graph "A" "F" = Returned r3 ∧
          float_le (total_distance r3) (add_weights (Fin 4) es2) ∧
          (add_weights (Fin 4) es2 ≠ Inf → success r3 = true).
Proof.
  intros es2.
  assert (Hw : walk example_simple_graph "E" "F" es2).
  { econstructor; [simpl; tauto | reflexivity | constructor]. }
  assert (H1 : ∃ r, find_shortest_path example_simple_graph "A" "E" = Returned r ∧
                    total_distance r = Fin 4).
  { eexists. split; [vm_compute; reflexivity | reflexivity]. }
  split; [apply example_simple_graph_valid|]. split; [exact Hw|].
  split; [vm_compute; reflexivity|].
  destruct H1 as (r1 & Hr1 & Hq1). exists r1.
  split; [exact Hr1|]. split; [exact Hq1|].
  exact (shortest_distance_extends_along_walk example_simple_graph "A" "E" "F"
           r1 4 es2 example_simple_graph_valid Hr1 Hq1 Hw).
Defined.

(** X7.  Adding edges never lengthens a shortest path: when a graph of
    the data model has the same vertices as [g] and at least its edges,
    a distance found in [g] is an upper bound of the distance found in
    it. *)
Theorem adding_edges_never_lengthens g g' start_id end_id r q :
  Graph_valid g → Graph_valid g' →
  vertices g' = vertices g → (∀ e, In e (edges g) → In e (edges g')) →
  find_shortest_path g start_id end_id = Returned r →
  total_distance r = Fin q →
  ∃ r' q', find_shortest_path g' start_id end_id = Returned r' ∧
           success r' = true ∧ total_distance r' = Fin q' ∧ (q' <= q)%Q.
Proof.
  intros Hvalid Hvalid' Hvs Hes Hr Hq.
  destruct (finite_distance_walk g start_id end_id r q Hvalid Hr Hq)
    as (Hstart & Hend & es & Hw & Hc & _).
  destruct (walk_bounds_distance g' start_id end_id es Hvalid')
    as (r' & Hr' & Hle & Hs');
    [by eapply has_vertex_same | by eapply has_vertex_same
    | by eapply walk_mono |].
  rewrite Hc in Hle, Hs'.
  destruct (total_distance r') as [q'|] eqn:Hq'; [|done].
  exists r', q'. split; [done|]. split; [by apply Hs'|]. by split.
Qed.

(** The example graph with a direct edge from A to F of weight 3. *)
Definition example_with_shortcut : Graph :=
  {| vertices := vertices example_simple_graph;
     edges := edges example_simple_graph
              ++ [ {| from_vertex := "A"; to_vertex := "F"; weight := Fin 3 |} ] |}.

Lemma adding_edges_never_lengthens_witness :
  Graph_valid example_simple_graph ∧ Graph_valid example_with_shortcut ∧
  ∃ r, find_shortest_path example_simple_graph "A" "F" = Returned r ∧
    total_distance r = Fin 4 ∧
    ∃ r' q', find_shortest_path example_with_shortcut "A" "F" = Returned r' ∧
             success r' = true ∧ total_distance r' = Fin q' ∧ (q' <= 4)%Q.
Proof.
  assert (Hvalid' : Graph_valid example_with_shortcut).
  { intros e He. simpl in He.
    repeat (destruct He as [<-|He]; [vm_compute; intuition congruence|]).
    destruct He. }
  assert (Hes : ∀ e, In e (edges example_simple_graph) →
                     In e (edges example_with_shortcut)).
  { intros e He. apply in_or_app. by left. }
  split; [apply example_simple_graph_valid|]. split; [exact Hvalid'|].
  assert (H : ∃ r, find_shortest_path example_simple_graph "A" "F" = Returned r ∧
                   total_distance r = Fin 4).
  { eexists. split; [vm_compute; reflexivity | reflexivity]. }
  destruct H as (r & Hr & Hq). exists r. split; [exact Hr|]. split; [exact Hq|].
  exact (adding_edges_never_lengthens example_simple_graph example_with_shortcut
           "A" "F" r 4 example_simple_graph_valid Hvalid' eq_refl Hes Hr Hq).
Defined.

End GraphApiProperties.

(** * The route of the shortest-path service *)

Module GraphRoutesProofs.
Import Py PyProofs GraphApi GraphApiProofs GraphRoutes.



End GraphRoutesProofs.

(** * Further properties of the traveller workflow *)

Module TravellerApiProperties.
Import TravellerApi TravellerApiProofs.

(** ** Walking a route *)

(** [k] turns of the loop that end in a sleep, each followed by the end of
    that sleep. *)
Fixpoint turns (k : nat) : list event :=
  match k with
  | O => []
  | S k' => Resume :: TimerFired :: turns k'
  end.

(** Where the traveller stands after [k] such turns from index [i]. *)
Definition position (cur : string) (r : list string) (i k : nat) : string :=
  match k with
  | O => cur
  | S k' => default cur (r !! (i + k')%nat)
  end.

Lemma turns_run (k : nat) : ∀ (i : nat) cur en r st wid,
  (∀ j : nat, (i ≤ j < i + k)%nat → ∃ x, r !! j = Some x ∧ x ≠ en) →
  run_events (turns k)
    (LoopHead,
     {| current_node := cur; end_node := en; route := r; route_index := i;
        status := st; workflow_id := wid; interrupted := false |}) =
  Some (LoopHead,
        {| current_node := position cur r i k; end_node := en; route := r;
           route_index := (i + k)%nat; status := st; workflow_id := wid;
           interrupted := false |}).
Proof.
  induction k as [|k IH]; intros i cur en r st wid Hr.
  - simpl. by rewrite Nat.add_0_r.
  - destruct (Hr i) as (x & Hx & Hne); [lia|].
    cbn [turns run_events exec]. unfold loop_turn.
    cbn [route_index route interrupted].
    rewrite (proj2 (Nat.ltb_lt _ _) (lookup_lt_Some _ _ _ Hx)), Hx.
    cbn [current_node end_node]. rewrite (proj2 (String.eqb_neq _ _) Hne).
    cbn [exec current_node end_node route route_index status workflow_id
         interrupted].
    rewrite IH by (intros j Hj; apply Hr; lia).
    do 3 f_equal; [|lia].
    destruct k as [|k]; simpl.
    + by rewrite Nat.add_0_r, Hx.
    + destruct (Hr (i + S k)%nat) as (y & Hy & _); [lia|].
      replace (S (i + k)) with (i + S k)%nat by lia. by rewrite Hy.
Qed.

(** The state in which the first loop turn starts. *)
Lemma first_route_run input r :
  run_events [Run input; TrafficModelFetched; RouteFetched r]
    (NotStarted, __init__) =
  Some (LoopHead,
        {| current_node := TravellerInput.start_node input;
           end_node := TravellerInput.end_node input; route := r;
           route_index := 0; status := "Walking";
           workflow_id := TravellerInput.workflow_id input;
           interrupted := false |}).
Proof. reflexivity. Qed.

(** X9.  A traveller that is never interrupted and whose route holds
    [end_node], first at index [k], completes after [k] sleeps: the
    result has status "Finished", [current_node = end_node] and
    [route_index = k]. *)
Theorem uninterrupted_walk_finishes input r (k : nat) :
  r !! k = Some (TravellerInput.end_node input) →
  (∀ (j : nat) x, (j < k)%nat → r !! j = Some x →
     x ≠ TravellerInput.end_node input) →
  run_events
    ([Run input; TrafficModelFetched; RouteFetched r] ++ turns k ++ [Resume])
    (NotStarted, __init__) =
  Some (Completed
          {| TravellerState.workflow_id := TravellerInput.workflow_id input;
             TravellerState.current_node := TravellerInput.end_node input;
             TravellerState.end_node := TravellerInput.end_node input;
             TravellerState.route := r;
             TravellerState.route_index := k;
             TravellerState.status := "Finished" |},
        {| current_node := TravellerInput.end_node input;
           end_node := TravellerInput.end_node input; route := r;
           route_index := k; status := "Finished";
           workflow_id := TravellerInput.workflow_id input;
           interrupted := false |}).
Proof.
  intros Hk Hfirst.
  rewrite run_events_app, first_route_run, run_events_app, turns_run.
  2: { intros j Hj. destruct (lookup_lt_is_Some_2 r j) as [x Hx].
       { apply lookup_lt_Some in Hk. lia. }
       exists x. split; [done|]. apply (Hfirst j); [lia | done]. }
  cbn [run_events exec]. unfold loop_turn.
  cbn [route_index route interrupted Nat.add].
  rewrite (proj2 (Nat.ltb_lt _ _) (lookup_lt_Some _ _ _ Hk)), Hk.
  cbn [current_node end_node]. by rewrite String.eqb_refl.
Qed.

Lemma uninterrupted_walk_finishes_witness :
  let input :=
    {| TravellerInput.start_node := "A"; TravellerInput.end_node := "C";
       TravellerInput.workflow_id := "traveller-1" |} in
  let r := ["A"; "B"; "C"; "D"] in
  r !! 2%nat = Some "C" ∧
  run_events
    ([Run input; TrafficModelFetched; RouteFetched r]
       ++ [Resume; TimerFired; Resume; TimerFired] ++ [Resume])
    (NotStarted, __init__) =
  Some (Completed
          {| TravellerState.workflow_id := "traveller-1";
             TravellerState.current_node := "C";
             TravellerState.end_node := "C";
             TravellerState.route := r;
             TravellerState.route_index := 2;
             TravellerState.status := "Finished" |},
        {| current_node := "C"; end_node := "C"; route := r;
           route_index := 2; status := "Finished";
           workflow_id := "traveller-1"; interrupted := false |}).
Proof.
  intros input r.
  assert (Hk : r !! 2%nat = Some (TravellerInput.end_node input))
    by reflexivity.
  assert (Hfirst : ∀ (j : nat) x, (j < 2)%nat → r !! j = Some x →
                     x ≠ TravellerInput.end_node input).
  { intros [|[|j]] x Hj; simpl; try lia; by intros [= <-]. }
  split; [exact Hk|].
  exact (uninterrupted_walk_finishes input r 2 Hk Hfirst).
Defined.

(** X10.  A traveller that is never interrupted and whose route does not
    hold [end_node] walks the whole route and completes with status
    "Walking": it stands on the last node of the route (on its start node
    when the route is empty) with [route_index = len(route)]. *)
Theorem walk_without_destination_ends_walking input r :
  ¬ In (TravellerInput.end_node input) r →
  run_events
    ([Run input; TrafficModelFetched; RouteFetched r]
       ++ turns (length r) ++ [Resume])
    (NotStarted, __init__) =
  Some (Completed
          {| TravellerState.workflow_id := TravellerInput.workflow_id input;
             TravellerState.current_node :=
               default (TravellerInput.start_node input) (last r);
             TravellerState.end_node := TravellerInput.end_node input;
             TravellerState.route := r;
             TravellerState.route_index := length r;
             TravellerState.status := "Walking" |},
        {| current_node := default (TravellerInput.start_node input) (last r);
           end_node := TravellerInput.end_node input; route := r;
           route_index := length r; status := "Walking";
           workflow_id := TravellerInput.workflow_id input;
           interrupted := false |}).
Proof.
  intros Hnin.
  rewrite run_events_app, first_route_run, run_events_app, turns_run.
  2: { intros j Hj. destruct (lookup_lt_is_Some_2 r j) as [x Hx]; [lia|].
       exists x. split; [done|]. intros ->. apply Hnin.
       apply list_elem_of_In. by eapply list_elem_of_lookup_2. }
  cbn [run_events exec]. unfold loop_turn.
  cbn [route_index route interrupted Nat.add].
  rewrite Nat.ltb_irrefl.
  assert (position (TravellerInput.start_node input) r 0 (length r)
          = default (TravellerInput.start_node input) (last r)) as ->.
  { unfold position. destruct (length r) as [|n] eqn:Hlen.
    - by destruct r.
    - simpl. by rewrite last_lookup, Hlen. }
  done.
Qed.

Lemma walk_without_destination_ends_walking_witness :
  let input :=
    {| TravellerInput.start_node := "A"; TravellerInput.end_node := "Z";
       TravellerInput.workflow_id := "traveller-1" |} in
  ¬ In "Z" ["A"; "B"] ∧
  run_events
    [Run input; TrafficModelFetched; RouteFetched ["A"; "B"];
     Resume; TimerFired; Resume; TimerFired; Resume]
    (NotStarted, __init__) =
  Some (Completed
          {| TravellerState.workflow_id := "traveller-1";
             TravellerState.current_node := "B";
             TravellerState.end_node := "Z";
             TravellerState.route := ["A"; "B"];
             TravellerState.route_index := 2;
             TravellerState.status := "Walking" |},
        {| current_node := "B"; end_node := "Z"; route := ["A"; "B"];
           route_index := 2; status := "Walking";
           workflow_id := "traveller-1"; interrupted := false |}).
Proof.
  intros input.
  assert (Hnin : ¬ In (TravellerInput.end_node input) ["A"; "B"]).
  { simpl. intros [?|[?|[]]]; discriminate. }
  split; [exact Hnin|].
  exact (walk_without_destination_ends_walking input ["A"; "B"] Hnin).
Defined.

(** ** What every reachable state satisfies *)

(** The index stays within the route, a sleeping or finished traveller
    stands on [route[route_index]], and a result is the state at the
    time of completion. *)
Definition position_ok (c : point * TravellerWorkflow) : Prop :=
  let (p, self) := c in
  p ≠ Failed ∧
  (route_index self ≤ length (route self))%nat ∧
  (p = Sleeping ∨ status self = "Finished" →
     route self !! route_index self = Some (current_node self)) ∧
  (status self = "Finished" → ∃ st, p = Completed st) ∧
  (∀ st, p = Completed st → st = get_state self).

Lemma position_ok_exec e c c' :
  position_ok c → exec e c = Some c' → position_ok c'.
Proof.
  destruct c as [p self], c' as [p' self'].
  intros (Hp & Hle & Hpos & Hfin & Hres) Hexec.
  assert (Hw : status self ≠ "Finished").
  { intros Hf. destruct (Hfin Hf) as [st ->]. by destruct e. }
  destruct e, p; simpl in Hexec; try discriminate;
    try (injection Hexec as <- <-; simpl;
         repeat split; try done; try lia;
         by intros [?|?]).
  - (* Resume *)
    unfold loop_turn in Hexec.
    destruct (route_index self <? length (route self))%nat eqn:Hlt.
    2: { injection Hexec as <- <-. repeat split; try done.
         - by intros [?|?].
         - by intros st [= <-]. }
    destruct (interrupted self).
    { injection Hexec as <- <-. repeat split; try done. by intros [?|?]. }
    destruct (route self !! route_index self) as [next|] eqn:Hnext.
    2: { apply Nat.ltb_lt, lookup_lt_is_Some_2 in Hlt. rewrite Hnext in Hlt.
         by destruct Hlt. }
    simpl in Hexec. destruct (String.eqb next (end_node self)).
    + injection Hexec as <- <-. simpl. repeat split; try done; eauto.
      by intros st [= <-].
    + injection Hexec as <- <-. simpl. repeat split; try done.
  - (* TimerFired *)
    injection Hexec as <- <-. simpl.
    pose proof (lookup_lt_Some _ _ _ (Hpos (or_introl eq_refl))).
    repeat split; try done; try lia. by intros [?|?].
Qed.

Lemma position_ok_run es : ∀ c c',
  position_ok c → run_events es c = Some c' → position_ok c'.
Proof.
  induction es as [|e es IH]; intros c c' Hc; simpl.
  - by intros [= <-].
  - destruct (exec e c) as [c1|] eqn:He; [|done].
    apply IH. by eapply position_ok_exec.
Qed.

(** X11.  Whatever the runtime delivers, the workflow never indexes its
    route out of range: [route_index] never exceeds [len(route)], and a
    traveller that sleeps or has finished stands on
    [route[route_index]].  The result of a completed workflow is its
    state at completion. *)
Theorem traveller_stands_on_its_route es p self :
  run_events es (NotStarted, __init__) = Some (p, self) →
  p ≠ Failed ∧
  (route_index self ≤ length (route self))%nat ∧
  (p = Sleeping ∨ status self = "Finished" →
     route self !! route_index self = Some (current_node self)) ∧
  (∀ st, p = Completed st → st = get_state self).
Proof.
  intros Hrun.
  assert (H0 : position_ok (NotStarted, __init__)).
  { repeat split; try done; simpl; try lia. by intros [?|?]. }
  destruct (position_ok_run es _ _ H0 Hrun) as (H1 & H2 & H3 & _ & H5).
  by repeat split.
Qed.

Lemma traveller_stands_on_its_route_witness :
  let input :=
    {| TravellerInput.start_node := "A"; TravellerInput.end_node := "C";
       TravellerInput.workflow_id := "traveller-1" |} in
  let es :=
    [Run input; TrafficModelFetched; RouteFetched ["A"; "B"; "C"];
     Resume; TimerFired; Resume] in
  let self :=
    {| current_node := "B"; end_node := "C"; route := ["A"; "B"; "C"];
       route_index := 1; status := "Walking"; workflow_id := "traveller-1";
       interrupted := false |} in
  run_events es (NotStarted, __init__) = Some (Sleeping, self) ∧
  route self !! route_index self = Some (current_node self).
Proof.
  intros input es self.
  assert (Hrun : run_events es (NotStarted, __init__) = Some (Sleeping, self))
    by reflexivity.
  split; [exact Hrun|].
  destruct (traveller_stands_on_its_route es Sleeping self Hrun)
    as (_ & _ & H & _).
  exact (H (or_introl eq_refl)).
Defined.

(** ** Interrupts outside the sleep *)

Definition awaiting (p : point) : Prop :=
  match p with
  | NotStarted | FetchingTraffic _ | FetchingRoute _ _ _ | Sleeping => True
  | _ => False
  end.

Lemma interrupts_run (n : nat) p self :
  awaiting p →
  run_events (repeat Interrupt n) (p, self) =
  Some (p, match n with O => self | S _ => interrupt self end).
Proof.
  intros Hp. revert self. induction n as [|n IH]; intros self; [done|].
  cbn [repeat run_events].
  assert (exec Interrupt (p, self) = Some (p, interrupt self)) as ->
    by by destruct p.
  rewrite IH. by destruct n.
Qed.

(** X12.  The destination and the workflow id are those of the input for
    the whole life of the workflow, and the traveller only ever stands on
    its start node or on a node of a route it was given. *)
Theorem traveller_keeps_destination (n : nat) input es p self :
  run_events (repeat Interrupt n ++ Run input :: es) (NotStarted, __init__)
    = Some (p, self) →
  end_node self = TravellerInput.end_node input ∧
  workflow_id self = TravellerInput.workflow_id input ∧
  (current_node self = TravellerInput.start_node input ∨
   ∃ r, In (RouteFetched r) es ∧ In (current_node self) r).
Proof.
  rewrite run_events_app, interrupts_run by done.
  cbn [run_events exec].
  set (J := λ (R : list string → Prop) (c : point * TravellerWorkflow),
    fst c ≠ NotStarted ∧
    end_node (snd c) = TravellerInput.end_node input ∧
    workflow_id (snd c) = TravellerInput.workflow_id input ∧
    (route (snd c) = [] ∨ R (route (snd c))) ∧
    (current_node (snd c) = TravellerInput.start_node input ∨
     ∃ r, R r ∧ In (current_node (snd c)) r)).
  assert (Hstep : ∀ (R : list string → Prop) e c c',
    (∀ r, e = RouteFetched r → R r) → J R c → exec e c = Some c' → J R c').
  { intros R e [q s] [q' s'] HR (Hq & He & Hw & Hroute & Hcur) Hexec.
    simpl in *.
    destruct e, q; simpl in Hexec; try discriminate; try done;
      try (injection Hexec as <- <-; by repeat split; simpl; auto).
    unfold loop_turn in Hexec.
    destruct (route_index s <? length (route s))%nat;
      [|injection Hexec as <- <-; by repeat split].
    destruct (interrupted s); [injection Hexec as <- <-; by repeat split|].
    destruct (route s !! route_index s) as [next|] eqn:Hnext;
      [|injection Hexec as <- <-; by repeat split].
    assert (Hin : ∃ r, R r ∧ In next r).
    { destruct Hroute as [Hnil|Hroute]; [by rewrite Hnil in Hnext|].
      exists (route s). split; [done|].
      apply list_elem_of_In. by eapply list_elem_of_lookup_2. }
    simpl in Hexec. destruct (String.eqb next (end_node s));
      injection Hexec as <- <-; repeat split; simpl; auto. }
  assert (Hrun : ∀ (R : list string → Prop) l c c',
    (∀ r, In (RouteFetched r) l → R r) → J R c → run_events l c = Some c' →
    J R c').
  { intros R l. induction l as [|e l IH]; intros c c' HR HJ; simpl.
    - by intros [= <-].
    - destruct (exec e c) as [c1|] eqn:He; [|done].
      apply IH; [intros r Hr; apply HR; by right|].
      apply (Hstep R e c c1); [|done|done].
      intros r ->. apply HR. by left. }
  intros Hes.
  apply (Hrun (λ r, In (RouteFetched r) es)) in Hes; [| done |].
  - destruct Hes as (_ & He & Hw & _ & Hcur). by repeat split.
  - unfold J. destruct n; simpl; repeat split; auto.
Qed.

Lemma traveller_keeps_destination_witness :
  let input :=
    {| TravellerInput.start_node := "A"; TravellerInput.end_node := "C";
       TravellerInput.workflow_id := "traveller-1" |} in
  let es := [TrafficModelFetched; RouteFetched ["A"; "B"; "C"];
             Resume; TimerFired; Resume] in
  let self :=
    {| current_node := "B"; end_node := "C"; route := ["A"; "B"; "C"];
       route_index := 1; status := "Walking"; workflow_id := "traveller-1";
       interrupted := false |} in
  run_events (repeat Interrupt 0 ++ Run input :: es) (NotStarted, __init__)
    = Some (Sleeping, self) ∧
  end_node self = "C" ∧ workflow_id self = "traveller-1" ∧
  (current_node self = "A" ∨
   ∃ r, In (RouteFetched r) es ∧ In (current_node self) r).
Proof.
  intros input es self.
  assert (Hrun : run_events (repeat Interrupt 0 ++ Run input :: es)
                   (NotStarted, __init__) = Some (Sleeping, self)).
  { reflexivity. }
  split; [exact Hrun|].
  exact (traveller_keeps_destination 0 input es Sleeping self Hrun).
Defined.

(** X13.  An interrupt that arrives before the first route is there
    (before the workflow runs, or while it fetches the traffic model or
    the first route) is kept: as soon as the first route is set, the
    first loop turn asks for a new one instead of moving. *)
Theorem early_interrupt_replans_at_first_turn (n m k : nat) input r :
  (0 < n + m + k)%nat → r ≠ [] →
  run_events
    (repeat Interrupt n ++ [Run input] ++ repeat Interrupt m
       ++ [TrafficModelFetched] ++ repeat Interrupt k
       ++ [RouteFetched r; Resume])
    (NotStarted, __init__) =
  Some (FetchingTraffic Replan,
        {| current_node := TravellerInput.start_node input;
           end_node := TravellerInput.end_node input; route := r;
           route_index := 0; status := "Walking";
           workflow_id := TravellerInput.workflow_id input;
           interrupted := true |}).
Proof.
  intros Hpos Hr.
  rewrite run_events_app, interrupts_run by done.
  cbn [app run_events exec].
  rewrite run_events_app, interrupts_run by done.
  cbn [app run_events exec].
  rewrite run_events_app, interrupts_run by done.
  cbn [app run_events exec]. unfold loop_turn.
  cbn [route_index route interrupted].
  destruct r as [|x r]; [done|]. cbn [length Nat.ltb Nat.leb].
  destruct n, m, k; try lia; reflexivity.
Qed.

Lemma early_interrupt_replans_at_first_turn_witness :
  let input :=
    {| TravellerInput.start_node := "A"; TravellerInput.end_node := "C";
       TravellerInput.workflow_id := "traveller-1" |} in
  (0 < 0 + 1 + 0)%nat ∧ ["A"; "B"; "C"] ≠ [] ∧
  run_events
    [Run input; Interrupt; TrafficModelFetched;
     RouteFetched ["A"; "B"; "C"]; Resume]
    (NotStarted, __init__) =
  Some (FetchingTraffic Replan,
        {| current_node := "A"; end_node := "C"; route := ["A"; "B"; "C"];
           route_index := 0; status := "Walking";
           workflow_id := "traveller-1"; interrupted := true |}).
Proof.
  intros input.
  assert (H0 : (0 < 0 + 1 + 0)%nat) by lia.
  assert (H1 : ["A"; "B"; "C"] ≠ @nil string) by discriminate.
  split; [exact H0|]. split; [exact H1|].
  exact (early_interrupt_replans_at_first_turn 0 1 0 input ["A"; "B"; "C"]
           H0 H1).
Defined.

(** X14.  An interrupt that arrives while a new route is being computed
    for an earlier interrupt is lost: however many arrive during the two
    fetches, the workflow comes back to its loop with the flag cleared,
    as if none had arrived. *)
Theorem interrupt_during_replan_is_lost (n m : nat) self r :
  run_events
    (repeat Interrupt n ++ [TrafficModelFetched] ++ repeat Interrupt m
       ++ [RouteFetched r])
    (FetchingTraffic Replan, self) =
  Some (LoopHead,
        {| current_node := current_node self; end_node := end_node self;
           route := r; route_index := 0; status := status self;
           workflow_id := workflow_id self; interrupted := false |}) ∧
  run_events [TrafficModelFetched; RouteFetched r]
    (FetchingTraffic Replan, self) =
  Some (LoopHead,
        {| current_node := current_node self; end_node := end_node self;
           route := r; route_index := 0; status := status self;
           workflow_id := workflow_id self; interrupted := false |}).
Proof.
  split; [|reflexivity].
  rewrite run_events_app, interrupts_run by done.
  cbn [app run_events exec].
  rewrite run_events_app, interrupts_run by done.
  cbn [app run_events exec].
  by destruct n, m.
Qed.

End TravellerApiProperties.

(** * Further properties of the traffic generator *)

Module TrafficApiProperties.
Import Py PyProofs TrafficApi TrafficApiProofs.
Local Open Scope Q_scope.

(** ** Speed as a function of traffic *)

Lemma calculate_speed_range t :
  0 <= t <= 1 → (5 <= _calculate_speed t <= 60)%Z.
Proof.
  intros Ht. unfold _calculate_speed. split.
  - apply (Z.le_trans _ (py_round (60 - 1 * 55))); [done|].
    apply py_round_mono. lra.
  - apply (Z.le_trans _ (py_round (60 - 0 * 55))); [|done].
    apply py_round_mono. lra.
Qed.

(** X15.  The speed derived from a traffic level never grows with the
    traffic, and for a level in [0, 1] it lies between 5 and 60. *)
Theorem calculate_speed_decreases_with_traffic t1 t2 :
  (t1 <= t2 → (_calculate_speed t2 <= _calculate_speed t1)%Z) ∧
  (0 <= t1 <= 1 → (5 <= _calculate_speed t1 <= 60)%Z).
Proof.
  split.
  - intros Ht. unfold _calculate_speed. apply py_round_mono. lra.
  - apply calculate_speed_range.
Qed.

Lemma calculate_speed_decreases_with_traffic_witness :
  ((3 # 20) <= (11 # 20) →
   (_calculate_speed (11 # 20) <= _calculate_speed (3 # 20))%Z) ∧
  (0 <= (3 # 20) <= 1 → (5 <= _calculate_speed (3 # 20) <= 60)%Z) ∧
  _calculate_speed (3 # 20) = 52%Z ∧ _calculate_speed (11 # 20) = 30%Z.
Proof.
  split; [exact (proj1 (calculate_speed_decreases_with_traffic
                          (3 # 20) (11 # 20)))|].
  split; [exact (proj2 (calculate_speed_decreases_with_traffic
                          (3 # 20) (11 # 20)))|].
  split; reflexivity.
Defined.

(** ** Creating and clearing incidents *)

Lemma find_edge_not_In edge_id es :
  ¬ In edge_id (map Edge.id es) → find_edge edge_id es = None.
Proof.
  induction es as [|e es IH]; simpl; [done|]. intros Hnin.
  destruct (String.eqb (Edge.id e) edge_id) eqn:Heq.
  - apply String.eqb_eq in Heq. tauto.
  - rewrite IH; [done | tauto].
Qed.

Lemma In_lookup_edge (es : list Edge.t) e :
  In e es → ∃ i : nat, es !! i = Some e.
Proof. intros He%list_elem_of_In. by apply list_elem_of_lookup_1. Qed.

(** The edge with a given id, when ids are distinct. *)
Lemma find_edge_of es e :
  NoDup (map Edge.id es) → In e es →
  ∃ i : nat, find_edge (Edge.id e) es = Some i ∧ es !! i = Some e.
Proof.
  intros Hnd He. destruct (In_lookup_edge es e He) as [i Hi].
  exists i. split; [by apply find_edge_NoDup | done].
Qed.

(** One edge after an incident of severity [s] on the edge at position
    [i]. *)
Definition after_incident (edge : Edge.t) (i j : nat) (s : Q) (e : Edge.t) :
  Edge.t :=
  if decide (j = i)
  then raise_weight (s * (8 # 10)) (Edge.set_incident true s e)
  else if shares_endpoint edge e then raise_weight (s * (5 # 10)) e else e.

Lemma incident_effect_at es (i j : nat) s edge e :
  NoDup (map Edge.id es) → es !! i = Some edge → es !! j = Some e →
  incident_effect i s es !! j = Some (after_incident edge i j s e).
Proof.
  intros Hnd Hi Hj. unfold incident_effect, after_incident.
  rewrite list_lookup_alter_eq, list_lookup_alter_eq, Hi. simpl.
  change (map ?f ?l) with (f <$> l). rewrite list_lookup_fmap.
  destruct (decide (j = i)) as [->|Hne].
  - rewrite list_lookup_alter_eq, list_lookup_alter_eq, Hi. simpl.
    rewrite Hi in Hj. injection Hj as <-.
    unfold connected. simpl. by rewrite String.eqb_refl.
  - rewrite !list_lookup_alter_ne, Hj by done. simpl.
    unfold connected, shares_endpoint. simpl.
    assert (String.eqb (Edge.id e) (Edge.id edge) = false) as ->.
    { apply String.eqb_neq. intros Hid. apply Hne.
      by eapply lookup_same_id. }
    simpl. by destruct (_ || _).
Qed.

Lemma create_incident_unknown_edge self edge_id severity duration
    incident_type :
  ¬ In edge_id (map Edge.id (edges self)) →
  create_incident edge_id severity duration incident_type self =
    (Raised (ValueError ("Edge not found: " +:+ edge_id)), self).
Proof.
  intros Hnin. unfold create_incident, mbind, M_bind, get.
  by rewrite find_edge_not_In.
Qed.

Lemma create_incident_busy_edge self edge_id severity duration
    incident_type e :
  NoDup (map Edge.id (edges self)) →
  In e (edges self) → Edge.id e = edge_id → Edge.isIncident e = true →
  create_incident edge_id severity duration incident_type self =
    (Raised (ValueError ("Edge " +:+ edge_id
                         +:+ " already has an active incident")), self).
Proof.
  intros Hnd He Hid Hflag.
  destruct (find_edge_of _ e Hnd He) as (i & Hfind & Hi).
  unfold create_incident, mbind, M_bind, get.
  by rewrite <- Hid, Hfind, Hi, Hflag.
Qed.

(** X16.  [create_incident] refuses an id that no edge carries, and an
    edge that already has an incident, with a [ValueError]; a refusal
    changes nothing in the generator.  (Edge ids are pairwise distinct in
    every generator, see [edge_ids_distinct].) *)
Theorem create_incident_refusals self edge_id severity duration
    incident_type :
  NoDup (map Edge.id (edges self)) →
  (¬ In edge_id (map Edge.id (edges self)) →
   create_incident edge_id severity duration incident_type self =
     (Raised (ValueError ("Edge not found: " +:+ edge_id)), self)) ∧
  (∀ e, In e (edges self) → Edge.id e = edge_id →
     Edge.isIncident e = true →
     create_incident edge_id severity duration incident_type self =
       (Raised (ValueError ("Edge " +:+ edge_id
                            +:+ " already has an active incident")), self)).
Proof.
  intros Hnd. split.
  - apply create_incident_unknown_edge.
  - intros e. by apply create_incident_busy_edge.
Qed.

Lemma create_incident_refusals_witness :
  let self :=
    perform_all [CreateIncident "edge_0" (1 # 2) 60000 None]
                (one_road (1 # 2)) in
  NoDup (map Edge.id (edges self)) ∧
  ¬ In "edge_7" (map Edge.id (edges self)) ∧
  create_incident "edge_7" (1 # 2) 60000 None self =
    (Raised (ValueError "Edge not found: edge_7"), self) ∧
  create_incident "edge_0" (1 # 2) 60000 None self =
    (Raised (ValueError "Edge edge_0 already has an active incident"), self).
Proof.
  intros self.
  assert (Hnd : NoDup (map Edge.id (edges self))).
  { vm_compute. apply NoDup_singleton. }
  assert (Hnin : ¬ In "edge_7" (map Edge.id (edges self))).
  { vm_compute. intros [?|[]]; discriminate. }
  assert (He : ∃ e, In e (edges self) ∧ Edge.id e = "edge_0" ∧
                    Edge.isIncident e = true).
  { eexists. split; [vm_compute; left; reflexivity|]. by split. }
  clearbody self. destruct He as (e & He & Hid & Hflag).
  split; [exact Hnd|]. split; [exact Hnin|].
  destruct (create_incident_refusals self "edge_0" (1 # 2) 60000 None Hnd)
    as [_ H2].
  destruct (create_incident_refusals self "edge_7" (1 # 2) 60000 None Hnd)
    as [H1 _].
  split; [exact (H1 Hnin) | exact (H2 e He Hid Hflag)].
Defined.

Lemma available_iff self edge_id :
  In edge_id (map AvailableEdge.id (get_available_edges_for_incident self)) ↔
  ∃ e, In e (edges self) ∧ Edge.id e = edge_id ∧ Edge.isIncident e = false.
Proof.
  unfold get_available_edges_for_incident. rewrite map_map. simpl.
  rewrite in_map_iff. split.
  - intros (e & Hid & [He Hflag]%filter_In). exists e.
    split; [done|]. split; [done|]. by apply negb_true_iff.
  - intros (e & He & Hid & Hflag). exists e. split; [done|].
    apply filter_In. split; [done|]. by rewrite Hflag.
Qed.

(** X17.  The edges listed by [get_available_edges_for_incident] are
    exactly those on which [create_incident] succeeds, whatever the
    severity, duration and type asked for; once an incident is created on
    an edge, the edge is no longer listed. *)
Theorem available_edges_accept_incidents self edge_id severity duration
    incident_type :
  NoDup (map Edge.id (edges self)) →
  (In edge_id (map AvailableEdge.id (get_available_edges_for_incident self))
   ↔ ∃ incident self',
       create_incident edge_id severity duration incident_type self =
         (Returned incident, self')) ∧
  (∀ incident self',
     create_incident edge_id severity duration incident_type self =
       (Returned incident, self') →
     ¬ In edge_id
         (map AvailableEdge.id (get_available_edges_for_incident self'))).
Proof.
  intros Hnd.
  assert (Hrun : ∀ e, In e (edges self) → Edge.id e = edge_id →
    Edge.isIncident e = false →
    ∃ (i : nat) incident w,
      edges self !! i = Some e ∧
      create_incident edge_id severity duration incident_type self =
        (Returned incident,
         {| config := config self; vertices := vertices self;
            edges :=
              incident_effect i (float_max 0 (float_min 1 severity))
                              (edges self);
            incidents := incidents self ++ [incident];
            update_count := update_count self; world := w |})).
  { intros e He Hid Hflag.
    destruct (find_edge_of _ e Hnd He) as (i & Hfind & Hi).
    rewrite Hid in Hfind.
    destruct (create_incident_run edge_id severity duration incident_type
                self i e Hfind Hi Hflag) as (incident & w & Hr & _).
    by exists i, incident, w. }
  assert (Hback : ∀ incident self',
    create_incident edge_id severity duration incident_type self =
      (Returned incident, self') →
    ∃ e, In e (edges self) ∧ Edge.id e = edge_id ∧ Edge.isIncident e = false).
  { intros incident self' Hr.
    destruct (in_dec string_dec edge_id (map Edge.id (edges self)))
      as [Hin|Hnin].
    2: { rewrite (create_incident_unknown_edge self edge_id severity
                    duration incident_type Hnin) in Hr. discriminate. }
    apply in_map_iff in Hin as (e & Hid & He). exists e.
    split; [done|]. split; [done|].
    destruct (Edge.isIncident e) eqn:Hflag; [|done].
    rewrite (create_incident_busy_edge self edge_id severity duration
               incident_type e Hnd He Hid Hflag) in Hr. discriminate. }
  split.
  - rewrite available_iff. split.
    + intros (e & He & Hid & Hflag).
      destruct (Hrun e He Hid Hflag) as (i & incident & w & _ & Hr). eauto.
    + intros (incident & self' & Hr). by eapply Hback.
  - intros incident self' Hr.
    destruct (Hback incident self' Hr) as (e & He & Hid & Hflag).
    destruct (Hrun e He Hid Hflag) as (i & incident' & w & Hi & Hr').
    rewrite Hr' in Hr. injection Hr as _ <-.
    rewrite available_iff. simpl. intros (e' & He' & Hid' & Hflag').
    destruct (In_lookup_edge _ e' He') as [j Hj].
    assert (Hlen : (j < length (edges self))%nat).
    { apply lookup_lt_Some in Hj. unfold incident_effect in Hj.
      revert Hj. rewrite !list_lookup_alter_eq, Hi. simpl.
      by rewrite List.length_map, !length_alter. }
    destruct (lookup_lt_is_Some_2 _ _ Hlen) as [e0 He0].
    rewrite (incident_effect_at _ i j _ e e0 Hnd Hi He0) in Hj.
    injection Hj as <-. unfold after_incident in *.
    destruct (decide (j = i)) as [->|Hne]; [done|].
    apply Hne. apply (lookup_same_id _ _ _ _ _ Hnd He0 Hi).
    rewrite Hid, <- Hid'. by destruct (shares_endpoint e e0).
Qed.

Lemma available_edges_accept_incidents_witness :
  let self := one_road (1 # 2) in
  NoDup (map Edge.id (edges self)) ∧
  In "edge_0" (map AvailableEdge.id (get_available_edges_for_incident self)) ∧
  ∃ incident self',
    create_incident "edge_0" (1 # 2) 60000 None self =
      (Returned incident, self').
Proof.
  intros self.
  assert (Hnd : NoDup (map Edge.id (edges self))).
  { vm_compute. apply NoDup_singleton. }
  assert (Hin : In "edge_0"
                  (map AvailableEdge.id (get_available_edges_for_incident self))).
  { vm_compute. by left. }
  clearbody self. split; [exact Hnd|]. split; [exact Hin|].
  exact (proj1 (proj1 (available_edges_accept_incidents self "edge_0"
                         (1 # 2) 60000 None Hnd)) Hin).
Defined.

(** What [clear_incident] does, in one step. *)
Lemma clear_incident_run incident_id self :
  clear_incident incident_id self =
  match List.find (λ i, String.eqb (Incident.id i) incident_id)
                  (incidents self) with
  | None =>
      (Raised (ValueError ("Incident not found: " +:+ incident_id)), self)
  | Some incident =>
      (Returned incident,
       {| config := config self; vertices := vertices self;
          edges :=
            match find_edge (Incident.edgeId incident) (edges self) with
            | Some i => alter (Edge.set_incident false 0) i (edges self)
            | None => edges self
            end;
          incidents := list_remove incident (incidents self);
          update_count := update_count self; world := world self |})
  end.
Proof.
  unfold clear_incident, mbind, M_bind, get.
  destruct (List.find _ (incidents self)) as [incident|]; [|done].
  unfold reset_edge_of, mbind, M_bind, get, update_edge, modify.
  destruct (find_edge _ (edges self)); by destruct self.
Qed.

Lemma Incident_eqb_id a b :
  Incident.eqb a b = true → Incident.id a = Incident.id b.
Proof.
  unfold Incident.eqb. rewrite !andb_true_iff.
  intros [[[[[[[[H _] _] _] _] _] _] _] _]. by apply String.eqb_eq.
Qed.

Lemma list_remove_length a l :
  In a l → S (length (list_remove a l)) = length l.
Proof.
  induction l as [|x l IH]; simpl; [done|].
  destruct (Incident.eqb x a) eqn:Heq; [done|].
  intros [->|Hin]; [by rewrite Incident_eqb_refl in Heq|].
  simpl. by rewrite IH.
Qed.

Lemma list_remove_In a l x : In x (list_remove a l) → In x l.
Proof.
  induction l as [|y l IH]; simpl; [done|].
  destruct (Incident.eqb y a); [by right|].
  intros [->|Hx]; [by left | right; by apply IH].
Qed.

(** X18.  [clear_incident] raises [ValueError] and changes nothing when
    no incident has the id.  Otherwise it returns the first incident with
    that id and takes one incident off the list; the edge the incident
    names has its flags reset, and nothing else changes: clearing an
    incident does not take back the traffic the incident added. *)
Theorem clear_incident_keeps_traffic self incident_id :
  NoDup (map Edge.id (edges self)) →
  ((∀ i, In i (incidents self) → Incident.id i ≠ incident_id) ∧
   clear_incident incident_id self =
     (Raised (ValueError ("Incident not found: " +:+ incident_id)), self)) ∨
  ∃ incident self',
    clear_incident incident_id self = (Returned incident, self') ∧
    In incident (incidents self) ∧ Incident.id incident = incident_id ∧
    S (length (incidents self')) = length (incidents self) ∧
    (∀ i, In i (incidents self') → In i (incidents self)) ∧
    vertices self' = vertices self ∧ config self' = config self ∧
    length (edges self') = length (edges self) ∧
    ∀ (j : nat) e, edges self !! j = Some e →
      edges self' !! j =
        Some (if decide (Edge.id e = Incident.edgeId incident)
              then Edge.set_incident false 0 e else e).
Proof.
  intros Hnd. rewrite clear_incident_run.
  destruct (List.find _ (incidents self)) as [incident|] eqn:Hfind.
  - right. apply find_some in Hfind as [Hin Hid].
    apply String.eqb_eq in Hid.
    eexists _, _. split; [done|]. simpl.
    split; [done|]. split; [done|].
    split; [by apply list_remove_length|].
    split; [intros i; apply list_remove_In|].
    split; [done|]. split; [done|].
    destruct (find_edge (Incident.edgeId incident) (edges self)) as [i|]
      eqn:Hedge.
    + split; [by rewrite length_alter|]. intros j e Hj.
      destruct (find_edge_Some _ _ _ Hedge) as (e0 & Hi & Hid0).
      rewrite list_lookup_alter. destruct (decide (i = j)) as [->|Hne].
      * rewrite Hj in Hi. injection Hi as <-. rewrite Hj. simpl.
        by rewrite decide_True.
      * rewrite Hj. rewrite decide_False; [done|].
        intros Heq. apply Hne.
        apply (lookup_same_id _ _ _ _ _ Hnd Hi Hj). congruence.
    + split; [done|]. intros j e Hj. rewrite decide_False; [done|].
      intros Heq. apply find_edge_None in Hedge. apply Hedge.
      rewrite <- Heq. apply in_map. apply list_elem_of_In.
      by eapply list_elem_of_lookup_2.
  - left. split; [|done]. intros i Hi Hid.
    apply (find_none _ _ Hfind) in Hi. apply String.eqb_neq in Hi. done.
Qed.

Lemma clear_incident_keeps_traffic_witness :
  let self :=
    perform_all [CreateIncident "edge_0" (1 # 2) 60000 None]
                (one_road (1 # 2)) in
  NoDup (map Edge.id (edges self)) ∧
  map (λ e, (Qred (Edge.weight e), Edge.isIncident e)) (edges self)
    = [(11 # 20, true)] ∧
  ∃ incident self',
    clear_incident "incident_1000_012345678" self = (Returned incident, self') ∧
    map (λ e, (Qred (Edge.weight e), Edge.isIncident e)) (edges self')
      = [(11 # 20, false)] ∧
    S (length (incidents self')) = length (incidents self).
Proof.
  intros self.
  assert (Hnd : NoDup (map Edge.id (edges self))).
  { vm_compute. apply NoDup_singleton. }
  assert (Hw : map (λ e, (Qred (Edge.weight e), Edge.isIncident e)) (edges self)
               = [(11 # 20, true)]) by (vm_compute; reflexivity).
  assert (Hrun : ∃ incident self',
    clear_incident "incident_1000_012345678" self = (Returned incident, self') ∧
    map (λ e, (Qred (Edge.weight e), Edge.isIncident e)) (edges self')
      = [(11 # 20, false)]).
  { eexists _, _. split; vm_compute; reflexivity. }
  clearbody self. split; [exact Hnd|]. split; [exact Hw|].
  destruct Hrun as (incident & self' & Hrun & Hw').
  exists incident, self'. split; [exact Hrun|]. split; [exact Hw'|].
  destruct (clear_incident_keeps_traffic self "incident_1000_012345678" Hnd)
    as [[_ Hr]|(incident2 & self2 & Hr & _ & _ & Hlen & _)].
  - rewrite Hr in Hrun. discriminate.
  - rewrite Hr in Hrun. injection Hrun as _ <-. exact Hlen.
Defined.

Lemma find_last_fresh (incident : Incident.t) l :
  (∀ i, In i l → Incident.id i ≠ Incident.id incident) →
  List.find (λ i, String.eqb (Incident.id i) (Incident.id incident))
            (l ++ [incident]) = Some incident ∧
  list_remove incident (l ++ [incident]) = l.
Proof.
  induction l as [|x l IH]; intros Hfresh; simpl.
  - by rewrite String.eqb_refl, Incident_eqb_refl.
  - destruct (IH (λ i Hi, Hfresh i (or_intror Hi))) as [-> ->].
    pose proof (Hfresh x (or_introl eq_refl)) as Hx.
    rewrite (proj2 (String.eqb_neq _ _) Hx).
    destruct (Incident.eqb x incident) eqn:Heq; [|done].
    by apply Incident_eqb_id in Heq.
Qed.

(** X19.  Creating an incident and then clearing it by its id (an id no
    earlier incident carries) gives back the incident created, restores
    the list of incidents and leaves the edge without incident flags;
    every edge keeps the weight it had after the creation. *)
Theorem create_then_clear_incident self edge_id severity duration
    incident_type incident self1 :
  NoDup (map Edge.id (edges self)) →
  (∀ i, In i (incidents self) → Incident.id i ≠ Incident.id incident) →
  create_incident edge_id severity duration incident_type self =
    (Returned incident, self1) →
  ∃ self2,
    clear_incident (Incident.id incident) self1 = (Returned incident, self2) ∧
    incidents self2 = incidents self ∧
    length (edges self2) = length (edges self) ∧
    ∀ (j : nat) e2, edges self2 !! j = Some e2 →
      ∃ e e1, edges self !! j = Some e ∧ edges self1 !! j = Some e1 ∧
        Edge.weight e2 = Edge.weight e1 ∧
        (Edge.id e = edge_id →
           Edge.isIncident e2 = false ∧ Edge.incidentSeverity e2 = 0) ∧
        (Edge.id e ≠ edge_id →
           Edge.isIncident e2 = Edge.isIncident e ∧
           Edge.incidentSeverity e2 = Edge.incidentSeverity e).
Proof.
  intros Hnd Hfresh Hcreate.
  destruct (in_dec string_dec edge_id (map Edge.id (edges self)))
    as [Hin|Hnin].
  2: { rewrite (create_incident_unknown_edge self edge_id severity
                  duration incident_type Hnin) in Hcreate. discriminate. }
  apply in_map_iff in Hin as (edge & Hid & Hedge).
  destruct (Edge.isIncident edge) eqn:Hflag.
  { rewrite (create_incident_busy_edge self edge_id severity duration
               incident_type edge Hnd Hedge Hid Hflag) in Hcreate.
    discriminate. }
  destruct (find_edge_of _ edge Hnd Hedge) as (i & Hfind & Hi).
  rewrite Hid in Hfind.
  destruct (create_incident_run edge_id severity duration incident_type
              self i edge Hfind Hi Hflag) as (incident' & w & Hr & Hsev & Heid).
  rewrite Hr in Hcreate. injection Hcreate as -> <-.
  rewrite clear_incident_run. cbn [incidents edges].
  destruct (find_last_fresh incident (incidents self) Hfresh) as [-> ->].
  rewrite Heid.
  rewrite (find_edge_ext edge_id _ (edges self)), Hfind
    by apply incident_effect_ids.
  eexists. split; [reflexivity|]. cbn [incidents edges].
  split; [done|].
  assert (Hlen : length (incident_effect i (float_max 0 (float_min 1 severity))
                           (edges self)) = length (edges self)).
  { rewrite <- (length_map Edge.id), incident_effect_ids.
    apply length_map. }
  split; [by rewrite length_alter|].
  intros j e2 Hj.
  assert (Hlt : (j < length (edges self))%nat).
  { apply lookup_lt_Some in Hj. by rewrite length_alter, Hlen in Hj. }
  destruct (lookup_lt_is_Some_2 _ _ Hlt) as [e He].
  pose proof (incident_effect_at _ i j (float_max 0 (float_min 1 severity))
                edge e Hnd Hi He) as He1.
  exists e, (after_incident edge i j (float_max 0 (float_min 1 severity)) e).
  split; [done|]. split; [done|].
  rewrite list_lookup_alter in Hj. unfold after_incident in *.
  destruct (decide (i = j)) as [->|Hne].
  - rewrite He1 in Hj. rewrite decide_True in * by done.
    injection Hj as <-. simpl.
    split; [done|]. split; [done|]. intros Hne.
    rewrite Hi in He. by injection He as <-.
  - rewrite He1 in Hj. rewrite decide_False in * by done.
    injection Hj as <-.
    split; [done|]. split.
    + intros Heq. destruct Hne.
      apply (lookup_same_id _ _ _ _ _ Hnd Hi He). congruence.
    + intros _. by destruct (shares_endpoint edge e).
Qed.

Lemma create_then_clear_incident_witness :
  let self := one_road (1 # 2) in
  NoDup (map Edge.id (edges self)) ∧
  ∃ incident self1 self2,
    create_incident "edge_0" (1 # 2) 60000 None self
      = (Returned incident, self1) ∧
    clear_incident (Incident.id incident) self1 = (Returned incident, self2) ∧
    incidents self2 = incidents self.
Proof.
  intros self.
  assert (Hnd : NoDup (map Edge.id (edges self))).
  { vm_compute. apply NoDup_singleton. }
  assert (Hinc : incidents self = []) by (vm_compute; reflexivity).
  assert (Hrun : ∃ incident self1,
    create_incident "edge_0" (1 # 2) 60000 None self
      = (Returned incident, self1)).
  { eexists _, _. vm_compute. reflexivity. }
  clearbody self. split; [exact Hnd|].
  destruct Hrun as (incident & self1 & Hrun).
  assert (Hfresh : ∀ i, In i (incidents self) →
                        Incident.id i ≠ Incident.id incident).
  { rewrite Hinc. intros i []. }
  destruct (create_then_clear_incident self "edge_0" (1 # 2) 60000 None
              incident self1 Hnd Hfresh Hrun) as (self2 & Hclear & Hback & _).
  exists incident, self1, self2.
  split; [exact Hrun|]. split; [exact Hclear | exact Hback].
Defined.

(** ** What each method leaves alone *)

Lemma keeps_reads {A} (I : TrafficGenerator → Prop) (c : M A) :
  reads_world c → world_free I → keeps I c (λ _, True).
Proof.
  intros Hc HI self Hself. destruct (Hc self) as (a & w & ->).
  split; [by apply HI | done].
Qed.

Ltac reads :=
  first
    [ apply reads_world_random_random
    | apply reads_world_random_randint
    | apply reads_world_random_choice
    | apply reads_world_time_ms
    | apply reads_world_now_hour
    | apply reads_world_uuid4_hex
    | apply reads_world_type_or_random
    | apply reads_world_ret ].

(** Decomposition of a method for an invariant of the whole generator
    that does not look at the environment. *)
Ltac inv_step :=
  first
    [ apply keeps_ret; done
    | apply keeps_raise
    | apply keeps_get_any
    | apply keeps_reads; [reads | first [assumption | by intros ? ? ?]]
    | lazymatch goal with
      | |- keeps _ (_ ≫= _) _ =>
          eapply keeps_bind with (R1 := λ _, True); [|intros ? _]
      | |- keeps _ (if ?b then _ else _) _ => destruct b eqn:?
      | |- keeps _ (match ?x with _ => _ end) _ => destruct x eqn:?
      | |- keeps _ (let '(_, _) := ?x in _) _ => destruct x eqn:?
      end ].

Lemma random_randint_range a b self :
  (a <= b)%Z →
  ∀ z, fst (random_randint a b self) = Returned z → (a <= z <= b)%Z.
Proof.
  intros Hab z. unfold random_randint, mbind, M_bind, random_random. simpl.
  intros [= <-]. lia.
Qed.

(** Appending an edge keeps an invariant that survives the append; when
    the distance is infinite, [round] raises and no edge is appended. *)
Lemma keeps_append_edge (I : TrafficGenerator → Prop) from to d :
  world_free I →
  (∀ q, d = Fin q →
   ∀ self traffic rounded vehicles,
     I self → 0 <= traffic <= 1 → (0 <= vehicles <= 49)%Z →
     I (set_edges
          (edges self ++
           [ {| Edge.id := edge_name (length (edges self)); Edge.from := from;
                Edge.to := to; Edge.weight := traffic;
                Edge.distance := rounded;
                Edge.speed := _calculate_speed traffic;
                Edge.vehicleCount := vehicles; Edge.isIncident := false;
                Edge.incidentSeverity := 0; Edge.bidirectional := true |} ])
          self)) →
  keeps I (append_edge from to d) (λ _, True).
Proof.
  intros I_world I_append self HI. split; [|done].
  unfold append_edge, _generate_random_traffic, round_tenth, mbind, M_bind,
    get, random_random, mret, M_ret.
  cbn [fst snd config world set_world].
  destruct d as [q|]; cbn [raise snd]; [|by apply I_world].
  match goal with
  | |- context [ random_randint 0 49 ?st ] =>
      pose proof (random_randint_range 0 49 st ltac:(lia)) as Hv;
      destruct (reads_world_random_randint 0 49 st) as (v & w & Hrun)
  end.
  rewrite Hrun in *. cbn [modify snd].
  refine (I_append q eq_refl (set_world w (set_world _ self)) _ _ _ _ _ _).
  - by do 2 apply I_world.
  - apply clamp_unit.
  - by apply Hv.
Qed.

(** Generation builds the edge list from nothing, one edge at a time.
    An invariant of the generator that survives these steps holds when
    generation is over, whether it returned or raised. *)
Section StateGeneration.
Context (I : TrafficGenerator → Prop).
Hypothesis I_world : world_free I.
Hypothesis I_vertices : ∀ vs self, I self → I (set_vertices vs self).
Hypothesis I_reset : ∀ self, I self → I (set_edges [] self).
Hypothesis I_append : ∀ self from to traffic rounded vehicles,
  I self → 0 <= traffic <= 1 → (0 <= vehicles <= 49)%Z →
  I (set_edges
       (edges self ++
        [ {| Edge.id := edge_name (length (edges self)); Edge.from := from;
             Edge.to := to; Edge.weight := traffic; Edge.distance := rounded;
             Edge.speed := _calculate_speed traffic;
             Edge.vehicleCount := vehicles; Edge.isIncident := false;
             Edge.incidentSeverity := 0; Edge.bidirectional := true |} ])
       self).

Lemma inv_append_edge from to d : keeps I (append_edge from to d) (λ _, True).
Proof.
  apply keeps_append_edge; [done|]. intros q _ self t r v. apply I_append.
Qed.

Lemma inv_ensure_connectivity : keeps I _ensure_connectivity (λ _, True).
Proof.
  unfold _ensure_connectivity. repeat inv_step.
  apply keeps_for_each_with. intros connected_nodes vertex.
  unfold connect_if_isolated. repeat inv_step.
  apply inv_append_edge.
Qed.

Lemma inv_initialize_graph : keeps I _initialize_graph (λ _, True).
Proof.
  unfold _initialize_graph. repeat inv_step.
  - apply keeps_modify. intros self. apply I_vertices.
  - apply keeps_for_each. intros i. repeat inv_step.
    apply keeps_modify. intros self. apply I_vertices.
  - apply keeps_modify. intros self. apply I_reset.
  - apply keeps_for_each_with. intros edge_set [i node_a].
    repeat inv_step. apply keeps_for_each_with. intros edge_set' [j distance].
    repeat inv_step. apply inv_append_edge.
  - apply inv_ensure_connectivity.
Qed.

End StateGeneration.

(** The methods write the attributes they are about and no other: an
    invariant that survives the writes a method makes is kept by it. *)
Section Frames.
Context (I : TrafficGenerator → Prop).
Hypothesis I_world : world_free I.
Hypothesis I_vertices : ∀ vs self, I self → I (set_vertices vs self).
Hypothesis I_edges : ∀ es self, I self → I (set_edges es self).
Hypothesis I_incidents : ∀ l self, I self → I (set_incidents l self).
Hypothesis I_config : ∀ c self, I self → I (set_config c self).

Lemma frame_initialize_graph : keeps I _initialize_graph (λ _, True).
Proof.
  apply inv_initialize_graph; try done.
  - intros self. apply I_edges.
  - intros self from to t r v HI _ _. by apply I_edges.
Qed.

Lemma frame_update_edge (i : nat) f : keeps I (update_edge i f) (λ _, True).
Proof. apply keeps_modify. intros self. apply I_edges. Qed.

Lemma frame_apply_incident_effect edge_id severity :
  keeps I (_apply_incident_effect edge_id severity) (λ _, True).
Proof.
  unfold _apply_incident_effect. repeat inv_step.
  - apply frame_update_edge.
  - apply keeps_modify. intros self. apply I_edges.
Qed.

Lemma frame_create_incident edge_id severity duration incident_type :
  keeps I (create_incident edge_id severity duration incident_type)
        (λ _, True).
Proof.
  unfold create_incident. repeat inv_step.
  - apply keeps_modify. intros self. apply I_incidents.
  - apply frame_update_edge.
  - apply frame_apply_incident_effect.
Qed.

Lemma frame_reset_edge_of incident :
  keeps I (reset_edge_of incident) (λ _, True).
Proof. unfold reset_edge_of. repeat inv_step. apply frame_update_edge. Qed.

Lemma frame_update_incidents : keeps I _update_incidents (λ _, True).
Proof.
  unfold _update_incidents. repeat inv_step.
  - apply keeps_for_each_with. intros acc incident. repeat inv_step.
    apply frame_reset_edge_of.
  - apply keeps_for_each. intros incident.
    apply keeps_modify. intros self. apply I_incidents.
Qed.

Lemma frame_clear_incident incident_id :
  keeps I (clear_incident incident_id) (λ _, True).
Proof.
  unfold clear_incident. repeat inv_step.
  - apply frame_reset_edge_of.
  - apply keeps_modify. intros self. apply I_incidents.
Qed.

Lemma frame_update_edge_traffic m (i : nat) :
  keeps I (update_edge_traffic m i) (λ _, True).
Proof.
  unfold update_edge_traffic. repeat inv_step;
    first [apply frame_update_edge | apply frame_create_incident].
Qed.

(** The edge loop of a tick and the expiry pass, without the increment
    of [update_count]. *)
Lemma frame_tick_loops :
  keeps I
    (hour ← now_hour;
     self ← get;
     for_each (seq 0 (length (edges self)))
       (update_edge_traffic (time_multiplier hour));;
     _update_incidents)
    (λ _, True).
Proof.
  repeat inv_step.
  - apply keeps_for_each. intros i. apply frame_update_edge_traffic.
  - apply frame_update_incidents.
Qed.

Lemma frame_update_config new_config :
  keeps I (update_config new_config) (λ _, True).
Proof.
  unfold update_config. repeat inv_step;
    try (apply keeps_modify; intros self; apply I_config);
    apply frame_initialize_graph.
Qed.

End Frames.

(** A tick is the increment of [update_count] followed by the two
    loops. *)
Lemma update_traffic_run self :
  _update_traffic self =
  (hour ← now_hour;
   self ← get;
   for_each (seq 0 (length (edges self)))
     (update_edge_traffic (time_multiplier hour));;
   _update_incidents)
    (set_update_count (update_count self + 1)%Z self).
Proof.
  unfold _update_traffic, update_all_edges, mbind, M_bind, modify, now_hour,
    get. simpl.
  by destruct (for_each _ _ _) as [[[]| |] ?].
Qed.

Definition is_tick (op : operation) : bool :=
  match op with Tick => true | _ => false end.

(** Closure of an invariant that does not look at what is written. *)
Ltac untouched := let Hs := fresh in intros ? ? Hs; exact Hs.

Lemma perform_update_count op self :
  update_count (snd (perform op self)) =
  (update_count self + if is_tick op then 1 else 0)%Z.
Proof.
  destruct op; simpl.
  - rewrite update_traffic_run.
    apply (frame_tick_loops (λ s, update_count s = (update_count self + 1)%Z));
      solve [untouched | done].
  - rewrite Z.add_0_r.
    assert (Hk : keeps (λ s, update_count s = update_count self)
                   (create_incident edge_id severity duration incident_type)
                   (λ _, True)) by (apply frame_create_incident; untouched).
    destruct (Hk self eq_refl) as [H _]. unfold mbind, M_bind.
    by destruct (create_incident _ _ _ _ self) as [[?| |] ?].
  - rewrite Z.add_0_r.
    assert (Hk : keeps (λ s, update_count s = update_count self)
                   (clear_incident incident_id) (λ _, True))
      by (apply frame_clear_incident; untouched).
    destruct (Hk self eq_refl) as [H _]. unfold mbind, M_bind.
    by destruct (clear_incident _ self) as [[?| |] ?].
  - rewrite Z.add_0_r.
    apply (frame_update_config (λ s, update_count s = update_count self));
      solve [untouched | done].
Qed.

(** X20.  [update_count] counts the ticks: it is 0 after construction,
    each tick adds one to it, whether or not the tick creates incidents,
    and no other operation changes it, not even a regeneration of the
    graph. *)
Theorem update_count_counts_ticks config w ops :
  update_count (perform_all ops (snd (__init__ config w))) =
  Z.of_nat (length (List.filter is_tick ops)).
Proof.
  assert (H0 : update_count (snd (__init__ config w)) = 0%Z).
  { unfold __init__.
    apply (frame_initialize_graph (λ s, update_count s = 0%Z));
      solve [untouched | done]. }
  assert (Hall : ∀ ops self,
    update_count (perform_all ops self) =
    (update_count self + Z.of_nat (length (List.filter is_tick ops)))%Z).
  { clear. induction ops as [|op ops IH]; intros self; simpl; [lia|].
    unfold perform_all in *. simpl. rewrite IH, perform_update_count.
    destruct (is_tick op); simpl; lia. }
  by rewrite Hall, H0.
Qed.

Lemma initialize_graph_frame self :
  config (snd (_initialize_graph self)) = config self ∧
  incidents (snd (_initialize_graph self)) = incidents self ∧
  update_count (snd (_initialize_graph self)) = update_count self.
Proof.
  apply (frame_initialize_graph
           (λ s, config s = config self ∧ incidents s = incidents self ∧
                 update_count s = update_count self));
    solve [untouched | done].
Qed.

(** X21.  [update_config] writes the keys it is given and leaves the
    other keys, the incidents and [update_count] as they are.
    [node_count] (when it differs from the current one) and
    [road_density] (whenever it is given) are written before the graph
    is generated anew; the other four keys are written after, so they
    are not applied when that generation raises.  Without these two keys
    the call returns and leaves the graph alone. *)
Theorem update_config_writes_given_keys new_config self :
  let result := update_config new_config self in
  let self' := snd result in
  incidents self' = incidents self ∧
  update_count self' = update_count self ∧
  node_count (config self') =
    default (node_count (config self)) (new_node_count new_config) ∧
  road_density (config self') =
    default (road_density (config self)) (new_road_density new_config) ∧
  (fst result = Returned tt →
     update_interval (config self') =
       default (update_interval (config self))
               (new_update_interval new_config) ∧
     base_traffic_level (config self') =
       default (base_traffic_level (config self))
               (new_base_traffic_level new_config) ∧
     traffic_variability (config self') =
       default (traffic_variability (config self))
               (new_traffic_variability new_config) ∧
     incident_probability (config self') =
       default (incident_probability (config self))
               (new_incident_probability new_config)) ∧
  (fst result ≠ Returned tt →
     update_interval (config self') = update_interval (config self) ∧
     base_traffic_level (config self') = base_traffic_level (config self) ∧
     traffic_variability (config self') = traffic_variability (config self) ∧
     incident_probability (config self') =
       incident_probability (config self)) ∧
  (new_road_density new_config = None →
   (new_node_count new_config = None ∨
    new_node_count new_config = Some (node_count (config self))) →
   fst result = Returned tt ∧
   vertices self' = vertices self ∧ edges self' = edges self).
Proof.
  unfold update_config, mbind, M_bind, get, modify, mret, M_ret.
  destruct new_config as [nc ui bt tv ip rd]. cbn [new_node_count
    new_update_interval new_base_traffic_level new_traffic_variability
    new_incident_probability new_road_density].
  destruct nc as [n|]; [destruct (Z.eqb_spec n (node_count (config self)))|];
    destruct rd as [d|]; cbn [fst snd];
    try match goal with
        | |- context [ _initialize_graph ?s ] =>
            pose proof (initialize_graph_frame s) as (Hc & Hi & Hu);
            destruct (_initialize_graph s) as [[[]| |] s2]
        end;
    cbn [fst snd config incidents update_count vertices edges set_config
         node_count update_interval base_traffic_level traffic_variability
         incident_probability road_density default] in *;
    try rewrite Hc; cbn [node_count update_interval base_traffic_level
         traffic_variability incident_probability road_density];
    repeat split; try done; try congruence;
    intros; intuition (try discriminate; try congruence).
Qed.

(** ** The ranges of the edge attributes *)

Definition fields_ok (e : Edge.t) : Prop :=
  (5 <= Edge.speed e <= 60)%Z ∧ (0 <= Edge.vehicleCount e <= 105)%Z ∧
  0 <= Edge.incidentSeverity e <= 1 ∧
  (Edge.isIncident e = false → Edge.incidentSeverity e = 0) ∧
  Edge.bidirectional e = true.

Definition ranges_ok : TrafficGenerator → Prop := on_edges (Forall fields_ok).

Lemma keeps_randint_range (I : TrafficGenerator → Prop) a b :
  world_free I → (a <= b)%Z →
  keeps I (random_randint a b) (λ z, (a <= z <= b)%Z).
Proof.
  intros HI Hab self Hself. split.
  - destruct (reads_world_random_randint a b self) as (z & w & ->).
    by apply HI.
  - by apply random_randint_range.
Qed.

(** [int(x)] of a traffic level scaled to a percentage. *)
Lemma py_int_percent t : 0 <= t <= 1 → (0 <= py_int (t * 100) <= 100)%Z.
Proof.
  intros Ht. unfold py_int.
  assert (Hfloor : Z.quot (Qnum (t * 100)) (Z.pos (Qden (t * 100)))
                   = Qfloor (t * 100)).
  { unfold Qfloor. destruct (t * 100) as [n d] eqn:Hq. simpl.
    apply Z.quot_div_nonneg; [|lia].
    assert (0 <= t * 100) as H0 by lra. rewrite Hq in H0.
    unfold Qle in H0. simpl in H0. lia. }
  rewrite Hfloor. split.
  - apply (Z.le_trans _ (Qfloor 0)); [done|]. apply Qfloor_resp_le. lra.
  - apply (Z.le_trans _ (Qfloor 100)); [|done]. apply Qfloor_resp_le. lra.
Qed.

Lemma ranges_update_edge (i : nat) f :
  (∀ e, fields_ok e → fields_ok (f e)) →
  keeps ranges_ok (update_edge i f) (λ _, True).
Proof.
  intros Hf. apply keeps_modify. intros self HI.
  apply Forall_alter; [done|]. intros e _. apply Hf.
Qed.

Lemma ranges_apply_incident_effect edge_id severity :
  keeps ranges_ok (_apply_incident_effect edge_id severity) (λ _, True).
Proof.
  unfold _apply_incident_effect. repeat inv_step.
  - by apply ranges_update_edge.
  - apply keeps_modify. intros self HI. apply Forall_fmap.
    eapply Forall_impl; [exact HI|]. intros e He. simpl.
    by destruct (connected _ e).
Qed.

Lemma ranges_create_incident edge_id severity duration incident_type :
  keeps ranges_ok (create_incident edge_id severity duration incident_type)
        (λ _, True).
Proof.
  unfold create_incident. repeat inv_step.
  - by apply keeps_modify.
  - apply ranges_update_edge. intros e He.
    pose proof (clamp_unit severity). unfold fields_ok in *. simpl.
    intuition discriminate.
  - apply ranges_apply_incident_effect.
Qed.

Lemma ranges_reset_edge_of incident :
  keeps ranges_ok (reset_edge_of incident) (λ _, True).
Proof.
  unfold reset_edge_of. repeat inv_step. apply ranges_update_edge.
  intros e He. unfold fields_ok in *. simpl. intuition lra.
Qed.

Lemma ranges_update_incidents : keeps ranges_ok _update_incidents (λ _, True).
Proof.
  unfold _update_incidents. repeat inv_step.
  - apply keeps_for_each_with. intros acc incident. repeat inv_step.
    apply ranges_reset_edge_of.
  - apply keeps_for_each. intros incident. by apply keeps_modify.
Qed.

Lemma ranges_clear_incident incident_id :
  keeps ranges_ok (clear_incident incident_id) (λ _, True).
Proof.
  unfold clear_incident. repeat inv_step.
  - apply ranges_reset_edge_of.
  - by apply keeps_modify.
Qed.

Lemma ranges_update_edge_traffic m (i : nat) :
  keeps ranges_ok (update_edge_traffic m i) (λ _, True).
Proof.
  unfold update_edge_traffic.
  inv_step; [inv_step|]. inv_step; [|inv_step].
  inv_step; [inv_step|]. inv_step; [inv_step|].
  inv_step; [repeat inv_step|].
  inv_step.
  { by apply ranges_update_edge. }
  inv_step.
  { apply ranges_update_edge. intros e He.
    match goal with
    | |- context [ _calculate_speed ?t ] =>
        pose proof (calculate_speed_range t (clamp_unit _))
    end.
    unfold fields_ok in *. simpl. intuition. }
  eapply keeps_bind with (R1 := λ z, (-5 <= z <= 5)%Z);
    [apply keeps_randint_range; [by intros ? ? ? | lia] | intros r Hr].
  inv_step.
  { apply ranges_update_edge. intros e He.
    match goal with
    | |- context [ py_int (?t * 100) ] =>
        pose proof (py_int_percent t (clamp_unit _))
    end.
    unfold fields_ok in *. simpl. intuition lia. }
  repeat inv_step. apply ranges_create_incident.
Qed.

Lemma ranges_update_traffic : keeps ranges_ok _update_traffic (λ _, True).
Proof.
  unfold _update_traffic, update_all_edges. repeat inv_step.
  - by apply keeps_modify.
  - apply keeps_for_each. intros i. apply ranges_update_edge_traffic.
  - apply ranges_update_incidents.
Qed.

Lemma ranges_initialize_graph : keeps ranges_ok _initialize_graph (λ _, True).
Proof.
  apply inv_initialize_graph.
  - by intros w self HI.
  - by intros vs self HI.
  - intros self HI. constructor.
  - intros self from to t r v HI Ht Hv. apply Forall_app. split; [done|].
    constructor; [|constructor].
    pose proof (calculate_speed_range t Ht).
    unfold fields_ok. simpl. intuition (try lia; try lra).
Qed.

Lemma ranges_update_config new_config :
  keeps ranges_ok (update_config new_config) (λ _, True).
Proof.
  unfold update_config. repeat inv_step;
    try (by apply keeps_modify); apply ranges_initialize_graph.
Qed.

Lemma ranges_perform op : keeps ranges_ok (perform op) (λ _, True).
Proof.
  destruct op; simpl; repeat inv_step.
  - apply ranges_update_traffic.
  - apply ranges_create_incident.
  - apply ranges_clear_incident.
  - apply ranges_update_config.
Qed.

(** X22.  In every generator a client can observe, initially and after
    any sequence of operations, every edge has a speed between 5 and 60,
    a vehicle count between 0 and 105, an incident severity in [0, 1]
    that is 0 when the edge has no incident, and is bidirectional. *)
Theorem edge_attributes_stay_in_range config w ops :
  Forall (λ e, (5 <= Edge.speed e <= 60)%Z ∧
               (0 <= Edge.vehicleCount e <= 105)%Z ∧
               0 <= Edge.incidentSeverity e <= 1 ∧
               (Edge.isIncident e = false → Edge.incidentSeverity e = 0) ∧
               Edge.bidirectional e = true)
         (edges (perform_all ops (snd (__init__ config w)))).
Proof.
  assert (Hall : ∀ ops self, ranges_ok self → ranges_ok (perform_all ops self)).
  { clear ops. induction ops as [|op ops IH]; intros self HI; [done|].
    apply IH. by apply ranges_perform. }
  apply Hall. unfold __init__. apply ranges_initialize_graph. constructor.
Qed.

(** ** The layout of the graph *)

(** What of an edge is fixed when the graph is generated. *)
Definition layout (e : Edge.t) : string * string * string * Z * bool :=
  (Edge.id e, Edge.from e, Edge.to e, Edge.distance e, Edge.bidirectional e).

Definition layout_is (V : list Vertex.t) (c : Config)
    (T : list (string * string * string * Z * bool)) :
  TrafficGenerator → Prop :=
  λ self, vertices self = V ∧ config self = c ∧ map layout (edges self) = T.

Lemma layout_update_edge V c T (i : nat) f :
  (∀ e, layout (f e) = layout e) →
  keeps (layout_is V c T) (update_edge i f) (λ _, True).
Proof.
  intros Hf. apply keeps_modify. intros self (HV & Hc & HT).
  split; [done|]. split; [done|]. simpl. by rewrite map_alter_same.
Qed.

Lemma layout_apply_incident_effect V c T edge_id severity :
  keeps (layout_is V c T) (_apply_incident_effect edge_id severity)
        (λ _, True).
Proof.
  unfold _apply_incident_effect. repeat inv_step.
  - by apply layout_update_edge.
  - apply keeps_modify. intros self (HV & Hc & HT).
    split; [done|]. split; [done|]. simpl. rewrite <- HT, map_map.
    apply map_ext. intros e. by destruct (connected _ e).
Qed.

Lemma layout_create_incident V c T edge_id severity duration incident_type :
  keeps (layout_is V c T)
        (create_incident edge_id severity duration incident_type) (λ _, True).
Proof.
  unfold create_incident. repeat inv_step.
  - by apply keeps_modify.
  - by apply layout_update_edge.
  - apply layout_apply_incident_effect.
Qed.

Lemma layout_reset_edge_of V c T incident :
  keeps (layout_is V c T) (reset_edge_of incident) (λ _, True).
Proof.
  unfold reset_edge_of. repeat inv_step. by apply layout_update_edge.
Qed.

Lemma layout_update_incidents V c T :
  keeps (layout_is V c T) _update_incidents (λ _, True).
Proof.
  unfold _update_incidents. repeat inv_step.
  - apply keeps_for_each_with. intros acc incident. repeat inv_step.
    apply layout_reset_edge_of.
  - apply keeps_for_each. intros incident. by apply keeps_modify.
Qed.

Lemma layout_clear_incident V c T incident_id :
  keeps (layout_is V c T) (clear_incident incident_id) (λ _, True).
Proof.
  unfold clear_incident. repeat inv_step.
  - apply layout_reset_edge_of.
  - by apply keeps_modify.
Qed.

Lemma layout_update_edge_traffic V c T m (i : nat) :
  keeps (layout_is V c T) (update_edge_traffic m i) (λ _, True).
Proof.
  unfold update_edge_traffic. repeat inv_step;
    first [by apply layout_update_edge | apply layout_create_incident].
Qed.

Lemma layout_update_traffic V c T :
  keeps (layout_is V c T) _update_traffic (λ _, True).
Proof.
  unfold _update_traffic, update_all_edges. repeat inv_step.
  - by apply keeps_modify.
  - apply keeps_for_each. intros i. apply layout_update_edge_traffic.
  - apply layout_update_incidents.
Qed.

Definition is_update_config (op : operation) : bool :=
  match op with UpdateConfig _ => true | _ => false end.

Lemma layout_perform V c T op :
  is_update_config op = false →
  keeps (layout_is V c T) (perform op) (λ _, True).
Proof.
  destruct op; simpl; try done; intros _; repeat inv_step.
  - apply layout_update_traffic.
  - apply layout_create_incident.
  - apply layout_clear_incident.
Qed.

(** X23.  Ticks, incident creations and incident clearings, whether they
    return or raise, never change the vertices, the configuration, the
    number of edges or, of an edge, its id, end points, distance and
    direction: traffic moves on a fixed graph, which only
    [update_config] replaces. *)
Theorem traffic_leaves_layout_alone ops self :
  Forall (λ op, is_update_config op = false) ops →
  vertices (perform_all ops self) = vertices self ∧
  config (perform_all ops self) = config self ∧
  map layout (edges (perform_all ops self)) = map layout (edges self) ∧
  length (edges (perform_all ops self)) = length (edges self).
Proof.
  intros Hops.
  assert (H : layout_is (vertices self) (config self)
                (map layout (edges self)) (perform_all ops self)).
  { assert (H0 : layout_is (vertices self) (config self)
                   (map layout (edges self)) self) by done.
    revert H0. generalize (vertices self) (config self)
      (map layout (edges self)). intros V c T. revert self.
    induction Hops as [|op ops Hop Hops IH]; intros self H0; [done|].
    apply IH. by apply layout_perform. }
  destruct H as (HV & Hc & HT). split; [done|]. split; [done|].
  split; [done|]. by rewrite <- (length_map layout), HT, length_map.
Qed.

Lemma traffic_leaves_layout_alone_witness :
  let ops := [Tick; CreateIncident "edge_0" (1 # 2) 60000 None; Tick;
              ClearIncident "incident_21000_012345678"; Tick] in
  let self := one_road (1 # 2) in
  Forall (λ op, is_update_config op = false) ops ∧
  map layout (edges self)
    = [("edge_0", "node_0", "node_1", 50%Z, true)] ∧
  map layout (edges (perform_all ops self)) = map layout (edges self) ∧
  incidents (perform_all ops self) = [].
Proof.
  intros ops self.
  assert (Hops : Forall (λ op, is_update_config op = false) ops).
  { repeat constructor. }
  split; [exact Hops|]. split; [vm_compute; reflexivity|].
  split; [|vm_compute; reflexivity].
  exact (proj1 (proj2 (proj2 (traffic_leaves_layout_alone ops self Hops)))).
Defined.

(** ** Generation, stage by stage *)

Definition node_name (i : nat) : string := "node_" +:+ pretty i.

Definition intersection_name (i : nat) : string :=
  "Intersection " +:+ pretty (i + 1)%nat.

(** The loop that creates the vertices always returns. *)
Lemma vertex_loop_run (k : nat) : ∀ (a : nat) self,
  ∃ self',
    for_each (seq a k)
      (λ i,
         x ← random_random;
         y ← random_random;
         modify (λ self,
           set_vertices
             (vertices self ++
              [ {| Vertex.id := "node_" +:+ pretty i;
                   Vertex.name := "Intersection " +:+ pretty (i + 1)%nat;
                   Vertex.x := x * 800 + 50;
                   Vertex.y := y * 500 + 50 |} ])
             self)) self
    = (Returned tt, self') ∧
    config self' = config self ∧ edges self' = edges self ∧
    incidents self' = incidents self ∧
    update_count self' = update_count self ∧
    map Vertex.id (vertices self') =
      map Vertex.id (vertices self) ++ map node_name (seq a k) ∧
    map Vertex.name (vertices self') =
      map Vertex.name (vertices self) ++ map intersection_name (seq a k).
Proof.
  induction k as [|k IH]; intros a self.
  - exists self. simpl. by rewrite !app_nil_r.
  - cbn [seq for_each].
    unfold mbind at 1, M_bind at 1.
    unfold mbind at 1, M_bind at 1, random_random at 1.
    unfold mbind at 1, M_bind at 1, random_random at 1.
    unfold modify at 1.
    match goal with
    | |- context [ for_each _ _ ?st ] =>
        destruct (IH (S a) st) as (self' & Hrun & Hc & He & Hi & Hu & Hid & Hn)
    end.
    exists self'. rewrite Hrun. split; [done|].
    cbn [config edges incidents update_count vertices set_vertices set_world]
      in *.
    split; [done|]. split; [done|]. split; [done|]. split; [done|].
    rewrite Hid, Hn, !map_app, <- !app_assoc. done.
Qed.

(** The second stage of [_initialize_graph]: each node is joined to some
    of its nearest neighbours. *)
Definition connect_neighbours : M (gset string) :=
  self ← get;
  for_each_with (imap (λ i node_a, (i, node_a)) (vertices self))
    (λ (edge_set : gset string) '(i, node_a),
       self ← get;
       let distances :=
         sort_by_distance
           (distances_from (world self) (vertices self) i node_a) in
       r ← random_randint 0 2;
       let connect_count := (2 + r)%Z in
       for_each_with (take (Z.to_nat connect_count) distances)
         (λ (edge_set : gset string) '(j, distance),
            let edge_id := edge_key i j in
            if decide (edge_id ∈ edge_set) then mret edge_set
            else
              self ← get;
              u ← random_random;
              if Qltb u (road_density (config self) + (1 # 2))
              then
                match vertices self !! j with
                | None => mret edge_set
                | Some node_b =>
                    append_edge (Vertex.id node_a) (Vertex.id node_b) distance;;
                    mret ({[edge_id]} ∪ edge_set)
                end
              else mret edge_set)
         edge_set)
    ∅.

(** [_initialize_graph] creates the vertices, which cannot fail, empties
    the edge list, and then runs the two stages that add edges. *)
Lemma initialize_graph_stages self :
  ∃ s1,
    config s1 = config self ∧ incidents s1 = incidents self ∧
    update_count s1 = update_count self ∧ edges s1 = [] ∧
    map Vertex.id (vertices s1) =
      map node_name (seq 0 (Z.to_nat (node_count (config self)))) ∧
    map Vertex.name (vertices s1) =
      map intersection_name (seq 0 (Z.to_nat (node_count (config self)))) ∧
    _initialize_graph self =
      (connect_neighbours ≫= λ _, _ensure_connectivity) s1.
Proof.
  unfold _initialize_graph.
  unfold mbind at 1, M_bind at 1, modify at 1.
  unfold mbind at 1, M_bind at 1, get at 1.
  unfold mbind at 1, M_bind at 1.
  match goal with
  | |- context [ for_each (seq 0 ?n) _ ?st ] =>
      destruct (vertex_loop_run n 0 st)
        as (s0 & Hrun & Hc & He & Hi & Hu & Hid & Hn)
  end.
  rewrite Hrun.
  unfold mbind at 1, M_bind at 1, modify at 1.
  exists (set_edges [] s0).
  cbn [config edges incidents update_count vertices set_vertices set_edges]
    in *.
  repeat (split; [done|]). reflexivity.
Qed.

(** ** Edges join two different vertices *)

Definition joins (V : list Vertex.t) (e : Edge.t) : Prop :=
  In (Edge.from e) (map Vertex.id V) ∧ In (Edge.to e) (map Vertex.id V) ∧
  Edge.from e ≠ Edge.to e.

Definition built_on (V : list Vertex.t) : TrafficGenerator → Prop :=
  λ self, vertices self = V ∧ Forall (joins V) (edges self).

Lemma built_append_edge V from to d :
  (∀ q, d = Fin q →
     In from (map Vertex.id V) ∧ In to (map Vertex.id V) ∧ from ≠ to) →
  keeps (built_on V) (append_edge from to d) (λ _, True).
Proof.
  intros Hends. apply keeps_append_edge; [by intros ? ? ?|].
  intros q Hq self t r v [HV Hes] _ _. split; [done|]. simpl.
  apply Forall_app. split; [done|]. constructor; [|constructor].
  by apply Hends with q.
Qed.

Lemma keeps_for_each_with_In {A B} I (l : list A) (body : B → A → M B) (b : B) :
  (∀ b a, In a l → keeps I (body b a) (λ _, True)) →
  keeps I (for_each_with l body b) (λ _, True).
Proof.
  revert b. induction l as [|a l IH]; intros b Hb; simpl.
  - by apply keeps_ret.
  - eapply keeps_bind; [apply Hb; by left|]. intros b' _.
    apply IH. intros b'' a' Ha'. apply Hb. by right.
Qed.

Lemma In_insert_by_distance x y l :
  In x (insert_by_distance y l) → x = y ∨ In x l.
Proof.
  induction l as [|z l IH]; simpl.
  - intros [->|[]]. by left.
  - destruct (float_ltb (snd y) (snd z)); simpl.
    + intros [->|[->|H]]; [by left | right; by left | right; by right].
    + intros [->|H]; [right; by left|].
      destruct (IH H) as [->|?]; [by left | right; by right].
Qed.

Lemma In_sort_by_distance x l : In x (sort_by_distance l) → In x l.
Proof.
  unfold sort_by_distance.
  assert (H : ∀ l acc, In x (foldl (λ acc y, insert_by_distance y acc) acc l) →
                       In x acc ∨ In x l).
  { clear l. induction l as [|y l IH]; intros acc; simpl; [tauto|].
    intros Hx. destruct (IH _ Hx) as [Hx'|Hx']; [|tauto].
    destruct (In_insert_by_distance _ _ _ Hx') as [->|?];
      [right; by left | by left]. }
  intros Hx. by destruct (H _ _ Hx).
Qed.

Lemma In_take {A} (x : A) (n : nat) l : In x (take n l) → In x l.
Proof.
  intros Hx. rewrite <- (take_drop n l). apply in_or_app. by left.
Qed.

Lemma In_imap_pair {A} (i : nat) (a : A) l :
  In (i, a) (imap (λ i a, (i, a)) l) → l !! i = Some a.
Proof.
  intros H%list_elem_of_In. apply elem_of_lookup_imap in H
    as (i' & a' & [= -> ->] & Hl). done.
Qed.

Lemma In_distances_from w V (i j : nat) node_a d :
  In (j, d) (distances_from w V i node_a) →
  ∃ node_b, V !! j = Some node_b ∧ (i = j → d = Inf).
Proof.
  unfold distances_from. intros H%list_elem_of_In.
  apply elem_of_lookup_imap in H as (j' & node_b & Heq & Hl).
  destruct (decide (i = j')) as [->|Hne]; injection Heq as -> ->.
  - by exists node_b.
  - exists node_b. split; [done|]. by intros ->.
Qed.

Lemma lookup_id_In (V : list Vertex.t) (i : nat) v :
  V !! i = Some v → In (Vertex.id v) (map Vertex.id V).
Proof.
  intros H. apply in_map, list_elem_of_In. by eapply list_elem_of_lookup_2.
Qed.

Lemma built_connect_neighbours V :
  NoDup (map Vertex.id V) →
  keeps (built_on V) connect_neighbours (λ _, True).
Proof.
  intros Hnd. unfold connect_neighbours.
  eapply keeps_bind; [apply keeps_get|]. intros self0 [HV0 _].
  apply keeps_for_each_with_In. intros edge_set [i node_a] Hi.
  apply In_imap_pair in Hi. rewrite HV0 in Hi.
  eapply keeps_bind; [apply keeps_get|]. intros self1 [HV1 _].
  inv_step; [inv_step|].
  apply keeps_for_each_with_In. intros edge_set' [j distance] Hj.
  apply In_take, In_sort_by_distance, In_distances_from in Hj
    as (node_b & Hb & Hinf). rewrite HV1 in Hb.
  cbn zeta. destruct (decide (edge_key i j ∈ edge_set')); [inv_step|].
  eapply keeps_bind; [apply keeps_get|]. intros self2 [HV2 _].
  inv_step; [inv_step|]. inv_step; [|inv_step].
  rewrite HV2, Hb. inv_step; [|inv_step].
  apply built_append_edge. intros q ->.
  split; [by eapply lookup_id_In|]. split; [by eapply lookup_id_In|].
  intros Heq. assert (i = j); [|by specialize (Hinf ltac:(done))].
  apply (NoDup_lookup (Vertex.id <$> V) i j (Vertex.id node_a)); [done| |].
  - by rewrite list_lookup_fmap, Hi.
  - by rewrite list_lookup_fmap, Hb, Heq.
Qed.

Lemma nearest_connected_Some w (cn : gset string) vertex vs n d :
  nearest_connected w cn vertex vs = (Some n, d) →
  In n vs ∧ Vertex.id n ∈ cn.
Proof.
  unfold nearest_connected.
  assert (H : ∀ vs (acc : option Vertex.t * float),
    foldl (λ '(nearest, min_dist) other,
             if decide (Vertex.id other ∈ cn)
             then
               let dist := euclidean w vertex other in
               if float_ltb (Fin dist) min_dist
               then (Some other, Fin dist)
               else (nearest, min_dist)
             else (nearest, min_dist)) acc vs = (Some n, d) →
    (∃ d0, acc = (Some n, d0)) ∨ (In n vs ∧ Vertex.id n ∈ cn)).
  { clear vs. induction vs as [|v vs IH]; intros acc; cbn [foldl]; [eauto|].
    intros Hf. destruct (IH _ Hf) as [[d0 Hacc]|[Hin Hcn]];
      [|right; split; [by right | done]].
    destruct acc as [nearest min_dist]. cbn -[float_ltb] in Hacc.
    destruct (decide (Vertex.id v ∈ cn)) as [Hv|Hv]; [|eauto].
    destruct (float_ltb _ min_dist); [|eauto].
    injection Hacc as -> _. right. by split; [left|]. }
  intros Hf. by destruct (H _ _ Hf) as [[d0 [=]]|].
Qed.

Lemma built_ensure_connectivity V :
  keeps (built_on V) _ensure_connectivity (λ _, True).
Proof.
  unfold _ensure_connectivity.
  eapply keeps_bind; [apply keeps_get|]. intros self0 [HV0 _].
  inv_step; [|inv_step].
  apply keeps_for_each_with_In. intros cn vertex Hv. rewrite HV0 in Hv.
  unfold connect_if_isolated.
  destruct (decide (Vertex.id vertex ∈ cn)) as [Hcn|Hcn]; [inv_step|].
  eapply keeps_bind; [apply keeps_get|]. intros self1 [HV1 _].
  destruct (nearest_connected _ _ _ _) as [[nearest|] min_dist] eqn:Hnear;
    [|inv_step].
  apply nearest_connected_Some in Hnear as [Hin Hn]. rewrite HV1 in Hin.
  inv_step; [|inv_step]. apply built_append_edge. intros q _.
  split; [by apply in_map|]. split; [by apply in_map|].
  intros Heq. apply Hcn. by rewrite Heq.
Qed.

Lemma node_name_inj : Inj (=) (=) node_name.
Proof.
  intros a b H. unfold node_name in H.
  apply (inj pretty). by apply (inj (String.append "node_")).
Qed.

Lemma node_names_NoDup (n : nat) : NoDup (map node_name (seq 0 n)).
Proof. apply (NoDup_fmap_2 node_name), NoDup_seq. Qed.

(** What generation leaves behind, whatever the generator was before and
    whether generation returns or raises. *)
Lemma initialize_graph_structure self :
  let self' := snd (_initialize_graph self) in
  config self' = config self ∧
  map Vertex.id (vertices self') =
    map node_name (seq 0 (Z.to_nat (node_count (config self)))) ∧
  map Vertex.name (vertices self') =
    map intersection_name (seq 0 (Z.to_nat (node_count (config self)))) ∧
  Forall (joins (vertices self')) (edges self').
Proof.
  destruct (initialize_graph_stages self)
    as (s1 & Hc & _ & _ & He & Hid & Hn & Heq).
  destruct (initialize_graph_frame self) as (Hc' & _).
  assert (Hk : keeps (built_on (vertices s1))
                 (connect_neighbours ≫= λ _, _ensure_connectivity)
                 (λ _, True)).
  { eapply keeps_bind.
    - apply built_connect_neighbours. rewrite Hid. apply node_names_NoDup.
    - intros _ _. apply built_ensure_connectivity. }
  destruct (Hk s1) as [[HV Hes] _]; [split; [done|]; rewrite He; constructor|].
  cbn zeta. rewrite Heq in *. rewrite HV. by repeat split.
Qed.

(** ** The shape of every generator *)

Definition structure_ok (self : TrafficGenerator) : Prop :=
  map Vertex.id (vertices self) =
    map node_name (seq 0 (Z.to_nat (node_count (config self)))) ∧
  map Vertex.name (vertices self) =
    map intersection_name (seq 0 (Z.to_nat (node_count (config self)))) ∧
  Forall (joins (vertices self)) (edges self).

Lemma structure_after_generation self :
  structure_ok (snd (_initialize_graph self)).
Proof.
  destruct (initialize_graph_structure self) as (Hc & Hid & Hn & Hes).
  unfold structure_ok. by rewrite Hc.
Qed.

Lemma joins_layout V (es es' : list Edge.t) :
  map layout es' = map layout es → Forall (joins V) es → Forall (joins V) es'.
Proof.
  revert es'. induction es as [|e es IH]; intros [|e' es']; simpl;
    try done.
  intros [= Hid Hfrom Hto _ _ Hes] Hall.
  apply Forall_cons in Hall as [(H1 & H2 & H3) Hall].
  constructor; [|by apply IH].
  unfold joins. by rewrite Hfrom, Hto.
Qed.

Lemma structure_layout self self' :
  structure_ok self →
  layout_is (vertices self) (config self) (map layout (edges self)) self' →
  structure_ok self'.
Proof.
  intros (Hid & Hn & Hes) (HV & Hc & HT). unfold structure_ok.
  rewrite HV, Hc. split; [done|]. split; [done|]. by eapply joins_layout.
Qed.

Lemma structure_set_config c self :
  node_count c = node_count (config self) →
  structure_ok self → structure_ok (set_config c self).
Proof. intros Hc (Hid & Hn & Hes). unfold structure_ok. simpl. by rewrite Hc. Qed.

Lemma structure_update_config new_config self :
  structure_ok self → structure_ok (snd (update_config new_config self)).
Proof.
  intros Hok.
  unfold update_config, mbind, M_bind, get, modify, mret, M_ret.
  destruct (new_node_count new_config) as [n|];
    [destruct (Z.eqb_spec n (node_count (config self)))|];
    destruct (new_road_density new_config) as [d|]; cbn [fst snd];
    try match goal with
        | |- context [ _initialize_graph ?s ] =>
            pose proof (structure_after_generation s) as Hs;
            destruct (_initialize_graph s) as [[[]| |] s2]
        end;
    cbn [fst snd] in *; try done; by apply structure_set_config.
Qed.

Lemma structure_perform op self :
  structure_ok self → structure_ok (snd (perform op self)).
Proof.
  intros Hok. destruct (is_update_config op) eqn:Hop.
  - destruct op; try done. by apply structure_update_config.
  - apply (structure_layout self); [done|].
    by apply (layout_perform _ _ _ op Hop).
Qed.

Lemma structure_reachable config w ops :
  structure_ok (perform_all ops (snd (__init__ config w))).
Proof.
  assert (Hall : ∀ ops self, structure_ok self →
                             structure_ok (perform_all ops self)).
  { clear ops. induction ops as [|op ops IH]; intros self HI; [done|].
    apply IH. by apply structure_perform. }
  apply Hall. unfold __init__. apply structure_after_generation.
Qed.

(** X24.  In every generator a client can observe, initially and after
    any sequence of operations, both end points of every edge are ids of
    vertices of the graph, and they are two different vertices: there is
    no dangling edge and no self-loop. *)
Theorem edges_join_two_vertices config w ops :
  let self := perform_all ops (snd (__init__ config w)) in
  Forall (λ e, In (Edge.from e) (map Vertex.id (vertices self)) ∧
               In (Edge.to e) (map Vertex.id (vertices self)) ∧
               Edge.from e ≠ Edge.to e)
         (edges self).
Proof. by destruct (structure_reachable config w ops) as (_ & _ & H). Qed.

(** Looking an item up by a name that encodes its position. *)
Lemma find_by_position {A} (name : nat → string) (id : A → string) (l : list A) :
  Inj (=) (=) name →
  ∀ a k : nat, map id l = map name (seq a (length l)) →
    List.find (λ x, String.eqb (id x) (name k)) l =
    if (k <? a)%nat then None else l !! (k - a)%nat.
Proof.
  intros Hinj. induction l as [|x l IH]; intros a k; simpl.
  - intros _. by destruct (k <? a)%nat.
  - intros [= Hx Hl]. rewrite Hx, (IH (S a) k Hl).
    destruct (String.eqb (name a) (name k)) eqn:Heq.
    + apply String.eqb_eq, Hinj in Heq as ->.
      by rewrite Nat.ltb_irrefl, Nat.sub_diag.
    + apply String.eqb_neq in Heq.
      assert (a ≠ k) by (intros ->; done).
      destruct (k <? S a)%nat eqn:H1, (k <? a)%nat eqn:H2;
        rewrite ?Nat.ltb_lt, ?Nat.ltb_ge in *; try lia; [done|].
      replace (k - a)%nat with (S (k - S a)) by lia. done.
Qed.

(** X25.  In every generator a client can observe there are
    max(0, [node_count]) vertices, the vertex at position [k] has id
    "node_k" and name "Intersection k+1", and [get_vertex_data] finds the
    vertex of an id "node_k" at position [k] (and nothing when there are
    not that many vertices). *)
Theorem vertices_are_numbered config w ops (k : nat) :
  let self := perform_all ops (snd (__init__ config w)) in
  length (vertices self) = Z.to_nat (node_count (TrafficApi.config self)) ∧
  map Vertex.id (vertices self) =
    map (λ i, "node_" +:+ pretty i) (seq 0 (length (vertices self))) ∧
  map Vertex.name (vertices self) =
    map (λ i, "Intersection " +:+ pretty (i + 1)%nat)
        (seq 0 (length (vertices self))) ∧
  get_vertex_data ("node_" +:+ pretty k) self = vertices self !! k.
Proof.
  intros self. destruct (structure_reachable config w ops) as (Hid & Hn & _).
  fold self in Hid, Hn.
  assert (Hlen : length (vertices self)
                 = Z.to_nat (node_count (TrafficApi.config self))).
  { by rewrite <- (length_map Vertex.id), Hid, length_map, length_seq. }
  rewrite Hlen. split; [done|]. split; [done|]. split; [done|].
  unfold get_vertex_data. change ("node_" +:+ pretty k) with (node_name k).
  rewrite (find_by_position node_name Vertex.id (vertices self)
             node_name_inj 0 k) by by rewrite Hlen.
  by rewrite Nat.sub_0_r.
Qed.

(** X26.  In every generator a client can observe the edge at position
    [k] has id "edge_k": [get_edge_data] finds the edge of an id
    "edge_k" at position [k], and nothing when there are not that many
    edges. *)
Theorem get_edge_data_by_number config w ops (k : nat) :
  let self := perform_all ops (snd (__init__ config w)) in
  map Edge.id (edges self) =
    map (λ i, "edge_" +:+ pretty i) (seq 0 (length (edges self))) ∧
  get_edge_data ("edge_" +:+ pretty k) self = edges self !! k.
Proof.
  intros self. destruct (graph_ok_reachable config w ops) as [_ Hid].
  fold self in Hid. split; [done|]. unfold get_edge_data.
  change ("edge_" +:+ pretty k) with (edge_name k).
  rewrite (find_by_position edge_name Edge.id (edges self)
             edge_name_inj 0 k) by done.
  by rewrite Nat.sub_0_r.
Qed.

(** ** The repair pass, when there is nothing to attach to *)

Lemma nearest_connected_empty w vertex vs :
  nearest_connected w ∅ vertex vs = (None, Inf).
Proof.
  unfold nearest_connected. induction vs as [|v vs IH]; [done|].
  cbn [foldl]. by rewrite decide_False by apply not_elem_of_empty.
Qed.

Lemma repair_loop_empty (l : list Vertex.t) : ∀ self,
  for_each_with l connect_if_isolated ∅ self = (Returned ∅, self).
Proof.
  induction l as [|v l IH]; intros self; [done|].
  cbn [for_each_with]. unfold mbind at 1, M_bind at 1.
  unfold connect_if_isolated.
  rewrite decide_False by apply not_elem_of_empty.
  unfold mbind at 1, M_bind at 1, get at 1.
  rewrite nearest_connected_empty. cbn [mret M_ret]. apply IH.
Qed.

Lemma ensure_connectivity_no_edges self :
  edges self = [] → _ensure_connectivity self = (Returned tt, self).
Proof.
  intros He. unfold _ensure_connectivity.
  unfold mbind at 1, M_bind at 1, get at 1. rewrite He.
  change (endpoints []) with (∅ : gset string).
  unfold mbind, M_bind. by rewrite repair_loop_empty.
Qed.

(** X27.  A generation that returns and leaves at least one edge leaves
    no vertex isolated: every vertex is an end point of some edge.  (A
    generation that leaves no edge leaves every vertex isolated, see
    [generation_can_leave_vertices_isolated].) *)
Theorem generation_with_an_edge_connects_all self self' :
  _initialize_graph self = (Returned tt, self') →
  edges self' ≠ [] →
  ∀ v, In v (vertices self') →
    ∃ e, In e (edges self') ∧
         (Edge.from e = Vertex.id v ∨ Edge.to e = Vertex.id v).
Proof.
  intros Hrun Hne.
  destruct (initialize_graph_stages self)
    as (s1 & _ & _ & _ & He & Hid & _ & Heq).
  rewrite Heq in Hrun. unfold mbind, M_bind in Hrun.
  pose proof (built_connect_neighbours (vertices s1)) as Hk.
  destruct (Hk ltac:(rewrite Hid; apply node_names_NoDup) s1) as [[HV Hes] _].
  { split; [done|]. rewrite He. constructor. }
  destruct (connect_neighbours s1) as [[cn| |] s2]; try discriminate.
  cbn [snd] in *.
  destruct (edges s2) as [|e es] eqn:Hedges.
  { rewrite ensure_connectivity_no_edges in Hrun by done.
    injection Hrun as <-. by rewrite Hedges in Hne. }
  apply Forall_cons in Hes as [(Hfrom & _ & _) _].
  apply in_map_iff in Hfrom as (v0 & Hv0 & Hin0).
  destruct (ensure_connectivity_repairs s2) as (s3 & Hrun3 & _ & Hall).
  { exists v0. split; [by rewrite HV|]. apply elem_of_endpoints.
    exists e. rewrite Hedges. split; [by left | by left]. }
  rewrite Hrun3 in Hrun. by injection Hrun as <-.
Qed.

Lemma returned_pair {A B} (p : A * B) a : fst p = a → p = (a, snd p).
Proof. destruct p. simpl. by intros ->. Qed.

Lemma generation_with_an_edge_connects_all_witness :
  let self :=
    {| config :=
         {| node_count := 2; update_interval := 30000;
            base_traffic_level := 15 # 100; traffic_variability := 35 # 100;
            incident_probability := 1 # 100000; road_density := 3 # 10 |};
       vertices := []; edges := []; incidents := []; update_count := 0;
       world := example_world [0; 0; 3 # 8; 4 # 5; 0; 0; 1 # 2; 1 # 2]
                              (9 # 10) |} in
  let self' := snd (_initialize_graph self) in
  _initialize_graph self = (Returned tt, self') ∧ edges self' ≠ [] ∧
  map Vertex.id (vertices self') = ["node_0"; "node_1"] ∧
  map (λ e, (Edge.from e, Edge.to e)) (edges self')
    = [("node_0", "node_1")] ∧
  ∀ v, In v (vertices self') →
    ∃ e, In e (edges self') ∧
         (Edge.from e = Vertex.id v ∨ Edge.to e = Vertex.id v).
Proof.
  intros self self'.
  assert (Hfst : fst (_initialize_graph self) = Returned tt)
    by (vm_compute; reflexivity).
  assert (Hrun : _initialize_graph self = (Returned tt, self'))
    by exact (returned_pair (_initialize_graph self) (Returned tt) Hfst).
  assert (Hlen : length (edges self') = 1%nat) by (vm_compute; reflexivity).
  assert (Hv : map Vertex.id (vertices self') = ["node_0"; "node_1"])
    by (vm_compute; reflexivity).
  assert (He : map (λ e, (Edge.from e, Edge.to e)) (edges self')
               = [("node_0", "node_1")]) by (vm_compute; reflexivity).
  clearbody self'. clearbody self.
  assert (Hne : edges self' ≠ []).
  { intros H. rewrite H in Hlen. discriminate. }
  split; [exact Hrun|]. split; [exact Hne|]. split; [exact Hv|].
  split; [exact He|].
  exact (generation_with_an_edge_connects_all self self' Hrun Hne).
Defined.

(** ** Incident flags and the list of incidents *)

(** Every edge flagged with an incident is named by an incident of the
    list. *)
Definition flag_ok (self : TrafficGenerator) : Prop :=
  ∀ e, In e (edges self) → Edge.isIncident e = true →
    ∃ incident, In incident (incidents self) ∧
                Incident.edgeId incident = Edge.id e.

(** The same, for a generator whose edges carry the ids [ids]. *)
Definition flagged_on (ids : list string) : TrafficGenerator → Prop :=
  λ self, map Edge.id (edges self) = ids ∧ flag_ok self.

(** [create_incident] either refuses, and changes nothing, or returns. *)
Lemma create_incident_outcome edge_id severity duration incident_type self :
  (∃ msg, create_incident edge_id severity duration incident_type self =
            (Raised (ValueError msg), self)) ∨
  (∃ (i : nat) edge incident w,
     find_edge edge_id (edges self) = Some i ∧
     edges self !! i = Some edge ∧ Edge.id edge = edge_id ∧
     create_incident edge_id severity duration incident_type self =
       (Returned incident,
        {| config := config self; vertices := vertices self;
           edges :=
             incident_effect i (float_max 0 (float_min 1 severity))
                             (edges self);
           incidents := incidents self ++ [incident];
           update_count := update_count self; world := w |}) ∧
     Incident.edgeId incident = edge_id).
Proof.
  destruct (find_edge edge_id (edges self)) as [i|] eqn:Hfind.
  2: { left. unfold create_incident, mbind, M_bind, get. rewrite Hfind.
       by eexists. }
  destruct (find_edge_Some _ _ _ Hfind) as (edge & Hi & Hid).
  destruct (Edge.isIncident edge) eqn:Hflag.
  { left. unfold create_incident, mbind, M_bind, get.
    rewrite Hfind, Hi, Hflag. by eexists. }
  right.
  destruct (create_incident_run edge_id severity duration incident_type
              self i edge Hfind Hi Hflag) as (incident & w & Hr & _ & Heid).
  by exists i, edge, incident, w.
Qed.

Lemma flag_create_incident ids edge_id severity duration incident_type :
  NoDup ids →
  keeps (flagged_on ids)
        (create_incident edge_id severity duration incident_type) (λ _, True).
Proof.
  intros Hnd self [Hids Hflag]. split; [|done].
  destruct (create_incident_outcome edge_id severity duration incident_type
              self)
    as [(msg & ->)|(i & edge & incident & w & Hfind & Hi & Hid & -> & Heid)];
    [done|].
  split; simpl; [by rewrite incident_effect_ids|].
  intros e' He' Hfl'. simpl in *.
  destruct (In_lookup_edge _ e' He') as [j Hj].
  assert (Hlt : (j < length (edges self))%nat).
  { apply lookup_lt_Some in Hj.
    by rewrite <- (length_map Edge.id), incident_effect_ids, length_map in Hj. }
  destruct (lookup_lt_is_Some_2 _ _ Hlt) as [e0 He0].
  rewrite <- Hids in Hnd.
  rewrite (incident_effect_at _ i j _ edge e0 Hnd Hi He0) in Hj.
  injection Hj as <-. unfold after_incident in *.
  destruct (decide (j = i)) as [->|Hne].
  - exists incident. split; [apply in_or_app; right; by left|].
    simpl. rewrite Hi in He0. injection He0 as <-. by rewrite Heid.
  - assert (He0' : In e0 (edges self)).
    { apply list_elem_of_In. by eapply list_elem_of_lookup_2. }
    assert (Hsame : Edge.isIncident e0 = true ∧
                    Edge.id (if shares_endpoint edge e0
                             then raise_weight
                                    (float_max 0 (float_min 1 severity)
                                     * (5 # 10)) e0
                             else e0) = Edge.id e0).
    { by destruct (shares_endpoint edge e0). }
    destruct Hsame as [Hfl0 ->].
    destruct (Hflag e0 He0' Hfl0) as (inc & Hinc & Hinc').
    exists inc. split; [apply in_or_app; by left | done].
Qed.

Lemma Incident_eqb_edgeId a b :
  Incident.eqb a b = true → Incident.edgeId a = Incident.edgeId b.
Proof.
  unfold Incident.eqb. rewrite !andb_true_iff.
  intros [[[[[[[[_ H] _] _] _] _] _] _] _]. by apply String.eqb_eq.
Qed.

Lemma list_remove_other a l x :
  In x l → Incident.edgeId x ≠ Incident.edgeId a → In x (list_remove a l).
Proof.
  intros Hx Hne. induction l as [|y l IH]; simpl; [done|].
  destruct (Incident.eqb y a) eqn:Heq.
  - destruct Hx as [->|Hx]; [|done].
    by apply Incident_eqb_edgeId in Heq.
  - destruct Hx as [->|Hx]; [by left | right; by apply IH].
Qed.

Lemma flag_clear_incident ids incident_id :
  NoDup ids →
  keeps (flagged_on ids) (clear_incident incident_id) (λ _, True).
Proof.
  intros Hnd self [Hids Hflag]. split; [|done].
  rewrite clear_incident_run.
  destruct (List.find _ (incidents self)) as [incident|]; [|done].
  rewrite <- Hids in Hnd. cbn [snd].
  destruct (find_edge (Incident.edgeId incident) (edges self)) as [i|]
    eqn:Hfind.
  - destruct (find_edge_Some _ _ _ Hfind) as (edge & Hi & Hid).
    split; simpl; [by rewrite map_alter_same|].
    intros e' He' Hfl'. simpl in *.
    destruct (In_lookup_edge _ e' He') as [j Hj].
    rewrite list_lookup_alter in Hj.
    destruct (decide (i = j)) as [->|Hne].
    { rewrite Hi in Hj. injection Hj as <-. discriminate. }
    assert (He0 : In e' (edges self)).
    { apply list_elem_of_In. by eapply list_elem_of_lookup_2. }
    destruct (Hflag e' He0 Hfl') as (inc & Hinc & Hinc').
    exists inc. split; [|done]. apply list_remove_other; [done|].
    rewrite Hinc', <- Hid. intros Heq. apply Hne.
    by apply (lookup_same_id _ _ _ _ _ Hnd Hi Hj).
  - split; simpl; [done|]. intros e' He' Hfl'. simpl in *.
    destruct (Hflag e' He' Hfl') as (inc & Hinc & Hinc').
    exists inc. split; [|done]. apply list_remove_other; [done|].
    rewrite Hinc'. intros Heq. apply find_edge_None in Hfind.
    apply Hfind. rewrite <- Heq. by apply in_map.
Qed.

(** An edge as it was, or with its incident flags reset. *)
Definition same_or_reset (e0 e : Edge.t) : Prop :=
  e = e0 ∨ e = Edge.set_incident false 0 e0.

Lemma reset_keeps_same_or_reset es0 incident :
  keeps (on_edges (Forall2 same_or_reset es0)) (reset_edge_of incident)
        (λ _, True).
Proof.
  unfold reset_edge_of. repeat inv_step.
  apply keeps_modify. intros self HI. unfold on_edges in *. simpl.
  apply Forall2_alter_r; [done|]. intros e0 e _ _ [->| ->]; by right.
Qed.

Lemma update_incidents_same_or_reset es0 :
  keeps (on_edges (Forall2 same_or_reset es0)) _update_incidents (λ _, True).
Proof.
  unfold _update_incidents. repeat inv_step.
  - apply keeps_for_each_with. intros acc incident. repeat inv_step.
    apply reset_keeps_same_or_reset.
  - apply keeps_for_each. intros incident. by apply keeps_modify.
Qed.

Lemma flag_update_incidents ids :
  NoDup ids → keeps (flagged_on ids) _update_incidents (λ _, True).
Proof.
  intros Hnd self [Hids Hflag]. split; [|done].
  destruct (update_incidents_run self) as (es' & w & Hrun & Hids' & Hclr).
  pose proof (update_incidents_same_or_reset (edges self) self) as [Hsame _].
  { unfold on_edges. apply Forall2_same_length_lookup. split; [done|].
    intros j e e' He He'. left. congruence. }
  rewrite Hrun in *. unfold on_edges in Hsame. cbn [snd edges] in *.
  rewrite <- Hids in Hnd.
  split; simpl; [congruence|].
  intros e' He' Hfl'. simpl in *.
  destruct (In_lookup_edge _ e' He') as [j Hj].
  destruct (Forall2_lookup_r _ _ _ _ _ Hsame Hj) as (e0 & He0 & [->| ->]);
    [|discriminate].
  assert (Hin0 : In e0 (edges self)).
  { apply list_elem_of_In. by eapply list_elem_of_lookup_2. }
  destruct (Hflag e0 Hin0 Hfl') as (inc & Hinc & Hinc').
  exists inc. split; [|done]. apply filter_In. split; [done|].
  destruct (expired (clock_ms (world self) 0) inc) eqn:Hexp; [|done].
  exfalso.
  destruct (Hclr inc j Hinc Hexp) as (e1 & He1 & Hfl1 & _).
  { rewrite Hinc'. by apply find_edge_NoDup. }
  rewrite Hj in He1. injection He1 as <-. congruence.
Qed.

Lemma flag_update_edge ids (i : nat) f :
  (∀ e, Edge.id (f e) = Edge.id e) →
  (∀ e, Edge.isIncident (f e) = Edge.isIncident e) →
  keeps (flagged_on ids) (update_edge i f) (λ _, True).
Proof.
  intros Hid Hfl. apply keeps_modify. intros self [Hids Hflag].
  split; simpl; [by rewrite map_alter_same|].
  intros e' He' Hfl'. simpl in *.
  destruct (In_lookup_edge _ e' He') as [j Hj].
  rewrite list_lookup_alter in Hj.
  assert (∃ e0, In e0 (edges self) ∧ Edge.id e' = Edge.id e0 ∧
                Edge.isIncident e0 = true) as (e0 & He0 & Hid0 & Hfl0).
  { destruct (decide (i = j)) as [->|Hne].
    - destruct (edges self !! j) as [e0|] eqn:He0; [|done].
      injection Hj as <-. exists e0. rewrite Hid, <- Hfl.
      split; [|done]. apply list_elem_of_In. by eapply list_elem_of_lookup_2.
    - exists e'. split; [|done]. apply list_elem_of_In.
      by eapply list_elem_of_lookup_2. }
  destruct (Hflag e0 He0 Hfl0) as (inc & Hinc & Hinc').
  exists inc. split; [done | congruence].
Qed.

Lemma flag_update_edge_traffic ids m (i : nat) :
  NoDup ids → keeps (flagged_on ids) (update_edge_traffic m i) (λ _, True).
Proof.
  intros Hnd. unfold update_edge_traffic. repeat inv_step;
    first [by apply flag_update_edge | by apply flag_create_incident].
Qed.

Lemma flag_update_traffic ids :
  NoDup ids → keeps (flagged_on ids) _update_traffic (λ _, True).
Proof.
  intros Hnd. unfold _update_traffic, update_all_edges. repeat inv_step.
  - by apply keeps_modify.
  - apply keeps_for_each. intros i. by apply flag_update_edge_traffic.
  - by apply flag_update_incidents.
Qed.

Lemma flag_initialize_graph : keeps flag_ok _initialize_graph (λ _, True).
Proof.
  apply inv_initialize_graph.
  - by intros w self HI.
  - by intros vs self HI.
  - by intros self HI e [].
  - intros self from to t r v HI _ _ e He Hfl. simpl in *.
    apply in_app_or in He as [He|[<-|[]]]; [by apply HI | done].
Qed.

Lemma flag_update_config new_config :
  keeps flag_ok (update_config new_config) (λ _, True).
Proof.
  unfold update_config. repeat inv_step;
    try (by apply keeps_modify); apply flag_initialize_graph.
Qed.

Lemma flag_perform op self :
  NoDup (map Edge.id (edges self)) → flag_ok self →
  flag_ok (snd (perform op self)).
Proof.
  intros Hnd Hflag.
  assert (Hon : flagged_on (map Edge.id (edges self)) self) by done.
  destruct op; simpl.
  - by apply (flag_update_traffic _ Hnd self Hon).
  - unfold mbind, M_bind.
    pose proof (flag_create_incident _ edge_id severity duration incident_type
                  Hnd self Hon) as [[_ H] _].
    by destruct (create_incident _ _ _ _ self) as [[?| |] ?].
  - unfold mbind, M_bind.
    pose proof (flag_clear_incident _ incident_id Hnd self Hon) as [[_ H] _].
    by destruct (clear_incident _ self) as [[?| |] ?].
  - by apply flag_update_config.
Qed.

(** X28.  In every generator a client can observe, initially and after
    any sequence of operations, every edge whose [isIncident] is set is
    the edge of some incident of the list.  (The converse does not hold:
    [update_config] regenerates the edges and keeps the incidents.) *)
Theorem flagged_edges_have_an_incident config w ops :
  let self := perform_all ops (snd (__init__ config w)) in
  Forall (λ e, Edge.isIncident e = true →
               ∃ incident, In incident (incidents self) ∧
                           Incident.edgeId incident = Edge.id e)
         (edges self).
Proof.
  assert (Hall : ∀ ops self, graph_ok self → flag_ok self →
                             flag_ok (perform_all ops self)).
  { clear ops. induction ops as [|op ops IH]; intros self Hg Hf; [done|].
    apply IH; [by apply keeps_perform|].
    apply flag_perform; [by apply edges_ok_NoDup | done]. }
  intros self. apply Forall_forall. intros e He%list_elem_of_In.
  apply Hall; [apply graph_ok_init | | done].
  unfold __init__. apply flag_initialize_graph. by intros ? [].
Qed.

(** ** A tick without a new incident *)

Definition synced (e : Edge.t) : Prop :=
  Edge.speed e = _calculate_speed (Edge.weight e).

(** [Inv] holds and no draw to come falls below [p]. *)
Definition quiet (Inv : TrafficGenerator → Prop) (p : Q) :
  TrafficGenerator → Prop :=
  λ self, Inv self ∧ ∀ n, p <= random_draws (world self) n.

Lemma total_quiet_random {B} Inv p (k : Q → M B) Q :
  world_free Inv →
  (∀ u, p <= u → total (quiet Inv p) (k u) Q) →
  total (quiet Inv p) (random_random ≫= k) Q.
Proof.
  intros HInv Hk self [HI Hq].
  destruct (Hk (random_draws (world self) 0) (Hq 0%nat)
              (snd (random_random self))) as (b & self' & Hrun & HQ).
  { split; [by apply HInv|]. intros n. apply (Hq (S n)). }
  exists b, self'. split; [|done]. unfold mbind, M_bind. simpl. exact Hrun.
Qed.

Lemma total_quiet_randint {B} Inv p a b (k : Z → M B) Q :
  world_free Inv →
  (∀ r, total (quiet Inv p) (k r) Q) →
  total (quiet Inv p) (random_randint a b ≫= k) Q.
Proof.
  intros HInv Hk. unfold random_randint.
  intros self Hself.
  destruct (total_quiet_random Inv p
              (λ u, k (Z.max a (Z.min b (a + Qfloor (u * inject_Z (b - a + 1))))))
              Q HInv (λ u _, Hk _) self Hself) as (r & self' & Hrun & HQ).
  exists r, self'. split; [|done]. revert Hrun.
  unfold mbind, M_bind, random_random, mret, M_ret. simpl. done.
Qed.

Lemma total_quiet_modify {B} Inv Inv' p f (k : unit → M B) Q :
  (∀ self, world (f self) = world self) →
  (∀ self, Inv self → Inv' (f self)) →
  total (quiet Inv' p) (k tt) Q →
  total (quiet Inv p) (modify f ≫= k) Q.
Proof.
  intros Hw Hf Hk. eapply total_modify_bind; [|exact Hk].
  intros self [HI Hq]. split; [by apply Hf|]. by rewrite Hw.
Qed.

Lemma total_for_each_seq (Inv : nat → TrafficGenerator → Prop)
    (body : nat → M unit) : ∀ (n k : nat),
  (∀ i : nat, (k ≤ i < k + n)%nat →
     total (Inv i) (body i) (λ _, Inv (S i))) →
  total (Inv k) (for_each (seq k n) body) (λ _, Inv (k + n)%nat).
Proof.
  induction n as [|n IH]; intros k Hb; simpl.
  - apply total_ret. intros self. by rewrite Nat.add_0_r.
  - eapply total_bind; [apply Hb; lia|]. intros [].
    replace (k + S n)%nat with (S k + n)%nat by lia.
    apply IH. intros i Hi. apply Hb. lia.
Qed.

(** What the edge loop has established when it comes to edge [k]: the
    configuration, the incidents and the number of edges are those of the
    start, and the edges before [k] have the speed of their weight. *)
Definition synced_below (c : Config) (inc : list Incident.t) (L k : nat) :
  TrafficGenerator → Prop :=
  λ self, config self = c ∧ incidents self = inc ∧ length (edges self) = L ∧
          ∀ (j : nat) e, (j < k)%nat → edges self !! j = Some e → synced e.

Lemma synced_below_alter c inc L (k : nat) f self :
  synced_below c inc L k self → synced_below c inc L k
    (set_edges (alter f k (edges self)) self).
Proof.
  intros (Hc & Hi & HL & Hs). split; [done|]. split; [done|].
  split; [simpl; by rewrite length_alter|].
  intros j e Hj. simpl. rewrite list_lookup_alter_ne by lia. by apply Hs.
Qed.

Lemma total_update_edge_traffic_quiet c inc L m (k : nat) :
  (k < L)%nat →
  total (quiet (synced_below c inc L k) (incident_probability c))
        (update_edge_traffic m k)
        (λ _, quiet (synced_below c inc L (S k)) (incident_probability c)).
Proof.
  intros Hk. unfold update_edge_traffic.
  apply total_get_bind. intros self0 H0.
  destruct H0 as [(Hc0 & Hi0 & HL0 & Hs0) Hq0].
  destruct (lookup_lt_is_Some_2 (edges self0) k) as [edge Hedge]; [lia|].
  rewrite Hedge.
  eapply total_conseq with
    (P := quiet (synced_below c inc L k) (incident_probability c))
    (Q := λ _, quiet (synced_below c inc L (S k)) (incident_probability c));
    [|by intros ? ->|done].
  assert (Hfree : ∀ k', world_free (synced_below c inc L k')) by by intros ? ? ?.
  apply total_quiet_random; [done|]. intros u1 _.
  apply total_quiet_random; [done|]. intros u2 _.
  eapply total_bind with
    (R := λ _, quiet (synced_below c inc L k) (incident_probability c)).
  { destruct (Qltb u2 _); [|by apply total_ret].
    apply total_quiet_random; [done|]. intros u3 _. by apply total_ret. }
  intros new_traffic. cbn zeta.
  set (nt := float_max 0 (float_min 1 (new_traffic * m))).
  unfold update_edge.
  eapply (total_quiet_modify _
            (λ s, synced_below c inc L k s ∧
                  ∃ e, edges s !! k = Some e ∧ Edge.weight e = nt));
    [done| |].
  { intros self Hs. split; [by apply synced_below_alter|].
    destruct Hs as (_ & _ & HL & _).
    destruct (lookup_lt_is_Some_2 (edges self) k) as [e He]; [lia|].
    exists (Edge.set_weight nt e). simpl.
    by rewrite list_lookup_alter_eq, He. }
  eapply (total_quiet_modify _ (synced_below c inc L (S k))); [done| |].
  { intros self [(Hc & Hi & HL & Hs) (e & He & Hw)].
    split; [done|]. split; [done|]. split; [simpl; by rewrite length_alter|].
    intros j e' Hj. simpl. rewrite list_lookup_alter.
    destruct (decide (k = j)) as [<-|Hne].
    - rewrite He. intros [= <-]. unfold synced. simpl. by rewrite Hw.
    - apply Hs. lia. }
  apply total_quiet_randint; [done|]. intros r.
  eapply (total_quiet_modify _ (synced_below c inc L (S k))); [done| |].
  { intros self (Hc & Hi & HL & Hs).
    split; [done|]. split; [done|]. split; [simpl; by rewrite length_alter|].
    intros j e' Hj. simpl. rewrite list_lookup_alter.
    destruct (decide (k = j)) as [<-|Hne]; [|by apply Hs].
    destruct (edges self !! k) as [e|] eqn:He; [|done].
    intros [= <-]. by apply (Hs k e). }
  destruct (Edge.isIncident edge); [by apply total_ret|].
  apply total_get_bind. intros self1 [(Hc1 & Hi1 & HL1 & Hs1) Hq1].
  eapply total_conseq with
    (P := quiet (synced_below c inc L (S k)) (incident_probability c))
    (Q := λ _, quiet (synced_below c inc L (S k)) (incident_probability c));
    [|by intros ? ->|done].
  apply total_quiet_random; [done|]. intros u4 Hu4.
  rewrite Hc1. rewrite (proj2 (Qltb_false _ _) Hu4). by apply total_ret.
Qed.

Lemma synced_update_incidents :
  keeps (on_edges (Forall synced)) _update_incidents (λ _, True).
Proof.
  unfold _update_incidents. repeat inv_step.
  - apply keeps_for_each_with. intros acc incident. repeat inv_step.
    unfold reset_edge_of. repeat inv_step.
    apply keeps_modify. intros self HI. unfold on_edges in *. simpl.
    apply Forall_alter; [done|]. by intros e _ He.
  - apply keeps_for_each. intros incident. by apply keeps_modify.
Qed.

(** X29.  A tick in which no draw falls below [incident_probability] (as
    when that probability is 0) returns and creates no incident, and after
    it every edge has the speed derived from its weight,
    [round(60 - 55 * weight)], whatever the speeds were before. *)
Theorem quiet_tick_resynchronises_speed self :
  (∀ n, incident_probability (config self) <= random_draws (world self) n) →
  ∃ self',
    _update_traffic self = (Returned tt, self') ∧
    (∀ i, In i (incidents self') → In i (incidents self)) ∧
    Forall (λ e, Edge.speed e = _calculate_speed (Edge.weight e))
           (edges self').
Proof.
  intros Hq. rewrite update_traffic_run.
  set (c := config self). set (L := length (edges self)).
  unfold mbind at 1, M_bind at 1, now_hour at 1. cbn [fst snd].
  unfold mbind at 1, M_bind at 1, get at 1.
  match goal with |- context [for_each _ ?b ≫= _] => set (body := b) end.
  match goal with |- ∃ _, (_ ≫= _) ?s = _ ∧ _ => set (self1 := s) end.
  assert (H1 : quiet (synced_below c (incidents self) L 0)
                     (incident_probability c) self1).
  { split; [|exact Hq]. repeat split; try done. intros j e Hj. lia. }
  cbn [edges set_world set_update_count] in *. fold L.
  destruct (total_for_each_seq
              (λ k, quiet (synced_below c (incidents self) L k)
                          (incident_probability c))
              body L 0) with (self := self1)
    as ([] & self2 & Hrun2 & [(Hc2 & Hi2 & HL2 & Hs2) Hq2]); [|done|].
  { intros i Hi. apply total_update_edge_traffic_quiet. lia. }
  destruct (update_incidents_run self2) as (es' & w & Hrun3 & _).
  pose proof (synced_update_incidents self2) as [Hsync _].
  { unfold on_edges. apply Forall_lookup. intros j e He.
    apply (Hs2 j e); [|done]. apply lookup_lt_Some in He. simpl; lia. }
  rewrite Hrun3 in Hsync. unfold on_edges in Hsync. cbn [snd edges] in Hsync.
  eexists. split.
  { change (length (edges self1)) with L.
    unfold mbind, M_bind. rewrite Hrun2. exact Hrun3. }
  split; [|exact Hsync].
  simpl. intros i Hi. apply filter_In in Hi as [Hi _]. by rewrite <- Hi2.
Qed.

Lemma quiet_tick_resynchronises_speed_witness :
  let self := one_road (1 # 2) in
  (∀ n, incident_probability (config self) <= random_draws (world self) n) ∧
  ∃ self',
    _update_traffic self = (Returned tt, self') ∧
    (∀ i, In i (incidents self') → In i (incidents self)) ∧
    Forall (λ e, Edge.speed e = _calculate_speed (Edge.weight e))
           (edges self').
Proof.
  intros self.
  assert (Hq : ∀ n, incident_probability (config self)
                      <= random_draws (world self) n).
  { intros n. do 9 (destruct n as [|n]; [vm_compute; discriminate|]).
    vm_compute. destruct n; discriminate. }
  clearbody self.
  exact (conj Hq (quiet_tick_resynchronises_speed self Hq)).
Defined.

End TrafficApiProperties.
